(** * Hidden maze game: maze, view system and game loop

    A shallow embedding of [maze.js], [view.js] and [game.js].  JavaScript
    numbers that hold grid coordinates, sizes and counters are integers of
    [Z]; arrays indexed by such numbers are finite maps from [Z], so that a
    read outside the array is [undefined] and a read through an undefined
    row is a [TypeError], as in the source. *)

From Stdlib Require Import ZArith Floats Lia Ascii.
From stdpp Require Import base tactics option list functions gmap strings pretty.

Set Warnings "-clear-no-such-hyp".

Local Open Scope Z_scope.

(** ** Completions

    A call either returns, throws, or never returns.  [OutOfFuel] is the
    model's rendering of a loop that is still running when its fuel is
    spent; [Unmodelled] marks a step whose JavaScript meaning lies outside
    the integer fragment embedded here. *)

Inductive abort : Type :=
  | TypeError
  | RangeError
  | OutOfFuel
  | Unmodelled.

Inductive completion (A : Type) : Type :=
  | Normal (a : A)
  | Abort (e : abort).

Arguments Normal {A} a.
Arguments Abort {A} e.

Global Instance abort_eq_dec : EqDecision abort.
Proof. solve_decision. Defined.

Global Instance completion_eq_dec {A} `{EqDecision A} : EqDecision (completion A).
Proof. solve_decision. Defined.

(** Reads that may throw: the exception monad. *)
Definition cbind {A B} (c : completion A) (k : A -> completion B) : completion B :=
  match c with
  | Normal a => k a
  | Abort e => Abort e
  end.

(** Mutating methods: state threaded through, kept at a throw. *)
Definition M (S A : Type) : Type := S -> completion A * S.

Definition ret {S A} (a : A) : M S A := fun s => (Normal a, s).
Definition throw {S A} (e : abort) : M S A := fun s => (Abort e, s).
Definition bind {S A B} (m : M S A) (k : A -> M S B) : M S B :=
  fun s => match m s with
           | (Normal a, s') => k a s'
           | (Abort e, s') => (Abort e, s')
           end.
Definition get {S} : M S S := fun s => (Normal s, s).
Definition gets {S A} (f : S -> A) : M S A := fun s => (Normal (f s), s).
Definition modify {S} (f : S -> S) : M S unit := fun s => (Normal tt, f s).
Definition lift {S A} (c : completion A) : M S A := fun s => (c, s).

Notation "'do' x <- c1 ; c2" := (bind c1 (fun x => c2))
  (at level 10, x name, c1 at level 100, c2 at level 200).
Notation "'run' c1 ; c2" := (bind c1 (fun _ => c2))
  (at level 10, c1 at level 100, c2 at level 200).
Notation "'try' x <- c1 ; c2" := (cbind c1 (fun x => c2))
  (at level 10, x name, c1 at level 100, c2 at level 200).

(** ** Arrays of arrays

    [a[y][x]]: a missing row makes the read throw, a missing element reads
    as [undefined]. *)

Abbreviation grid A := (gmap Z (gmap Z A)) (only parsing).

Definition read2 {A} (a : grid A) (y x : Z) : completion (option A) :=
  match a !! y with
  | None => Abort TypeError
  | Some row => Normal (row !! x)
  end.

(** [a[y][x] = v]: throws through a missing row, otherwise defines the
    element, inside the row's range or not. *)
Definition write2 {A} (a : grid A) (y x : Z) (v : A) : completion (grid A) :=
  match a !! y with
  | None => Abort TypeError
  | Some row => Normal (<[y := <[x := v]> row]> a)
  end.

(** [!v] for an element that is a boolean or [undefined]. *)
Definition js_not (v : option bool) : bool :=
  match v with
  | Some b => negb b
  | None => true
  end.

(** Truthiness of such an element. *)
Definition truthy (v : option bool) : bool :=
  match v with
  | Some b => b
  | None => false
  end.

(** [Array(n).fill(v)], for an integer [n]. *)
Definition filled {A} (n : Z) (v : A) : completion (gmap Z A) :=
  if n <? 0 then Abort RangeError
  else Normal (list_to_map ((fun i => (i, v)) <$> seqZ 0 n)).

(** [Array(h).fill().map(() => Array(w).fill(v))]: the inner constructor
    runs once per row, so it cannot throw when there are no rows. *)
Definition filled2 {A} (h w : Z) (v : A) : completion (grid A) :=
  if h <? 0 then Abort RangeError
  else if h =? 0 then Normal ∅
  else (try row <- filled w v; Normal (list_to_map ((fun i => (i, row)) <$> seqZ 0 h))).

(** [for (const a of l) body(a)] over a state. *)
Fixpoint forM {S A} (l : list A) (body : A -> M S unit) : M S unit :=
  match l with
  | [] => ret tt
  | a :: l' => run body a; forM l' body
  end.

(** ** Sets of strings

    A JavaScript [Set] iterates in insertion order and ignores the second
    insertion of a key: a duplicate-free list, extended at its end. *)

Module JsSet.

Definition t : Type := list string.

Definition has (k : string) (s : t) : bool := bool_decide (k ∈ s).
Definition add (k : string) (s : t) : t := if has k s then s else s ++ [k].
Definition of_list (l : list string) : t := foldl (fun s k => add k s) [] l.
Definition size (s : t) : Z := Z.of_nat (length s).

End JsSet.

(** ** Keys

    [`${x},${y}`] for integers, and the way back: [split(',')] followed by
    [Number], the latter on decimal integers only. *)

Definition comma : ascii := ","%char.

Definition join_comma (a b : string) : string := a +:+ String comma b.

Fixpoint split_comma (s : string) : list string :=
  match s with
  | EmptyString => [EmptyString]
  | String c s' =>
      if decide (c = comma) then EmptyString :: split_comma s'
      else match split_comma s' with
           | h :: t => String c h :: t
           | [] => [String c EmptyString]
           end
  end.

Definition digit_of (c : ascii) : option Z :=
  let n := Z.of_nat (nat_of_ascii c) in
  if (48 <=? n) && (n <=? 57) then Some (n - 48) else None.

Fixpoint digits_value (acc : Z) (s : string) : option Z :=
  match s with
  | EmptyString => Some acc
  | String c s' =>
      match digit_of c with
      | Some d => digits_value (acc * 10 + d) s'
      | None => None
      end
  end.

(** [Number(s)] where [s] is empty, a run of digits, or a minus sign and a
    run of digits; other strings are not modelled. *)
Definition Number (s : string) : completion Z :=
  match s with
  | EmptyString => Normal 0
  | String c s' =>
      if decide (c = "-"%char) then
        match s' with
        | EmptyString => Abort Unmodelled
        | _ => match digits_value 0 s' with
               | Some n => Normal (- n)
               | None => Abort Unmodelled
               end
        end
      else match digits_value 0 s with
           | Some n => Normal n
           | None => Abort Unmodelled
           end
  end.

Record point : Type := Point { px : Z; py : Z }.

Global Instance point_eq_dec : EqDecision point.
Proof. solve_decision. Defined.

(** ** Numbers that are not integers

    [Math.round] of a double, and the quotient behind the exploration
    rate, on the binary64 floats of the kernel. *)

Definition float_of_Z (z : Z) : float :=
  match z with
  | Z0 => 0%float
  | Zpos _ => PrimFloat.of_uint63 (Uint63.of_Z z)
  | Zneg _ => PrimFloat.opp (PrimFloat.of_uint63 (Uint63.of_Z (- z)))
  end.

(** [Math.floor(f)] as an integer; [None] for NaN and the infinities. *)
Definition Math_floor (f : float) : option Z :=
  match Prim2SF f with
  | S754_zero _ => Some 0
  | S754_finite s m e =>
      let v := if s then Zneg m else Zpos m in
      Some (if e >=? 0 then v * 2 ^ e else Z.shiftr v (- e))
  | _ => None
  end.

(** [Math.round(f)]: the nearest integer, ties towards plus infinity. *)
Definition Math_round (f : float) : option Z :=
  match Prim2SF f with
  | S754_zero _ => Some 0
  | S754_finite s m e =>
      let v := if s then Zneg m else Zpos m in
      Some (if e >=? 0 then v * 2 ^ e
            else Z.shiftr (2 * v + 2 ^ (- e)) (- e + 1))
  | _ => None
  end.

(** [Math.round((a / b) * 100)] *)
Definition percentage (a b : Z) : option Z :=
  Math_round (PrimFloat.mul (PrimFloat.div (float_of_Z a) (float_of_Z b)) 100%float).

(** ** maze.js *)

Module Maze.

Record walls_t : Type := Walls {
  horizontal : grid bool;
  vertical : grid bool
}.

Record t : Type := Build {
  width : Z;
  height : Z;
  cells : grid bool;
  walls : walls_t;
  start : point;
  end_ : point;
  path : list point
}.

(** [canMove(x, y, dx, dy)] *)
Definition canMove (m : t) (x y dx dy : Z) : completion bool :=
  if dx =? 1 then
    (try w <- read2 (vertical (walls m)) y (x + 1); Normal (js_not w))
  else if dx =? -1 then
    (try w <- read2 (vertical (walls m)) y x; Normal (js_not w))
  else if dy =? 1 then
    (try w <- read2 (horizontal (walls m)) (y + 1) x; Normal (js_not w))
  else if dy =? -1 then
    (try w <- read2 (horizontal (walls m)) y x; Normal (js_not w))
  else Normal false.

(** The wall type argument of [getWall]. *)
Inductive wall_type : Type := Horizontal | Vertical | OtherType.

(** [getWall(type, row, col)]: bounds are checked, and anything outside
    them is a wall. *)
Definition getWall (m : t) (type : wall_type) (row col : Z) : completion (option bool) :=
  match type with
  | Horizontal =>
      if (0 <=? row) && (row <=? height m) && (0 <=? col) && (col <? width m)
      then read2 (horizontal (walls m)) row col
      else Normal (Some true)
  | Vertical =>
      if (0 <=? row) && (row <? height m) && (0 <=? col) && (col <=? width m)
      then read2 (vertical (walls m)) row col
      else Normal (Some true)
  | OtherType => Normal (Some true)
  end.

Definition set_cells (c : grid bool) (m : t) : t :=
  Build (width m) (height m) c (walls m) (start m) (end_ m) (path m).
Definition set_walls (w : walls_t) (m : t) : t :=
  Build (width m) (height m) (cells m) w (start m) (end_ m) (path m).
Definition set_start (p : point) (m : t) : t :=
  Build (width m) (height m) (cells m) (walls m) p (end_ m) (path m).
Definition set_end (p : point) (m : t) : t :=
  Build (width m) (height m) (cells m) (walls m) (start m) p (path m).
Definition set_path (p : list point) (m : t) : t :=
  Build (width m) (height m) (cells m) (walls m) (start m) (end_ m) p.
Definition set_size (w h : Z) (m : t) : t :=
  Build w h (cells m) (walls m) (start m) (end_ m) (path m).

(** [this.walls.horizontal[y][x] = v] and [this.walls.vertical[y][x] = v] *)
Definition write_horizontal (y x : Z) (v : bool) : M t unit :=
  fun m => match write2 (horizontal (walls m)) y x v with
           | Normal h' => (Normal tt, set_walls (Walls h' (vertical (walls m))) m)
           | Abort e => (Abort e, m)
           end.

Definition write_vertical (y x : Z) (v : bool) : M t unit :=
  fun m => match write2 (vertical (walls m)) y x v with
           | Normal v' => (Normal tt, set_walls (Walls (horizontal (walls m)) v') m)
           | Abort e => (Abort e, m)
           end.

(** [this.cells[y][x] = v] *)
Definition write_cell (y x : Z) (v : bool) : M t unit :=
  fun m => match write2 (cells m) y x v with
           | Normal c' => (Normal tt, set_cells c' m)
           | Abort e => (Abort e, m)
           end.

(** [setBoundaryWalls()] *)
Definition setBoundaryWalls : M t unit :=
  do w <- gets width;
  do h <- gets height;
  run forM (seqZ 0 w) (fun x => write_horizontal 0 x true);
  run forM (seqZ 0 w) (fun x => write_horizontal h x true);
  run forM (seqZ 0 h) (fun y => write_vertical y 0 true);
  forM (seqZ 0 h) (fun y => write_vertical y w true).

(** [init()] *)
Definition init : M t unit :=
  do w <- gets width;
  do h <- gets height;
  do c <- lift (filled2 h w false);
  run modify (set_cells c);
  do hor <- lift (filled2 (h + 1) w true);
  do ver <- lift (filled2 h (w + 1) true);
  run modify (set_walls (Walls hor ver));
  setBoundaryWalls.

(** The constructor, [new Maze(width, height)]. *)
Definition new (w h : Z) : completion unit * t :=
  init (Build w h ∅ (Walls ∅ ∅) (Point 0 0) (Point (w - 1) (h - 1)) []).

Inductive direction : Type := Up | Right | Down | Left.

(** [removeWall(x, y, direction)] *)
Definition removeWall (x y : Z) (d : direction) : M t unit :=
  match d with
  | Up => write_horizontal y x false
  | Right => write_vertical y (x + 1) false
  | Down => write_horizontal (y + 1) x false
  | Left => write_vertical y x false
  end.

(** The four directions of the searches: up, right, down, left. *)
Definition directions : list (Z * Z) := [(0, -1); (1, 0); (0, 1); (-1, 0)].

Definition in_grid (m : t) (x y : Z) : bool :=
  (x >=? 0) && (x <? width m) && (y >=? 0) && (y <? height m).

Record neighbor : Type := Neighbor {
  nb_x : Z;
  nb_y : Z;
  nb_direction : direction
}.

(** [getUnvisitedNeighbors(x, y)] *)
Fixpoint unvisitedLoop (m : t) (x y : Z) (dirs : list (Z * Z * direction))
    (neighbors : list neighbor) : completion (list neighbor) :=
  match dirs with
  | [] => Normal neighbors
  | (dx, dy, d) :: dirs' =>
      let nx := x + dx in
      let ny := y + dy in
      if in_grid m nx ny then
        try c <- read2 (cells m) ny nx;
        unvisitedLoop m x y dirs'
          (if negb (truthy c) then neighbors ++ [Neighbor nx ny d] else neighbors)
      else unvisitedLoop m x y dirs' neighbors
  end.

Definition getUnvisitedNeighbors (m : t) (x y : Z) : completion (list neighbor) :=
  unvisitedLoop m x y [(0, -1, Up); (1, 0, Right); (0, 1, Down); (-1, 0, Left)] [].

(** The loop of [createPathToEnd]. *)
Fixpoint carveLoop (fuel : nat) (x y : Z) : M t unit :=
  match fuel with
  | O => throw OutOfFuel
  | S fuel' =>
      do e <- gets end_;
      if negb (x =? px e) || negb (y =? py e) then
        if x <? px e then
          run write_vertical y (x + 1) false;
          run write_cell y (x + 1) true;
          carveLoop fuel' (x + 1) y
        else if x >? px e then
          run write_vertical y x false;
          run write_cell y (x - 1) true;
          carveLoop fuel' (x - 1) y
        else if y <? py e then
          run write_horizontal (y + 1) x false;
          run write_cell (y + 1) x true;
          carveLoop fuel' x (y + 1)
        else
          run write_horizontal y x false;
          run write_cell (y - 1) x true;
          carveLoop fuel' x (y - 1)
      else ret tt
  end.

(** [createPathToEnd()]: every iteration moves one cell closer to the
    end, which bounds the fuel. *)
Definition createPathToEnd : M t unit :=
  do s <- gets start;
  do e <- gets end_;
  carveLoop (S (Z.to_nat (Z.abs (px e - px s) + Z.abs (py e - py s)))) (px s) (py s).

(** The [for] loop over the directions in [ensurePathExists]. *)
Fixpoint reachNeighbors (m : t) (current : point) (dirs : list (Z * Z))
    (queue : list point) (visited : grid bool) : completion (list point * grid bool) :=
  match dirs with
  | [] => Normal (queue, visited)
  | (dx, dy) :: dirs' =>
      let nx := px current + dx in
      let ny := py current + dy in
      if in_grid m nx ny then
        try ok <- canMove m (px current) (py current) dx dy;
        if ok then
          try v <- read2 visited ny nx;
          if negb (truthy v) then
            try visited' <- write2 visited ny nx true;
            reachNeighbors m current dirs' (queue ++ [Point nx ny]) visited'
          else reachNeighbors m current dirs' queue visited
        else reachNeighbors m current dirs' queue visited
      else reachNeighbors m current dirs' queue visited
  end.

(** The [while] loop of [ensurePathExists]: [true] when the end was
    dequeued, [false] when the queue ran empty. *)
Fixpoint reachLoop (fuel : nat) (m : t) (queue : list point) (visited : grid bool)
    : completion bool :=
  match fuel with
  | O => Abort OutOfFuel
  | S fuel' =>
      match queue with
      | [] => Normal false
      | current :: queue' =>
          if (px current =? px (end_ m)) && (py current =? py (end_ m)) then Normal true
          else
            try qv <- reachNeighbors m current directions queue' visited;
            reachLoop fuel' m (fst qv) (snd qv)
      end
  end.

(** The number of iterations a search of the grid is given: every cell
    enters the queue at most once. *)
Definition searchFuel (m : t) : nat := S (S (Z.to_nat (width m * height m))).

(** [ensurePathExists()] *)
Definition ensurePathExists : M t unit :=
  do m <- get;
  do visited <- lift (filled2 (height m) (width m) false);
  do visited' <- lift (write2 visited (py (start m)) (px (start m)) true);
  do found <- lift (reachLoop (searchFuel m) m [start m] visited');
  if found then ret tt else createPathToEnd.

(** [buildPath(parent, end)]: [null] is [Some None], and an element that
    was never written is [undefined], whose fields cannot be read. *)
Fixpoint buildPath (fuel : nat) (parent : grid (option point)) (current : point)
    (path : list point) : completion (list point) :=
  match fuel with
  | O => Abort OutOfFuel
  | S fuel' =>
      let path := current :: path in
      try next <- read2 parent (py current) (px current);
      match next with
      | None => Abort TypeError
      | Some None => Normal path
      | Some (Some p) => buildPath fuel' parent p path
      end
  end.

(** The [for] loop over the directions in [calculatePath]. *)
Fixpoint pathNeighbors (m : t) (current : point) (dirs : list (Z * Z))
    (queue : list point) (visited : grid bool) (parent : grid (option point))
    : completion (list point * grid bool * grid (option point)) :=
  match dirs with
  | [] => Normal (queue, visited, parent)
  | (dx, dy) :: dirs' =>
      let nx := px current + dx in
      let ny := py current + dy in
      if in_grid m nx ny then
        try ok <- canMove m (px current) (py current) dx dy;
        if ok then
          try v <- read2 visited ny nx;
          if negb (truthy v) then
            try visited' <- write2 visited ny nx true;
            try parent' <- write2 parent ny nx (Some current);
            pathNeighbors m current dirs' (queue ++ [Point nx ny]) visited' parent'
          else pathNeighbors m current dirs' queue visited parent
        else pathNeighbors m current dirs' queue visited parent
      else pathNeighbors m current dirs' queue visited parent
  end.

(** The [while] loop of [calculatePath]: the path that is assigned to
    [this.path]. *)
Fixpoint pathLoop (fuel : nat) (m : t) (queue : list point) (visited : grid bool)
    (parent : grid (option point)) : completion (list point) :=
  match fuel with
  | O => Abort OutOfFuel
  | S fuel' =>
      match queue with
      | [] => Normal []
      | current :: queue' =>
          if (px current =? px (end_ m)) && (py current =? py (end_ m)) then
            buildPath (searchFuel m) parent current []
          else
            try qvp <- pathNeighbors m current directions queue' visited parent;
            pathLoop fuel' m (fst (fst qvp)) (snd (fst qvp)) (snd qvp)
      end
  end.

(** The search of [calculatePath], before the assignment to [this.path]. *)
Definition searchPath (m : t) : completion (list point) :=
  try visited <- filled2 (height m) (width m) false;
  try parent <- filled2 (height m) (width m) None;
  try visited' <- write2 visited (py (start m)) (px (start m)) true;
  pathLoop (searchFuel m) m [start m] visited' parent.

(** [calculatePath()] *)
Definition calculatePath : M t unit :=
  do m <- get;
  do p <- lift (searchPath m);
  modify (set_path p).

(** *** Generation

    [Math.random] is a global that [generateFixedLevel] replaces by a
    closure over [seedValue] and puts back afterwards.  The host's own
    generator is a parameter: a state and a step that yields a double. *)

Section Generation.

Context {R : Type} (native_random : R -> float * R).

Inductive random_fn : Type :=
  | NativeRandom
  | SeededRandom (seedValue : Z).

Record env : Type := Env {
  Math_random : random_fn;
  host : R
}.

(** The maze under generation and the globals it runs against. *)
Record machine : Type := Machine {
  this : t;
  globals : env
}.

Definition onThis {A} (c : M t A) : M machine A :=
  fun k => match c (this k) with
           | (r, m') => (r, Machine m' (globals k))
           end.

(** A call of [Math.random()]. *)
Definition random : M machine float :=
  fun k =>
    match Math_random (globals k) with
    | NativeRandom =>
        let (f, h') := native_random (host (globals k)) in
        (Normal f, Machine (this k) (Env NativeRandom h'))
    | SeededRandom seedValue =>
        let seedValue' := Z.rem (seedValue * 9301 + 49297) 233280 in
        (Normal (PrimFloat.div (float_of_Z seedValue') (float_of_Z 233280)),
         Machine (this k) (Env (SeededRandom seedValue') (host (globals k))))
    end.

(** [Math.floor(Math.random() * n)] *)
Definition randomBelow (n : Z) : M machine Z :=
  do f <- random;
  match Math_floor (PrimFloat.mul f (float_of_Z n)) with
  | Some i => ret i
  | None => throw Unmodelled
  end.

(** The [do ... while] loop that draws the end cell. *)
Fixpoint drawEnd (fuel : nat) (startX startY : Z) : M machine point :=
  match fuel with
  | O => throw OutOfFuel
  | S fuel' =>
      do w <- gets (fun k => width (this k));
      do endX <- randomBelow w;
      do h <- gets (fun k => height (this k));
      do endY <- randomBelow h;
      if (endX =? startX) && (endY =? startY) then drawEnd fuel' startX startY
      else ret (Point endX endY)
  end.

(** The carving loop; the stack is kept with its top first. *)
Fixpoint carve (fuel : nat) (stack : list point) : M machine unit :=
  match fuel with
  | O => throw OutOfFuel
  | S fuel' =>
      match stack with
      | [] => ret tt
      | current :: below =>
          do m <- gets this;
          do neighbors <- lift (getUnvisitedNeighbors m (px current) (py current));
          if (Z.of_nat (length neighbors) >? 0) then
            do randomIndex <- randomBelow (Z.of_nat (length neighbors));
            match (if randomIndex <? 0 then None
                   else neighbors !! Z.to_nat randomIndex) with
            | None => throw TypeError
            | Some nb =>
                run onThis (removeWall (px current) (py current) (nb_direction nb));
                run onThis (write_cell (nb_y nb) (nb_x nb) true);
                carve fuel' (Point (nb_x nb) (nb_y nb) :: stack)
            end
          else carve fuel' below
      end
  end.

(** [generate()], with [fuel] iterations for each of its two loops. *)
Definition generate (fuel : nat) : M machine unit :=
  run onThis init;
  do w <- gets (fun k => width (this k));
  do startX <- randomBelow w;
  do h <- gets (fun k => height (this k));
  do startY <- randomBelow h;
  run onThis (modify (set_start (Point startX startY)));
  do e <- drawEnd fuel startX startY;
  run onThis (modify (set_end e));
  run onThis (write_cell startY startX true);
  run carve fuel [Point startX startY];
  run onThis ensurePathExists;
  onThis calculatePath.

(** [generateFixedLevel(level)] *)
Definition generateFixedLevel (fuel : nat) (level : Z) : M machine unit :=
  let seed := level * 12345 in
  do originalRandom <- gets (fun k => Math_random (globals k));
  run modify (fun k => Machine (this k) (Env (SeededRandom seed) (host (globals k))));
  run generate fuel;
  modify (fun k => Machine (this k) (Env originalRandom (host (globals k)))).

(** [generateWithSize(size)] *)
Definition generateWithSize (fuel : nat) (size : Z) : M machine unit :=
  run onThis (modify (set_size size size));
  generate fuel.

End Generation.

(** [getCell(x, y)]: outside the grid a cell reads as not visited. *)
Definition getCell (m : t) (x y : Z) : completion (option bool) :=
  if (x >=? 0) && (x <? width m) && (y >=? 0) && (y <? height m)
  then read2 (cells m) y x
  else Normal (Some false).

Definition getSize (m : t) : Z * Z := (width m, height m).
Definition getStart (m : t) : point := start m.
Definition getEnd (m : t) : point := end_ m.
Definition getPath (m : t) : list point := path m.

End Maze.

(** ** view.js *)

Module ViewSystem.

Record t : Type := Build {
  mode : string;
  viewRange : Z;
  visibleCells : JsSet.t;
  exploredCells : JsSet.t;
  permanentCells : JsSet.t;
  cache : gmap string (list string)
}.

Definition set_mode (v : string) (s : t) : t :=
  Build v (viewRange s) (visibleCells s) (exploredCells s) (permanentCells s) (cache s).
Definition set_viewRange (v : Z) (s : t) : t :=
  Build (mode s) v (visibleCells s) (exploredCells s) (permanentCells s) (cache s).
Definition set_visibleCells (v : JsSet.t) (s : t) : t :=
  Build (mode s) (viewRange s) v (exploredCells s) (permanentCells s) (cache s).
Definition set_exploredCells (v : JsSet.t) (s : t) : t :=
  Build (mode s) (viewRange s) (visibleCells s) v (permanentCells s) (cache s).
Definition set_permanentCells (v : JsSet.t) (s : t) : t :=
  Build (mode s) (viewRange s) (visibleCells s) (exploredCells s) v (cache s).
Definition set_cache (v : gmap string (list string)) (s : t) : t :=
  Build (mode s) (viewRange s) (visibleCells s) (exploredCells s) (permanentCells s) v.

(** The constructor: [options.mode || 'permanent'], [options.viewRange || 1]. *)
Definition new (omode : option string) (orange : option Z) : t :=
  Build (match omode with
         | Some md => if decide (md = EmptyString) then "permanent" else md
         | None => "permanent"
         end)
        (match orange with
         | Some r => if r =? 0 then 1 else r
         | None => 1
         end)
        [] [] [] ∅.

(** [setMode(mode)] *)
Definition setMode (md : string) : M t unit :=
  if negb (bool_decide (md = "permanent")) && negb (bool_decide (md = "instant"))
  then ret tt
  else run modify (set_mode md); modify (set_cache ∅).

(** [setViewRange(range)] *)
Definition setViewRange (range : Z) : M t unit :=
  let range := if range <? 1 then 1 else range in
  let range := if range >? 5 then 5 else range in
  run modify (set_viewRange range); modify (set_cache ∅).

(** [getCellKey(x, y)] *)
Definition getCellKey (x y : Z) : string := join_comma (pretty x) (pretty y).

(** [parseCellKey(cellKey)]: the first two fields of the key, as numbers. *)
Definition parseCellKey (cellKey : string) : completion point :=
  match split_comma cellKey with
  | sx :: sy :: _ =>
      try x <- Number sx;
      try y <- Number sy;
      Normal (Point x y)
  | _ => Abort Unmodelled
  end.

(** The loop of [hasLineOfSight], one iteration per unit of fuel. *)
Fixpoint sightLoop (fuel : nat) (maze : Maze.t) (dx dy sx sy x2 y2 : Z)
    (err currentX currentY : Z) : completion bool :=
  match fuel with
  | O => Abort OutOfFuel
  | S fuel' =>
      if (currentX =? x2) && (currentY =? y2) then Normal true
      else
        let e2 := 2 * err in
        let err1 := if e2 >? - dy then err - dy else err in
        let nextX := if e2 >? - dy then currentX + sx else currentX in
        let err2 := if e2 <? dx then err1 + dx else err1 in
        let nextY := if e2 <? dx then currentY + sy else currentY in
        let moveX := nextX - currentX in
        let moveY := nextY - currentY in
        try ok <- Maze.canMove maze currentX currentY moveX moveY;
        if ok then sightLoop fuel' maze dx dy sx sy x2 y2 err2 nextX nextY
        else Normal false
  end.

(** [hasLineOfSight(x1, y1, x2, y2, maze)].  The walk takes at most
    [dx + dy] steps (see [hasLineOfSight_returns]), which bounds the fuel. *)
Definition hasLineOfSight (x1 y1 x2 y2 : Z) (maze : Maze.t) : completion bool :=
  let dx := Z.abs (x2 - x1) in
  let dy := Z.abs (y2 - y1) in
  let sx := if x1 <? x2 then 1 else -1 in
  let sy := if y1 <? y2 then 1 else -1 in
  sightLoop (S (Z.to_nat (dx + dy))) maze dx dy sx sy x2 y2 (dx - dy) x1 y1.

(** The inner loop of [calculateVisibleArea]: one row of the window. *)
Fixpoint scanRow (maze : Maze.t) (playerX playerY cellY : Z) (dxs : list Z)
    (visible : JsSet.t) : completion JsSet.t :=
  match dxs with
  | [] => Normal visible
  | dx :: dxs' =>
      let cellX := playerX + dx in
      if (cellX >=? 0) && (cellX <? Maze.width maze)
         && (cellY >=? 0) && (cellY <? Maze.height maze) then
        try los <- hasLineOfSight playerX playerY cellX cellY maze;
        scanRow maze playerX playerY cellY dxs'
          (if los then JsSet.add (getCellKey cellX cellY) visible else visible)
      else scanRow maze playerX playerY cellY dxs' visible
  end.

(** The outer loop of [calculateVisibleArea]. *)
Fixpoint scanWindow (maze : Maze.t) (range playerX playerY : Z) (dys : list Z)
    (visible : JsSet.t) : completion JsSet.t :=
  match dys with
  | [] => Normal visible
  | dy :: dys' =>
      try visible' <- scanRow maze playerX playerY (playerY + dy)
                        (seqZ (- range) (2 * range + 1)) visible;
      scanWindow maze range playerX playerY dys' visible'
  end.

Definition cacheKey (playerX playerY range : Z) : string :=
  join_comma (pretty playerX) (join_comma (pretty playerY) (pretty range)).

(** [calculateVisibleArea(playerX, playerY, maze)] *)
Definition calculateVisibleArea (playerX playerY : Z) (maze : Maze.t) : M t JsSet.t :=
  do range <- gets viewRange;
  do c <- gets cache;
  match c !! cacheKey playerX playerY range with
  | Some l => ret (JsSet.of_list l)
  | None =>
      do visible <- lift (scanWindow maze range playerX playerY
                            (seqZ (- range) (2 * range + 1)) []);
      run modify (set_cache (<[cacheKey playerX playerY range := visible]> c));
      ret visible
  end.

(** [update(playerX, playerY, maze)].  In permanent mode [visibleCells] is
    the very set that [calculateVisibleArea] returned, and the second loop
    adds the permanent cells to it. *)
Definition update (playerX playerY : Z) (maze : Maze.t) : M t JsSet.t :=
  do newVisibleCells <- calculateVisibleArea playerX playerY maze;
  run modify (set_visibleCells newVisibleCells);
  do md <- gets mode;
  run (if bool_decide (md = "permanent") then
         run forM newVisibleCells (fun cellKey =>
               run modify (fun s => set_exploredCells (JsSet.add cellKey (exploredCells s)) s);
               modify (fun s => set_permanentCells (JsSet.add cellKey (permanentCells s)) s));
         do perm <- gets permanentCells;
         forM perm (fun cellKey =>
               modify (fun s => set_visibleCells (JsSet.add cellKey (visibleCells s)) s))
       else
         run modify (set_exploredCells []);
         forM newVisibleCells (fun cellKey =>
               modify (fun s => set_exploredCells (JsSet.add cellKey (exploredCells s)) s)));
  gets visibleCells.

(** [isCellVisible(x, y)] and [isCellExplored(x, y)] *)
Definition isCellVisible (s : t) (x y : Z) : bool :=
  JsSet.has (getCellKey x y) (visibleCells s).

Definition isCellExplored (s : t) (x y : Z) : bool :=
  JsSet.has (getCellKey x y) (exploredCells s).

(** [getVisibleCells()] *)
Fixpoint parseAll (keys : list string) : completion (list point) :=
  match keys with
  | [] => Normal []
  | k :: keys' =>
      try c <- parseCellKey k;
      try cs <- parseAll keys';
      Normal (c :: cs)
  end.

Definition getVisibleCells (s : t) : completion (list point) :=
  parseAll (visibleCells s).

(** [getExploredCells()] *)
Definition getExploredCells (s : t) : completion (list point) :=
  parseAll (exploredCells s).

(** [reset()] *)
Definition reset : M t unit :=
  run modify (set_visibleCells []);
  run modify (set_exploredCells []);
  run modify (set_permanentCells []);
  modify (set_cache ∅).

(** [addExploredCell(x, y)] and [addExploredCells(cells)] *)
Definition addExploredCell (x y : Z) : M t unit :=
  let cellKey := getCellKey x y in
  run modify (fun s => set_exploredCells (JsSet.add cellKey (exploredCells s)) s);
  do md <- gets mode;
  if bool_decide (md = "permanent") then
    modify (fun s => set_permanentCells (JsSet.add cellKey (permanentCells s)) s)
  else ret tt.

Definition addExploredCells (cells : list point) : M t unit :=
  forM cells (fun cell => addExploredCell (px cell) (py cell)).

(** [getViewRange()] *)
Definition getViewRange (s : t) : Z := viewRange s.

(** The object that [exportData] returns and [importData] reads; a field
    that is absent is [None]. *)
Record data : Type := Data {
  data_mode : option string;
  data_viewRange : option Z;
  data_exploredCells : option (list string);
  data_permanentCells : option (list string)
}.

(** [exportData()] *)
Definition exportData (s : t) : data :=
  Data (Some (mode s)) (Some (viewRange s)) (Some (exploredCells s))
    (Some (permanentCells s)).

(** [importData(data)]: [data.mode || this.mode] and
    [data.viewRange || this.viewRange]; an array, empty or not, is truthy. *)
Definition importData (d : data) : M t unit :=
  run modify (fun s =>
        set_mode (match data_mode d with
                  | Some md => if decide (md = EmptyString) then mode s else md
                  | None => mode s
                  end) s);
  run modify (fun s =>
        set_viewRange (match data_viewRange d with
                       | Some r => if r =? 0 then viewRange s else r
                       | None => viewRange s
                       end) s);
  run modify (set_exploredCells []);
  run modify (set_permanentCells []);
  run match data_exploredCells d with
      | Some l =>
          forM l (fun cellKey =>
            modify (fun s => set_exploredCells (JsSet.add cellKey (exploredCells s)) s))
      | None => ret tt
      end;
  run match data_permanentCells d with
      | Some l =>
          forM l (fun cellKey =>
            modify (fun s => set_permanentCells (JsSet.add cellKey (permanentCells s)) s))
      | None => ret tt
      end;
  do md <- gets mode;
  if bool_decide (md = "permanent") then
    do perm <- gets permanentCells;
    modify (set_visibleCells (JsSet.of_list perm))
  else ret tt.

End ViewSystem.

(** ** game.js *)

Module Game.

Record config_t : Type := Config {
  mazeSize : Z;
  viewMode : string;
  cellSize : Z;
  showSolution : bool
}.

Record state_t : Type := State {
  isRunning : bool;
  isPaused : bool;
  isGameOver : bool;
  isVictory : bool;
  moves : Z;
  startTime : option Z;
  endTime : option Z
}.

Record player_t : Type := Player {
  x : Z;
  y : Z;
  prevX : Z;
  prevY : Z
}.

Record t : Type := Build {
  config : config_t;
  state : state_t;
  maze : Maze.t;
  player : player_t;
  viewSystem : ViewSystem.t;
  exploredCells : JsSet.t;
  visitedCells : JsSet.t
}.

(** What the registered listeners are called with, in call order. *)
Inductive event : Type :=
  | OnGameStart (mazeSize : Z) (viewMode : string) (startPosition : player_t) (endPosition : point)
  | OnGameOver (moves time : Z)
  | OnVictory (moves time : Z) (exploreRate : option Z) (exploredCells totalCells : Z)
  | OnMove (from to : point) (moves : Z)
  | OnCellExplored (x y : Z) (totalExplored totalCells : Z).

(** A game together with the calls made to its listeners so far. *)
Record world : Type := World {
  game : t;
  trace : list event
}.

Definition G (A : Type) : Type := M world A.

Definition getg {A} (f : t -> A) : G A := gets (fun w => f (game w)).
Definition modg (f : t -> t) : G unit := modify (fun w => World (f (game w)) (trace w)).

Definition set_config (v : config_t) (g : t) : t :=
  Build v (state g) (maze g) (player g) (viewSystem g) (exploredCells g) (visitedCells g).
Definition set_state (v : state_t) (g : t) : t :=
  Build (config g) v (maze g) (player g) (viewSystem g) (exploredCells g) (visitedCells g).
Definition set_player (v : player_t) (g : t) : t :=
  Build (config g) (state g) (maze g) v (viewSystem g) (exploredCells g) (visitedCells g).
Definition set_viewSystem (v : ViewSystem.t) (g : t) : t :=
  Build (config g) (state g) (maze g) (player g) v (exploredCells g) (visitedCells g).
Definition set_exploredCells (v : JsSet.t) (g : t) : t :=
  Build (config g) (state g) (maze g) (player g) (viewSystem g) v (visitedCells g).
Definition set_visitedCells (v : JsSet.t) (g : t) : t :=
  Build (config g) (state g) (maze g) (player g) (viewSystem g) (exploredCells g) v.

(** A method of [this.viewSystem], run on the game. *)
Definition onViewSystem {A} (c : M ViewSystem.t A) : G A :=
  fun w => match c (viewSystem (game w)) with
           | (r, vs') => (r, World (set_viewSystem vs' (game w)) (trace w))
           end.

(** [triggerEvent(event, data)]: every listener is called, and what a
    listener throws is caught. *)
Definition triggerEvent (e : event) : G unit :=
  modify (fun w => World (game w) (trace w ++ [e])).

(** [getCellKey(x, y)] *)
Definition getCellKey (x y : Z) : string := join_comma (pretty x) (pretty y).

(** [updateVisibility()] *)
Definition updateVisibility : G unit :=
  do p <- getg player;
  do mz <- getg maze;
  run onViewSystem (ViewSystem.update (x p) (y p) mz);
  do vs <- getg viewSystem;
  do visibleCells <- lift (ViewSystem.getVisibleCells vs);
  forM visibleCells (fun cell =>
    let cellKey := getCellKey (px cell) (py cell) in
    do explored <- getg exploredCells;
    if negb (JsSet.has cellKey explored) then
      run modg (set_exploredCells (JsSet.add cellKey explored));
      do explored' <- getg exploredCells;
      do size <- getg (fun g => mazeSize (config g));
      triggerEvent (OnCellExplored (px cell) (py cell) (JsSet.size explored') (size * size))
    else ret tt).

(** [victory()], at clock reading [now]. *)
Definition victory (now : Z) : G unit :=
  run modg (fun g =>
        let s := state g in
        set_state (State false (isPaused s) true true (moves s) (startTime s) (Some now)) g);
  do g <- getg id;
  let gameTime := (now - default 0 (startTime (state g))) `div` 1000 in
  let totalCells := mazeSize (config g) * mazeSize (config g) in
  let exploreRate := percentage (JsSet.size (exploredCells g)) totalCells in
  triggerEvent (OnVictory (moves (state g)) gameTime exploreRate
                  (JsSet.size (exploredCells g)) totalCells).

(** [movePlayer(dx, dy)], at clock reading [now]. *)
Definition movePlayer (now : Z) (dx dy : Z) : G bool :=
  do st <- getg state;
  if negb (isRunning st) || isPaused st || isGameOver st then ret false
  else if ((dx =? 0) && (dy =? 0)) || (Z.abs dx >? 1) || (Z.abs dy >? 1) then ret false
  else
    do p <- getg player;
    do size <- getg (fun g => mazeSize (config g));
    let newX := x p + dx in
    let newY := y p + dy in
    if (newX <? 0) || (newX >=? size) || (newY <? 0) || (newY >=? size) then ret false
    else
      do mz <- getg maze;
      do ok <- lift (Maze.canMove mz (x p) (y p) dx dy);
      if negb ok then ret false
      else
        run modg (set_player (Player newX newY (x p) (y p)));
        run modg (fun g =>
              let s := state g in
              set_state (State (isRunning s) (isPaused s) (isGameOver s) (isVictory s)
                           (moves s + 1) (startTime s) (endTime s)) g);
        run modg (fun g => set_visitedCells (JsSet.add (getCellKey newX newY) (visitedCells g)) g);
        run updateVisibility;
        do p' <- getg player;
        do mv <- getg (fun g => moves (state g));
        run triggerEvent (OnMove (Point (prevX p') (prevY p')) (Point newX newY) mv);
        do mz' <- getg maze;
        let e := Maze.getEnd mz' in
        if (newX =? px e) && (newY =? py e) then
          run victory now; ret true
        else ret true.

(** [isCellExplored(x, y)] and [isCellVisited(x, y)] *)
Definition isCellExplored (g : t) (x y : Z) : bool :=
  JsSet.has (getCellKey x y) (exploredCells g).

Definition isCellVisited (g : t) (x y : Z) : bool :=
  JsSet.has (getCellKey x y) (visitedCells g).

(** [setViewMode(mode)] *)
Definition setViewMode (md : string) : G unit :=
  if negb (bool_decide (md = "permanent")) && negb (bool_decide (md = "instant"))
  then ret tt
  else
    run onViewSystem (ViewSystem.setMode md);
    run modg (fun g =>
          let c := config g in
          set_config (Config (mazeSize c) md (cellSize c) (showSolution c)) g);
    updateVisibility.

(** [togglePause()] *)
Definition togglePause : G unit :=
  do st <- getg state;
  if negb (isRunning st) || isGameOver st then ret tt
  else modg (set_state (State (isRunning st) (negb (isPaused st)) (isGameOver st)
                          (isVictory st) (moves st) (startTime st) (endTime st))).

(** [gameOver()], at clock reading [now]. *)
Definition gameOver (now : Z) : G unit :=
  run modg (fun g =>
        let s := state g in
        set_state (State false (isPaused s) true false (moves s) (startTime s) (Some now)) g);
  do st <- getg state;
  triggerEvent (OnGameOver (moves st) ((now - default 0 (startTime st)) `div` 1000)).

(** [start()], at clock reading [now]. *)
Definition start (now : Z) : G unit :=
  do st <- getg state;
  if isRunning st then ret tt
  else
    run modg (set_state (State true (isPaused st) false false (moves st) (Some now) (endTime st)));
    do g <- getg id;
    triggerEvent (OnGameStart (mazeSize (config g)) (viewMode (config g)) (player g)
                    (Maze.getEnd (maze g))).

(** [isCellVisible(x, y)] *)
Definition isCellVisible (g : t) (x y : Z) : bool :=
  ViewSystem.isCellVisible (viewSystem g) x y.

(** [getSolutionPath()] *)
Definition getSolutionPath (g : t) : list point := Maze.getPath (maze g).

Section Init.

Context {R : Type} (native_random : R -> float * R).

(** A game, its listeners' calls, and the globals the maze generator
    runs against. *)
Definition session : Type := world * Maze.env (R:=R).

Definition onWorld {A} (c : G A) : M session A :=
  fun k => match c (fst k) with
           | (r, w') => (r, (w', snd k))
           end.

(** [this.maze.generate()] *)
Definition generateMaze (fuel : nat) : M session unit :=
  fun k =>
    match Maze.generate native_random fuel (Maze.Machine (maze (game (fst k))) (snd k)) with
    | (r, k') =>
        (r, (World (Build (config (game (fst k))) (state (game (fst k))) (Maze.this k')
                      (player (game (fst k))) (viewSystem (game (fst k)))
                      (exploredCells (game (fst k))) (visitedCells (game (fst k))))
                   (trace (fst k)),
             Maze.globals k'))
    end.

(** [init()], with [fuel] for the loops of the generator. *)
Definition init (fuel : nat) : M session unit :=
  do size <- onWorld (getg (fun g => mazeSize (config g)));
  match Maze.new size size with
  | (Abort e, _) => throw e
  | (Normal _, mz) =>
      run onWorld (modg (fun g => Build (config g) (state g) mz (player g) (viewSystem g)
                                    (exploredCells g) (visitedCells g)));
      run generateMaze fuel;
      do mz' <- onWorld (getg maze);
      let s := Maze.getStart mz' in
      run onWorld (modg (set_player (Player (px s) (py s) (px s) (py s))));
      run onWorld (modg (set_exploredCells [getCellKey (px s) (py s)]));
      run onWorld (modg (set_visitedCells [getCellKey (px s) (py s)]));
      do md <- onWorld (getg (fun g => viewMode (config g)));
      run onWorld (modg (set_viewSystem (ViewSystem.new (Some md) (Some 1))));
      run onWorld updateVisibility;
      onWorld (modg (set_state (State false false false false 0 None None)))
  end.

(** [restart()] *)
Definition restart (fuel : nat) (now : Z) : M session unit :=
  run init fuel;
  onWorld (start now).

(** [setMazeSize(size)] *)
Definition setMazeSize (fuel : nat) (now : Z) (size : Z) : M session unit :=
  if (size <? 5) || (size >? 30) then ret tt
  else
    run onWorld (modg (fun g =>
          let c := config g in
          set_config (Config size (viewMode c) (cellSize c) (showSolution c)) g));
    restart fuel now.

(** [new Game(options)], for the options that are present.  Before
    [init] runs the game has no maze, player or view system; a
    constructor that throws hands no object to its caller. *)
Definition new (fuel : nat) (omazeSize : option Z) (oviewMode : option string)
    (e : Maze.env (R:=R)) : completion session :=
  let size := match omazeSize with
              | Some n => if n =? 0 then 15 else n
              | None => 15
              end in
  let md := match oviewMode with
            | Some v => if decide (v = EmptyString) then "permanent" else v
            | None => "permanent"
            end in
  let g := Build (Config size md 40 false) (State false false false false 0 None None)
             (Maze.Build 0 0 ∅ (Maze.Walls ∅ ∅) (Point 0 0) (Point 0 0) [])
             (Player 0 0 0 0) (ViewSystem.new None None) [] [] in
  match init fuel (World g [], e) with
  | (Normal _, k) => Normal k
  | (Abort err, _) => Abort err
  end.

End Init.

End Game.

(** * Vocabulary of the properties *)

(** A printed integer has no comma in it. *)
Fixpoint has_comma (s : string) : bool :=
  match s with
  | EmptyString => false
  | String c s' => bool_decide (c = comma) || has_comma s'
  end.

(** A stand-in for the host's [Math.random]: deterministic, so that the
    games below can be replayed. *)
Definition hostRandom (s : Z) : float * Z :=
  let s' := (s * 9301 + 49297) `mod` 233280 in
  (PrimFloat.div (float_of_Z s') (float_of_Z 233280), s').

Definition nullGame : Game.world :=
  Game.World
    (Game.Build (Game.Config 0 "" 0 false)
       (Game.State false false false false 0 None None)
       (Maze.Build 0 0 ∅ (Maze.Walls ∅ ∅) (Point 0 0) (Point 0 0) [])
       (Game.Player 0 0 0 0) (ViewSystem.new None None) [] [])
    [].

(** [new Game({mazeSize, viewMode})] followed by [start()] at clock
    reading 1000, with the listeners' calls so far dropped. *)
Definition startedGame (size : Z) (viewMode : string) (seed : Z) : Game.world :=
  match Game.new hostRandom 100 (Some size) (Some viewMode)
          (Maze.Env Maze.NativeRandom seed) with
  | Normal k => Game.World (Game.game (snd (Game.start 1000 (fst k)))) []
  | Abort _ => nullGame
  end.

(** The 3×3 game of the examples, in instant mode: the player starts at
    (1,0), the end is (1,2) and the way there is (1,0), (2,0), (2,1),
    (1,1), (1,2); a wall stands left of the start. *)
Definition demo : Game.world := startedGame 3 "instant" 10.

(** The 3×3 maze of fixed level 1, [new Maze(3, 3).generateFixedLevel(1)]:
    the wall between rows 1 and 2 stands over columns 0 and 1, and the
    wall between (0,1) and (1,1) is open. *)
Definition level1 : Maze.t :=
  Maze.this (snd (Maze.generateFixedLevel hostRandom 100 1
                    (Maze.Machine (snd (Maze.new 3 3)) (Maze.Env Maze.NativeRandom 7)))).

(** A 2×2 maze as the constructor leaves it: every wall standing. *)
Definition walled2 : Maze.t := snd (Maze.new 2 2).

(** The four unit directions. *)
Definition cardinal (dx dy : Z) : Prop :=
  (dx = 0 /\ dy = -1) \/ (dx = 1 /\ dy = 0) \/ (dx = 0 /\ dy = 1) \/ (dx = -1 /\ dy = 0).

Definition is_explored_event (e : Game.event) : Prop :=
  match e with
  | Game.OnCellExplored _ _ _ _ => True
  | _ => False
  end.

Definition is_victory_event (e : Game.event) : Prop :=
  match e with
  | Game.OnVictory _ _ _ _ _ => True
  | _ => False
  end.

(** The order of the calls of one move as the specification words it:
    the move first, then the explored cells, then the victory. *)
Definition move_first (evs : list Game.event) : Prop :=
  exists from to n explored victory,
    evs = Game.OnMove from to n :: explored ++ victory
    /\ Forall is_explored_event explored
    /\ Forall is_victory_event victory.

(** The order the code has: the explored cells first, then the move,
    then the victory. *)
Definition explored_first (evs : list Game.event) : Prop :=
  exists from to n explored victory,
    evs = explored ++ Game.OnMove from to n :: victory
    /\ Forall is_explored_event explored
    /\ Forall is_victory_event victory
    /\ (length victory <= 1)%nat.

(** The calls a game can be driven by in claim C9. *)
Inductive call : Type :=
  | CallMovePlayer (now dx dy : Z)
  | CallSetViewMode (mode : string)
  | CallUpdateVisibility.

Definition perform (c : call) (w : Game.world) : Game.world :=
  match c with
  | CallMovePlayer now dx dy => snd (Game.movePlayer now dx dy w)
  | CallSetViewMode md => snd (Game.setViewMode md w)
  | CallUpdateVisibility => snd (Game.updateVisibility w)
  end.

Definition performAll (cs : list call) (w : Game.world) : Game.world :=
  foldl (fun w c => perform c w) w cs.

(** A relation between the world before and after a call that every
    completion of the call satisfies. *)
Definition preserves {S A} (Rel : S -> S -> Prop) (c : M S A) : Prop :=
  forall w r w', c w = (r, w') -> Rel w w'.

Definition explored_kept (w w' : Game.world) : Prop :=
  forall k, k ∈ Game.exploredCells (Game.game w) -> k ∈ Game.exploredCells (Game.game w').

Definition explored_events_added (w w' : Game.world) : Prop :=
  exists evs, Game.trace w' = Game.trace w ++ evs /\ Forall is_explored_event evs.

(** The reasons for which [movePlayer(dx, dy)] turns a call down, in the
    order of its guards: the state of the game, the vector, the bounds of
    the grid, a wall. *)
Definition rejection (w : Game.world) (dx dy : Z) : Prop :=
  let g := Game.game w in
  Game.isRunning (Game.state g) = false
  \/ Game.isPaused (Game.state g) = true
  \/ Game.isGameOver (Game.state g) = true
  \/ (dx = 0 /\ dy = 0) \/ Z.abs dx > 1 \/ Z.abs dy > 1
  \/ Game.x (Game.player g) + dx < 0
  \/ Game.x (Game.player g) + dx >= Game.mazeSize (Game.config g)
  \/ Game.y (Game.player g) + dy < 0
  \/ Game.y (Game.player g) + dy >= Game.mazeSize (Game.config g)
  \/ Maze.canMove (Game.maze g) (Game.x (Game.player g)) (Game.y (Game.player g)) dx dy
     = Normal false.

(** What [updateVisibility] leaves alone. *)
Definition core_kept (w w' : Game.world) : Prop :=
  Game.player (Game.game w') = Game.player (Game.game w)
  /\ Game.state (Game.game w') = Game.state (Game.game w)
  /\ Game.maze (Game.game w') = Game.maze (Game.game w)
  /\ Game.config (Game.game w') = Game.config (Game.game w)
  /\ Game.visitedCells (Game.game w') = Game.visitedCells (Game.game w).

(** The rows of the wall arrays that [init] creates are there: rows
    0..height-1 of [vertical] and 0..height of [horizontal]. *)
Definition wall_rows (m : Maze.t) : Prop :=
  (forall y, 0 <= y < Maze.height m -> is_Some (Maze.vertical (Maze.walls m) !! y))
  /\ (forall y, 0 <= y <= Maze.height m -> is_Some (Maze.horizontal (Maze.walls m) !! y)).

(** The window of [calculateVisibleArea], freshly computed. *)
Definition window (m : Maze.t) (range x y : Z) : completion JsSet.t :=
  ViewSystem.scanWindow m range x y (seqZ (- range) (2 * range + 1)) [].

(** Every entry of the cache is the window of its key on maze [m]. *)
Definition cache_ok (m : Maze.t) (s : ViewSystem.t) : Prop :=
  forall x y r l,
    ViewSystem.cache s !! ViewSystem.cacheKey x y r = Some l -> window m r x y = Normal l.

(** Cell (x, y) lies in the window around the viewer, inside the grid,
    and the viewer has line of sight to it. *)
Definition in_sight (m : Maze.t) (range vx vy x y : Z) : Prop :=
  Z.abs (x - vx) <= range /\ Z.abs (y - vy) <= range
  /\ Maze.in_grid m x y = true
  /\ ViewSystem.hasLineOfSight vx vy x y m = Normal true.

(** The extent of a line along one axis and the sign of its steps, as
    [hasLineOfSight] computes them. *)
Definition span (a b : Z) : Z := Z.abs (b - a).
Definition toward (a b : Z) : Z := if a <? b then 1 else -1.

(** The state of the walk of [hasLineOfSight] when [a] steps in x and [b]
    steps in y remain, for the line from (x1, y1) to (x2, y2). *)
Definition on_line (x1 y1 x2 y2 : Z) (a b err currentX currentY : Z) : Prop :=
  let dx := span x1 x2 in
  let dy := span y1 y2 in
  let sx := toward x1 x2 in
  let sy := toward y1 y2 in
  0 <= a <= dx /\ 0 <= b <= dy
  /\ err = dx - dy + a * dy - b * dx
  /\ currentX = x2 - sx * a /\ currentY = y2 - sy * b.

(** Two view systems that differ in their caches only. *)
Definition same_but_cache (s s' : ViewSystem.t) : Prop :=
  ViewSystem.mode s' = ViewSystem.mode s
  /\ ViewSystem.viewRange s' = ViewSystem.viewRange s
  /\ ViewSystem.visibleCells s' = ViewSystem.visibleCells s
  /\ ViewSystem.exploredCells s' = ViewSystem.exploredCells s
  /\ ViewSystem.permanentCells s' = ViewSystem.permanentCells s.

(** No wall stands on the edges of row [y] between columns [x1] and [x2],
    and likewise for a column. *)
Definition open_row (m : Maze.t) (y x1 x2 : Z) : Prop :=
  forall i, Z.min x1 x2 <= i < Z.max x1 x2 -> Maze.canMove m i y 1 0 = Normal true.

Definition open_column (m : Maze.t) (x y1 y2 : Z) : Prop :=
  forall j, Z.min y1 y2 <= j < Z.max y1 y2 -> Maze.canMove m x j 0 1 = Normal true.

(** [wall_rows], decided. *)
Definition wall_rows_b (m : Maze.t) : bool :=
  forallb (fun y => bool_decide (is_Some (Maze.vertical (Maze.walls m) !! y)))
    (seqZ 0 (Maze.height m))
  && forallb (fun y => bool_decide (is_Some (Maze.horizontal (Maze.walls m) !! y)))
       (seqZ 0 (Maze.height m + 1)).

(** *** Two runs side by side *)

(** Two runs complete alike: both return, with equal results and final
    states related by [Q], or both stop with the same error. *)
Definition same_outcome {S A} (Q : S -> S -> Prop) (o1 o2 : completion A * S) : Prop :=
  match o1, o2 with
  | (Normal a1, s1), (Normal a2, s2) => a1 = a2 /\ Q s1 s2
  | (Abort e1, _), (Abort e2, _) => e1 = e2
  | _, _ => False
  end.

Definition related {S A} (P Q : S -> S -> Prop) (c : M S A) : Prop :=
  forall s1 s2, P s1 s2 -> same_outcome Q (c s1) (c s2).

(** How much of two mazes is known to be equal as [generate] proceeds:
    the size at stage 0, then the cells, the walls, the start, the end,
    and at stage 5 the path. *)
Definition mazes_agree (stage : nat) (m1 m2 : Maze.t) : Prop :=
  Maze.width m1 = Maze.width m2 /\ Maze.height m1 = Maze.height m2
  /\ ((1 <= stage)%nat -> Maze.cells m1 = Maze.cells m2)
  /\ ((2 <= stage)%nat -> Maze.walls m1 = Maze.walls m2)
  /\ ((3 <= stage)%nat -> Maze.start m1 = Maze.start m2)
  /\ ((4 <= stage)%nat -> Maze.end_ m1 = Maze.end_ m2)
  /\ ((5 <= stage)%nat -> Maze.path m1 = Maze.path m2).

(** Two machines under generation: mazes that agree, [Math.random]
    replaced in both by closures over the same [seedValue], and the
    hosts' own generators in states [h1] and [h2]. *)
Definition machines_agree {R} (stage : nat) (h1 h2 : R) (k1 k2 : Maze.machine (R:=R)) : Prop :=
  mazes_agree stage (Maze.this k1) (Maze.this k2)
  /\ (exists seedValue,
        Maze.Math_random (Maze.globals k1) = Maze.SeededRandom seedValue
        /\ Maze.Math_random (Maze.globals k2) = Maze.SeededRandom seedValue)
  /\ Maze.host (Maze.globals k1) = h1
  /\ Maze.host (Maze.globals k2) = h2.

(** What two seeded generations are compared on: the grid, the start,
    the end and the solution path, and the globals being put back. *)
Definition same_level {R} (k1 k2 : Maze.machine (R:=R)) (k1' k2' : Maze.machine (R:=R)) : Prop :=
  Maze.walls (Maze.this k1') = Maze.walls (Maze.this k2')
  /\ Maze.cells (Maze.this k1') = Maze.cells (Maze.this k2')
  /\ Maze.start (Maze.this k1') = Maze.start (Maze.this k2')
  /\ Maze.end_ (Maze.this k1') = Maze.end_ (Maze.this k2')
  /\ Maze.path (Maze.this k1') = Maze.path (Maze.this k2')
  /\ Maze.globals k1' = Maze.globals k1
  /\ Maze.globals k2' = Maze.globals k2.

(** *** Paths in the maze *)

(** One step of a walk: to a neighbour inside the grid, in one of the
    four directions, with [canMove] saying yes. *)
Definition step (m : Maze.t) (a b : point) : Prop :=
  Maze.in_grid m (px b) (py b) = true
  /\ exists dx dy, (dx, dy) ∈ Maze.directions
       /\ b = Point (px a + dx) (py a + dy)
       /\ Maze.canMove m (px a) (py a) dx dy = Normal true.

(** Every consecutive pair of the list is a step. *)
Fixpoint walk (m : Maze.t) (l : list point) : Prop :=
  match l with
  | a :: (b :: _) as l' => step m a b /\ walk m l'
  | _ => True
  end.

(** [l] leads from [a] to [b]. *)
Definition joins (m : Maze.t) (a b : point) (l : list point) : Prop :=
  head l = Some a /\ last l = Some b /\ walk m l.

Definition point_in_grid (m : Maze.t) (c : point) : Prop :=
  Maze.in_grid m (px c) (py c) = true.

(** The element of a grid at a cell. *)
Definition at_cell {A} (g : grid A) (c : point) : completion (option A) :=
  read2 g (py c) (px c).

(** The state of the search of [calculatePath] between two iterations
    of a loop: [processed] are the cells dequeued and done with, [pending]
    is empty or holds the cell whose neighbours are being looked at, and
    [d] counts the steps from the start along the parents. *)
Record search_inv (m : Maze.t) (d : point -> nat) (processed pending queue : list point)
    (visited : grid bool) (parent : grid (option point)) : Prop := SearchInv {
  seen_nodup : NoDup (processed ++ pending ++ queue);
  seen_in_grid : forall c, c ∈ processed ++ pending ++ queue -> point_in_grid m c;
  visited_seen : forall c, point_in_grid m c ->
    exists b, at_cell visited c = Normal (Some b)
              /\ (b = true <-> c ∈ processed ++ pending ++ queue);
  parent_seen : forall c, point_in_grid m c ->
    exists v, at_cell parent c = Normal (Some v)
              /\ (c ∈ processed ++ pending ++ queue ->
                  match v with
                  | None => c = Maze.start m
                  | Some p => p ∈ processed ++ pending ++ queue /\ step m p c
                              /\ d c = S (d p)
                  end);
  start_seen : Maze.start m ∈ processed ++ pending ++ queue /\ d (Maze.start m) = O;
  queue_sorted : forall i j a b, (i <= j)%nat ->
    (pending ++ queue) !! i = Some a -> (pending ++ queue) !! j = Some b ->
    (d a <= d b)%nat;
  front_bound : forall f, head (pending ++ queue) = Some f ->
    forall c, c ∈ processed ++ pending ++ queue -> (d c <= S (d f))%nat;
  processed_closed : forall c n, c ∈ processed -> step m c n ->
    n ∈ processed ++ pending ++ queue /\ (d n <= S (d c))%nat;
  end_pending : Maze.end_ m ∉ processed;
  depth_bound : forall c, c ∈ processed ++ pending ++ queue ->
    (d c < length (processed ++ pending ++ queue))%nat
}.

(** The neighbours of [current] in the directions [done] are seen. *)
Definition neighbours_seen (m : Maze.t) (d : point -> nat) (seen : list point)
    (current : point) (done : list (Z * Z)) : Prop :=
  forall dx dy, (dx, dy) ∈ done ->
    Maze.in_grid m (px current + dx) (py current + dy) = true ->
    Maze.canMove m (px current) (py current) dx dy = Normal true ->
    Point (px current + dx) (py current + dy) ∈ seen
    /\ (d (Point (px current + dx) (py current + dy)) <= S (d current))%nat.

(** What claim C7 says of a solution path. *)
Definition shortest_path (m : Maze.t) (p : list point) : Prop :=
  joins m (Maze.start m) (Maze.end_ m) p
  /\ forall l, joins m (Maze.start m) (Maze.end_ m) l -> (length p <= length l)%nat.

(** [step] and [walk], decided. *)
Definition step_b (m : Maze.t) (a b : point) : bool :=
  Maze.in_grid m (px b) (py b)
  && existsb (fun dir : Z * Z =>
                bool_decide (b = Point (px a + dir.1) (py a + dir.2))
                && bool_decide (Maze.canMove m (px a) (py a) dir.1 dir.2 = Normal true))
       Maze.directions.

Fixpoint walk_b (m : Maze.t) (l : list point) : bool :=
  match l with
  | a :: (b :: _) as l' => step_b m a b && walk_b m l'
  | _ => true
  end.

(** *** Mazes and games as the constructors leave them *)

(** The size is the same and no row of the wall arrays went away. *)
Definition rows_kept (m m' : Maze.t) : Prop :=
  Maze.width m' = Maze.width m /\ Maze.height m' = Maze.height m
  /\ (forall y, is_Some (Maze.vertical (Maze.walls m) !! y) ->
                is_Some (Maze.vertical (Maze.walls m') !! y))
  /\ (forall y, is_Some (Maze.horizontal (Maze.walls m) !! y) ->
                is_Some (Maze.horizontal (Maze.walls m') !! y)).

Definition machine_rows_kept {R} (k k' : Maze.machine (R:=R)) : Prop :=
  rows_kept (Maze.this k) (Maze.this k').

(** *** The grid and its border *)

(** Every wall of the grid stands, the border included. *)
Definition all_walled (m : Maze.t) : Prop :=
  (forall y x, 0 <= y <= Maze.height m -> 0 <= x < Maze.width m ->
     read2 (Maze.horizontal (Maze.walls m)) y x = Normal (Some true))
  /\ (forall y x, 0 <= y < Maze.height m -> 0 <= x <= Maze.width m ->
     read2 (Maze.vertical (Maze.walls m)) y x = Normal (Some true)).

(** The walls on the border of the grid stand. *)
Definition border_walls (m : Maze.t) : Prop :=
  (forall x, 0 <= x < Maze.width m ->
     read2 (Maze.horizontal (Maze.walls m)) 0 x = Normal (Some true)
     /\ read2 (Maze.horizontal (Maze.walls m)) (Maze.height m) x = Normal (Some true))
  /\ (forall y, 0 <= y < Maze.height m ->
     read2 (Maze.vertical (Maze.walls m)) y 0 = Normal (Some true)
     /\ read2 (Maze.vertical (Maze.walls m)) y (Maze.width m) = Normal (Some true)).

(** No move leads from a cell of the grid to a place outside it. *)
Definition enclosed (m : Maze.t) : Prop :=
  forall x y dx dy,
    Maze.in_grid m x y = true -> cardinal dx dy ->
    Maze.in_grid m (x + dx) (y + dy) = false ->
    Maze.canMove m x y dx dy = Normal false.

(** The size, the start and the end are the same. *)
Definition frame_kept (m m' : Maze.t) : Prop :=
  Maze.width m' = Maze.width m /\ Maze.height m' = Maze.height m
  /\ Maze.start m' = Maze.start m /\ Maze.end_ m' = Maze.end_ m.

(** The frame is the same and the walls on the border, if they stood,
    stand still. *)
Definition border_kept (m m' : Maze.t) : Prop :=
  frame_kept m m' /\ (border_walls m -> border_walls m').

(** What [getUnvisitedNeighbors(x, y)] returns: cells of the grid, each
    next to (x, y) on the side its direction names. *)
Definition neighbor_of (m : Maze.t) (x y : Z) (nb : Maze.neighbor) : Prop :=
  Maze.in_grid m (Maze.nb_x nb) (Maze.nb_y nb) = true
  /\ match Maze.nb_direction nb with
     | Maze.Up => Maze.nb_x nb = x /\ Maze.nb_y nb = y - 1
     | Maze.Right => Maze.nb_x nb = x + 1 /\ Maze.nb_y nb = y
     | Maze.Down => Maze.nb_x nb = x /\ Maze.nb_y nb = y + 1
     | Maze.Left => Maze.nb_x nb = x - 1 /\ Maze.nb_y nb = y
     end.

(** The edge at row [y], column [x] of a wall array does not block:
    [!a[y][x]] is true. *)
Definition open_at (a : grid bool) (y x : Z) : Prop :=
  exists w, read2 a y x = Normal w /\ js_not w = true.

(** The frame is the same and the edges that were open are open still. *)
Definition open_kept (m m' : Maze.t) : Prop :=
  frame_kept m m'
  /\ (forall y x, open_at (Maze.horizontal (Maze.walls m)) y x ->
                  open_at (Maze.horizontal (Maze.walls m')) y x)
  /\ (forall y x, open_at (Maze.vertical (Maze.walls m)) y x ->
                  open_at (Maze.vertical (Maze.walls m')) y x).

(** A relation on mazes, read on the maze of a machine. *)
Definition on_this {R} (Rel : Maze.t -> Maze.t -> Prop) (k k' : Maze.machine (R:=R)) : Prop :=
  Rel (Maze.this k) (Maze.this k').

(** While [Math.random] is the seeded closure it stays so, and the host's
    own generator is left alone. *)
Definition seeded_kept {R} (k k' : Maze.machine (R:=R)) : Prop :=
  (exists seedValue, Maze.Math_random (Maze.globals k) = Maze.SeededRandom seedValue) ->
  (exists seedValue, Maze.Math_random (Maze.globals k') = Maze.SeededRandom seedValue)
  /\ Maze.host (Maze.globals k') = Maze.host (Maze.globals k).

(** The cell can be reached from the start. *)
Definition reachable (m : Maze.t) (c : point) : Prop :=
  exists l, joins m (Maze.start m) c l.

(** The 3×3 maze of the examples before it is generated, with the host's
    generator in the state the game of the examples starts from. *)
Definition demoMachine : Maze.machine (R:=Z) :=
  Maze.Machine (snd (Maze.new 3 3)) (Maze.Env Maze.NativeRandom 10).

(** *** Games in play *)

(** The calls a game is driven by between two restarts. *)
Inductive action : Type :=
  | ActMovePlayer (now dx dy : Z)
  | ActSetViewMode (mode : string)
  | ActUpdateVisibility
  | ActStart (now : Z)
  | ActTogglePause
  | ActGameOver (now : Z).

Definition act (a : action) (w : Game.world) : Game.world :=
  match a with
  | ActMovePlayer now dx dy => snd (Game.movePlayer now dx dy w)
  | ActSetViewMode md => snd (Game.setViewMode md w)
  | ActUpdateVisibility => snd (Game.updateVisibility w)
  | ActStart now => snd (Game.start now w)
  | ActTogglePause => snd (Game.togglePause w)
  | ActGameOver now => snd (Game.gameOver now w)
  end.

Definition actAll (acts : list action) (w : Game.world) : Game.world :=
  foldl (fun w a => act a w) w acts.

(** The player stands on a cell of the grid. *)
Definition player_in_bounds (w : Game.world) : Prop :=
  let g := Game.game w in
  0 <= Game.x (Game.player g) < Game.mazeSize (Game.config g)
  /\ 0 <= Game.y (Game.player g) < Game.mazeSize (Game.config g).

(** What a game in play keeps: its maze and the size it was made with,
    the player on the grid, and what was counted and visited. *)
Definition play_kept (w w' : Game.world) : Prop :=
  Game.maze (Game.game w') = Game.maze (Game.game w)
  /\ Game.mazeSize (Game.config (Game.game w')) = Game.mazeSize (Game.config (Game.game w))
  /\ (player_in_bounds w -> player_in_bounds w')
  /\ Game.moves (Game.state (Game.game w)) <= Game.moves (Game.state (Game.game w'))
  /\ (forall k, k ∈ Game.visitedCells (Game.game w) -> k ∈ Game.visitedCells (Game.game w')).

(** The keys of the cells that the explored-cell listeners were called
    with, in call order. *)
Definition explored_keys (tr : list Game.event) : list string :=
  omap (fun e => match e with
                 | Game.OnCellExplored x y _ _ => Some (Game.getCellKey x y)
                 | _ => None
                 end) tr.

(** No cell was reported twice, and every cell that was reported is in
    the game's explored set. *)
Definition announced (w : Game.world) : Prop :=
  NoDup (explored_keys (Game.trace w))
  /\ forall k, k ∈ explored_keys (Game.trace w) -> k ∈ Game.exploredCells (Game.game w).

Definition announced_kept (w w' : Game.world) : Prop := announced w -> announced w'.

(** The game of the examples with the globals of the maze generator. *)
Definition demoSession : Game.session (R:=Z) := (demo, Maze.Env Maze.NativeRandom 10).

(** * Properties *)

(** ** Keys *)

Lemma split_comma_plain (a : string) :
  has_comma a = false -> split_comma a = [a].
Proof.
  induction a as [|c a IH]; simpl; [done|].
  intros [Hc Ha]%orb_false_elim.
  apply bool_decide_eq_false in Hc.
  rewrite decide_False by done. by rewrite IH.
Qed.

Lemma split_comma_join (a b : string) :
  has_comma a = false -> split_comma (join_comma a b) = a :: split_comma b.
Proof.
  unfold join_comma.
  induction a as [|c a IH]; simpl.
  - done.
  - intros [Hc Ha]%orb_false_elim.
    apply bool_decide_eq_false in Hc.
    rewrite decide_False by done. by rewrite IH.
Qed.

Lemma pretty_N_char_plain (d : N) : bool_decide (pretty_N_char d = comma) = false.
Proof. unfold pretty_N_char. by repeat case_match. Qed.

Lemma pretty_N_go_plain (n : N) (s : string) :
  has_comma s = false -> has_comma (pretty_N_go n s) = false.
Proof.
  revert s. induction (N.lt_wf_0 n) as [n _ IH]; intros s Hs.
  destruct (decide (n = 0%N)) as [->|Hn]; [by rewrite pretty_N_go_0|].
  rewrite pretty_N_go_step by lia.
  apply IH; [apply N.div_lt; lia|].
  simpl. by rewrite pretty_N_char_plain.
Qed.

Lemma pretty_N_plain (n : N) : has_comma (pretty n) = false.
Proof.
  unfold pretty, pretty_N. case_decide; [done|]. by apply pretty_N_go_plain.
Qed.

Lemma pretty_Z_plain (z : Z) : has_comma (pretty z) = false.
Proof.
  destruct z as [|p|p]; [done| |]; unfold pretty, pretty_Z.
  - apply pretty_N_plain.
  - simpl. apply pretty_N_plain.
Qed.

Lemma digit_of_pretty (d : N) :
  (d < 10)%N -> digit_of (pretty_N_char d) = Some (Z.of_N d).
Proof.
  intros Hd.
  assert (d = 0 ∨ d = 1 ∨ d = 2 ∨ d = 3 ∨ d = 4 ∨ d = 5 ∨ d = 6 ∨ d = 7
          ∨ d = 8 ∨ d = 9)%N as Hcases by lia.
  repeat (destruct Hcases as [->|Hcases]; [done|]). by subst.
Qed.

Lemma digits_value_pretty_go (n : N) (s : string) :
  digits_value 0 (pretty_N_go n s) = digits_value (Z.of_N n) s.
Proof.
  revert s. induction (N.lt_wf_0 n) as [n _ IH]; intros s.
  destruct (decide (n = 0%N)) as [->|Hn]; [by rewrite pretty_N_go_0|].
  rewrite pretty_N_go_step by lia.
  rewrite IH by (apply N.div_lt; lia). simpl.
  rewrite digit_of_pretty by (apply N.mod_lt; lia).
  f_equal. rewrite (N.div_mod n 10) at 3 by lia. lia.
Qed.

Lemma digits_value_pretty (n : N) : digits_value 0 (pretty n) = Some (Z.of_N n).
Proof.
  unfold pretty, pretty_N. case_decide as Hn; [by subst|].
  by rewrite digits_value_pretty_go.
Qed.

Lemma pretty_N_go_head (n : N) (s : string) :
  (0 < n)%N -> exists d s', (d < 10)%N /\ pretty_N_go n s = String (pretty_N_char d) s'.
Proof.
  revert s. induction (N.lt_wf_0 n) as [n _ IH]; intros s Hn.
  rewrite pretty_N_go_step by done.
  destruct (decide (n `div` 10 = 0)%N) as [Hz|Hz].
  - rewrite Hz, pretty_N_go_0. eexists _, _. split; [|done]. apply N.mod_lt. lia.
  - apply IH; [apply N.div_lt; lia|by apply N.neq_0_lt_0].
Qed.

Lemma pretty_positive_head (p : positive) :
  exists d s', (d < 10)%N /\ pretty p = String (pretty_N_char d) s'.
Proof.
  unfold pretty, pretty_positive, pretty, pretty_N.
  rewrite decide_False by done. by apply pretty_N_go_head.
Qed.

Lemma pretty_N_char_not_dash (d : N) : pretty_N_char d ≠ "-"%char.
Proof. unfold pretty_N_char. by repeat case_match. Qed.

(** [Number] reads back what the template literal printed. *)
Lemma Number_pretty (z : Z) : Number (pretty z) = Normal z.
Proof.
  destruct z as [|p|p]; [done| |].
  - destruct (pretty_positive_head p) as (d & s' & Hd & Heq).
    pose proof (digits_value_pretty (Npos p)) as Hv.
    change (pretty (Zpos p)) with (pretty (Npos p)).
    change (pretty p) with (pretty (Npos p)) in Heq.
    unfold Number. rewrite Heq in *.
    rewrite decide_False by apply pretty_N_char_not_dash.
    by rewrite Hv.
  - destruct (pretty_positive_head p) as (d & s' & Hd & Heq).
    pose proof (digits_value_pretty (Npos p)) as Hv.
    change (pretty (Zneg p)) with (String "-" (pretty (Npos p))).
    change (pretty p) with (pretty (Npos p)) in Heq.
    unfold Number. rewrite decide_True by done.
    rewrite Heq in *. by rewrite Hv.
Qed.

Lemma parseCellKey_getCellKey (x y : Z) :
  ViewSystem.parseCellKey (ViewSystem.getCellKey x y) = Normal (Point x y).
Proof.
  unfold ViewSystem.parseCellKey, ViewSystem.getCellKey.
  rewrite split_comma_join by apply pretty_Z_plain.
  rewrite split_comma_plain by apply pretty_Z_plain.
  by rewrite !Number_pretty.
Qed.

Lemma getCellKey_inj (x y x' y' : Z) :
  ViewSystem.getCellKey x y = ViewSystem.getCellKey x' y' -> x = x' /\ y = y'.
Proof.
  intros Heq.
  pose proof (parseCellKey_getCellKey x y) as H1.
  rewrite Heq, parseCellKey_getCellKey in H1. by simplify_eq.
Qed.

Lemma cacheKey_inj (x y r x' y' r' : Z) :
  ViewSystem.cacheKey x y r = ViewSystem.cacheKey x' y' r' ->
  x = x' /\ y = y' /\ r = r'.
Proof.
  unfold ViewSystem.cacheKey. intros Heq.
  apply (f_equal split_comma) in Heq.
  rewrite !split_comma_join, !split_comma_plain in Heq by apply pretty_Z_plain.
  simplify_eq. by repeat split; apply (inj pretty).
Qed.

(** ** Equations of the state monad *)

Lemma bind_normal {S A B} (c : M S A) (k : A -> M S B) (s : S) (a : A) (s1 : S) :
  c s = (Normal a, s1) -> bind c k s = k a s1.
Proof. intros Hc. unfold bind. by rewrite Hc. Qed.

Lemma bind_abort {S A B} (c : M S A) (k : A -> M S B) (s : S) (e : abort) (s1 : S) :
  c s = (Abort e, s1) -> bind c k s = (Abort e, s1).
Proof. intros Hc. unfold bind. by rewrite Hc. Qed.

Lemma bind_modify {S B} (f : S -> S) (k : unit -> M S B) (s : S) :
  bind (modify f) k s = k tt (f s).
Proof. done. Qed.

Lemma bind_gets {S A B} (f : S -> A) (k : A -> M S B) (s : S) :
  bind (gets f) k s = k (f s) s.
Proof. done. Qed.

Lemma bind_ret {S A B} (a : A) (k : A -> M S B) (s : S) :
  bind (ret a) k s = k a s.
Proof. done. Qed.

Lemma bind_assoc {S A B C} (c : M S A) (k : A -> M S B) (k' : B -> M S C) (s : S) :
  bind (bind c k) k' s = bind c (fun a => bind (k a) k') s.
Proof. unfold bind. by destruct (c s) as [[a|e] s1]. Qed.

(** ** Walls outside the grid *)

(** C2: [canMove] does not fail closed outside the wall arrays.  On the
    2×2 maze with every wall standing, the edge right of column 2 in row 0
    is reported passable, the query in row 2 throws a [TypeError], and the
    sibling [getWall] answers "wall" for the same edge. *)
Theorem canMove_outside_not_closed :
  Maze.canMove walled2 2 0 1 0 = Normal true
  /\ Maze.canMove walled2 0 2 1 0 = Abort TypeError
  /\ Maze.canMove walled2 0 (-1) 0 1 = Normal false
  /\ Maze.getWall walled2 Maze.Vertical 0 3 = Normal (Some true)
  /\ Maze.getWall walled2 Maze.Vertical 2 1 = Normal (Some true).
Proof. by vm_compute. Qed.

(** ** What a call keeps, however it completes *)

Section Preserves.

Context {S : Type} (Rel : S -> S -> Prop) `{!PreOrder Rel}.

Lemma preserves_ret {A} (a : A) : preserves Rel (ret a).
Proof. intros w r w' [= _ <-]. reflexivity. Qed.

Lemma preserves_throw {A} (e : abort) : preserves Rel (throw (A:=A) e).
Proof. intros w r w' [= _ <-]. reflexivity. Qed.

Lemma preserves_lift {A} (c : completion A) : preserves Rel (lift c).
Proof. intros w r w' [= _ <-]. reflexivity. Qed.

Lemma preserves_gets {A} (f : S -> A) : preserves Rel (gets f).
Proof. intros w r w' [= _ <-]. reflexivity. Qed.

Lemma preserves_bind {A B} (c : M S A) (k : A -> M S B) :
  preserves Rel c -> (forall a, preserves Rel (k a)) -> preserves Rel (bind c k).
Proof.
  intros Hc Hk w r w'. unfold bind.
  destruct (c w) as [[a|e] w1] eqn:Hcw; intros Hr.
  - etransitivity; [by eapply Hc|by eapply Hk].
  - injection Hr as _ <-. by eapply Hc.
Qed.

Lemma preserves_forM {A} (l : list A) (body : A -> M S unit) :
  (forall a, preserves Rel (body a)) -> preserves Rel (forM l body).
Proof.
  intros Hbody. induction l as [|a l IH]; simpl.
  - apply preserves_ret.
  - apply preserves_bind; [apply Hbody|]. intros _. apply IH.
Qed.

Lemma preserves_if {A} (b : bool) (c1 c2 : M S A) :
  preserves Rel c1 -> preserves Rel c2 -> preserves Rel (if b then c1 else c2).
Proof. by destruct b. Qed.

End Preserves.

Lemma preserves_getg (Rel : Game.world -> Game.world -> Prop) `{!PreOrder Rel}
    {A} (f : Game.t -> A) :
  preserves Rel (Game.getg f).
Proof. apply preserves_gets, _. Qed.

Global Instance explored_kept_preorder : PreOrder explored_kept.
Proof.
  split.
  - by intros w k.
  - intros w1 w2 w3 H12 H23 k Hk. by apply H23, H12.
Qed.

Global Instance explored_events_added_preorder : PreOrder explored_events_added.
Proof.
  split.
  - intros w. exists []. by rewrite app_nil_r.
  - intros w1 w2 w3 (e1 & H1 & F1) (e2 & H2 & F2).
    exists (e1 ++ e2). split.
    + by rewrite H2, H1, app_assoc.
    + by apply Forall_app.
Qed.

Lemma JsSet_elem_of_add (k k' : string) (s : JsSet.t) :
  k ∈ JsSet.add k' s <-> k = k' \/ k ∈ s.
Proof.
  unfold JsSet.add, JsSet.has. case_bool_decide as Hk'.
  - split; [by right|]. by intros [->|?].
  - rewrite elem_of_app, list_elem_of_singleton. tauto.
Qed.

Lemma JsSet_add_mono (k k' : string) (s : JsSet.t) : k ∈ s -> k ∈ JsSet.add k' s.
Proof. rewrite JsSet_elem_of_add. by right. Qed.

Lemma JsSet_add_elem (k : string) (s : JsSet.t) : k ∈ JsSet.add k s.
Proof. rewrite JsSet_elem_of_add. by left. Qed.

Lemma JsSet_has_true (k : string) (s : JsSet.t) : JsSet.has k s = true <-> k ∈ s.
Proof. unfold JsSet.has. by rewrite bool_decide_eq_true. Qed.

Lemma JsSet_add_NoDup (k : string) (s : JsSet.t) : NoDup s -> NoDup (JsSet.add k s).
Proof.
  intros Hs. unfold JsSet.add, JsSet.has. case_bool_decide as Hk; [done|].
  apply NoDup_app. split_and!; [done| |apply NoDup_singleton].
  intros x Hx ->%list_elem_of_singleton. done.
Qed.

Lemma updateVisibility_explored_kept : preserves explored_kept Game.updateVisibility.
Proof.
  unfold Game.updateVisibility.
  apply preserves_bind; [apply _|apply preserves_getg, _|intros p].
  apply preserves_bind; [apply _|apply preserves_getg, _|intros mz].
  apply preserves_bind; [apply _| |intros _].
  { intros w r w'. unfold Game.onViewSystem.
    destruct (ViewSystem.update _ _ _ _) as [r0 vs']. intros [= _ <-]. by intros k. }
  apply preserves_bind; [apply _|apply preserves_getg, _|intros vs].
  apply preserves_bind; [apply _|apply preserves_lift, _|intros cells].
  apply preserves_forM; [apply _|intros cell].
  intros w r w'. unfold bind, Game.getg, gets. simpl.
  destruct (negb _) eqn:Hhas; simpl.
  - intros [= _ <-]. intros k Hk. simpl. by apply JsSet_add_mono.
  - intros [= _ <-]. by intros k.
Qed.

Lemma updateVisibility_events : preserves explored_events_added Game.updateVisibility.
Proof.
  unfold Game.updateVisibility.
  apply preserves_bind; [apply _|apply preserves_getg, _|intros p].
  apply preserves_bind; [apply _|apply preserves_getg, _|intros mz].
  apply preserves_bind; [apply _| |intros _].
  { intros w r w'. unfold Game.onViewSystem.
    destruct (ViewSystem.update _ _ _ _) as [r0 vs']. intros [= _ <-].
    exists []. by rewrite app_nil_r. }
  apply preserves_bind; [apply _|apply preserves_getg, _|intros vs].
  apply preserves_bind; [apply _|apply preserves_lift, _|intros cells].
  apply preserves_forM; [apply _|intros cell].
  intros w r w'. unfold bind, Game.getg, gets. simpl.
  destruct (negb _) eqn:Hhas; simpl.
  - intros [= _ <-]. simpl. eexists [_]. split; [done|]. by repeat constructor.
  - intros [= _ <-]. exists []. by rewrite app_nil_r.
Qed.

Ltac preserves_step :=
  lazymatch goal with
  | |- preserves _ (bind _ _) => apply preserves_bind; [apply _| |intros ?]
  | |- preserves _ (if _ then _ else _) => apply preserves_if
  | |- preserves _ (ret _) => apply preserves_ret, _
  | |- preserves _ (throw _) => apply preserves_throw, _
  | |- preserves _ (lift _) => apply preserves_lift, _
  | |- preserves _ (Game.getg _) => apply preserves_getg, _
  end.

Lemma modg_explored_kept (f : Game.t -> Game.t) :
  (forall g, Game.exploredCells (f g) = Game.exploredCells g) ->
  preserves explored_kept (Game.modg f).
Proof. intros Hf w r w' [= _ <-] k. simpl. by rewrite Hf. Qed.

Lemma triggerEvent_explored_kept (e : Game.event) :
  preserves explored_kept (Game.triggerEvent e).
Proof. by intros w r w' [= _ <-] k. Qed.

Lemma onViewSystem_explored_kept {A} (c : M ViewSystem.t A) :
  preserves explored_kept (Game.onViewSystem c).
Proof.
  intros w r w'. unfold Game.onViewSystem.
  destruct (c _) as [r0 vs']. by intros [= _ <-] k.
Qed.

Lemma victory_explored_kept (now : Z) : preserves explored_kept (Game.victory now).
Proof.
  unfold Game.victory. repeat preserves_step.
  - by apply modg_explored_kept.
  - apply triggerEvent_explored_kept.
Qed.

Lemma movePlayer_explored_kept (now dx dy : Z) :
  preserves explored_kept (Game.movePlayer now dx dy).
Proof.
  unfold Game.movePlayer. repeat preserves_step;
    try (by apply modg_explored_kept);
    try apply updateVisibility_explored_kept;
    try apply triggerEvent_explored_kept;
    try apply victory_explored_kept.
Qed.

Lemma setViewMode_explored_kept (md : string) :
  preserves explored_kept (Game.setViewMode md).
Proof.
  unfold Game.setViewMode. repeat preserves_step;
    try (by apply modg_explored_kept);
    try apply updateVisibility_explored_kept;
    try apply onViewSystem_explored_kept.
Qed.

Lemma perform_explored_kept (c : call) (w : Game.world) : explored_kept w (perform c w).
Proof.
  destruct c as [now dx dy|md|]; simpl.
  - by eapply movePlayer_explored_kept, surjective_pairing.
  - by eapply setViewMode_explored_kept, surjective_pairing.
  - by eapply updateVisibility_explored_kept, surjective_pairing.
Qed.

Lemma performAll_explored_kept (cs : list call) (w : Game.world) :
  explored_kept w (performAll cs w).
Proof.
  revert w. induction cs as [|c cs IH]; intros w; simpl.
  - reflexivity.
  - etransitivity; [apply perform_explored_kept|apply IH].
Qed.

(** ** The game loop *)

(** C9: the game's own explored set only grows.  Whatever sequence of
    [movePlayer], [setViewMode] and [updateVisibility] calls is made, and
    however each of them completes, a cell for which [isCellExplored] was
    true stays explored. *)
Theorem game_explored_monotone (cs : list call) (w : Game.world) (x y : Z) :
  Game.isCellExplored (Game.game w) x y = true ->
  Game.isCellExplored (Game.game (performAll cs w)) x y = true.
Proof.
  unfold Game.isCellExplored. rewrite !JsSet_has_true.
  apply performAll_explored_kept.
Qed.

(** In the 3×3 game the start (1,0) stays explored for the game after
    the walk to (1,1), while the view system, in instant mode, has
    forgotten it. *)
Lemma game_explored_monotone_witness :
  Game.isCellExplored
    (Game.game (performAll [CallMovePlayer 5000 1 0; CallMovePlayer 6000 0 1;
                            CallSetViewMode "instant"; CallMovePlayer 7000 (-1) 0;
                            CallUpdateVisibility] demo)) 1 0 = true
  /\ ViewSystem.isCellExplored
       (Game.viewSystem
          (Game.game (performAll [CallMovePlayer 5000 1 0; CallMovePlayer 6000 0 1;
                                  CallSetViewMode "instant"; CallMovePlayer 7000 (-1) 0;
                                  CallUpdateVisibility] demo))) 1 0
     = false.
Proof.
  split.
  - apply (game_explored_monotone _ demo 1 0). vm_compute. reflexivity.
  - vm_compute. reflexivity.
Defined.

(** C1: a diagonal vector passes the guard on the move vector.  In the
    3×3 game, with the player at (1,0) and no move made, [movePlayer(1, 1)]
    returns success, puts the player on (2,1) and counts one move. *)
Theorem movePlayer_diagonal_accepted :
  ~ cardinal 1 1
  /\ Game.player (Game.game demo) = Game.Player 1 0 1 0
  /\ Game.moves (Game.state (Game.game demo)) = 0
  /\ fst (Game.movePlayer 5000 1 1 demo) = Normal true
  /\ Game.player (Game.game (snd (Game.movePlayer 5000 1 1 demo))) = Game.Player 2 1 1 0
  /\ Game.moves (Game.state (Game.game (snd (Game.movePlayer 5000 1 1 demo)))) = 1.
Proof.
  split; [unfold cardinal; lia|]. by vm_compute.
Qed.

(** C6: a call that is turned down — the game is not running, is paused
    or is over, the vector is the zero vector or has a component of
    magnitude above 1, the destination is outside the grid, or a wall
    blocks the move — returns failure and leaves the whole game, listeners'
    calls included, as it was. *)
Theorem movePlayer_rejected_unchanged (now dx dy : Z) (w : Game.world) :
  rejection w dx dy -> Game.movePlayer now dx dy w = (Normal false, w).
Proof.
  unfold rejection, Game.movePlayer, bind, Game.getg, gets, ret, lift. simpl.
  intros Hrej.
  destruct (negb (Game.isRunning _) || _ || _) eqn:Hstate; [done|].
  destruct ((dx =? 0) && (dy =? 0) || _ || _) eqn:Hvec; [done|].
  destruct ((_ + dx <? 0) || _ || _ || _) eqn:Hbounds; [done|].
  destruct (Maze.canMove _ _ _ _ _) as [[|]|e] eqn:Hmove; simpl; [|done|].
  all: exfalso.
  all: apply orb_false_elim in Hstate as [[Hrun%negb_false_iff Hpause]%orb_false_elim Hover].
  all: apply orb_false_elim in Hvec as [[Hzero Hdx]%orb_false_elim Hdy].
  all: apply orb_false_elim in Hbounds as [[[Hx0 Hx1]%orb_false_elim Hy0]%orb_false_elim Hy1].
  all: destruct Hrej as [?|[?|[?|[[-> ->]|[?|[?|[?|[?|[?|[?|?]]]]]]]]]]; try congruence; try lia.
Qed.

Lemma movePlayer_rejected_witness :
  Game.movePlayer 5000 (-1) 0 demo = (Normal false, demo).
Proof.
  apply movePlayer_rejected_unchanged. unfold rejection.
  do 10 right. vm_compute. reflexivity.
Defined.

Global Instance core_kept_preorder : PreOrder core_kept.
Proof.
  split.
  - by intros w.
  - intros w1 w2 w3 (?&?&?&?&?) (?&?&?&?&?). unfold core_kept.
    split_and!; congruence.
Qed.

Lemma updateVisibility_core_kept : preserves core_kept Game.updateVisibility.
Proof.
  unfold Game.updateVisibility. repeat preserves_step.
  - intros w r w'. unfold Game.onViewSystem.
    destruct (ViewSystem.update _ _ _ _) as [r0 vs']. by intros [= _ <-].
  - apply preserves_forM; [apply _|intros cell].
    intros w r w'. unfold bind, Game.getg, gets. simpl.
    destruct (negb _); simpl; by intros [= _ <-].
Qed.

(** C3, amended: in an accepted [movePlayer] call the listeners are
    called in this order: the explored-cell events of the move, then the
    move event (carrying the old position, the new one and the new move
    count), then at most one victory event. *)
Theorem movePlayer_explored_before_move (now dx dy : Z) (w w' : Game.world) :
  Game.movePlayer now dx dy w = (Normal true, w') ->
  exists explored victory,
    Game.trace w' = Game.trace w ++ explored
      ++ Game.OnMove (Point (Game.x (Game.player (Game.game w)))
                        (Game.y (Game.player (Game.game w))))
           (Point (Game.x (Game.player (Game.game w)) + dx)
              (Game.y (Game.player (Game.game w)) + dy))
           (Game.moves (Game.state (Game.game w)) + 1) :: victory
    /\ Forall is_explored_event explored
    /\ Forall is_victory_event victory
    /\ (length victory <= 1)%nat.
Proof.
  unfold Game.movePlayer, bind, Game.getg, gets, ret, lift. simpl.
  destruct (negb (Game.isRunning _) || _ || _) eqn:Hstate; [done|].
  destruct ((dx =? 0) && (dy =? 0) || _ || _) eqn:Hvec; [done|].
  destruct ((_ + dx <? 0) || _ || _ || _) eqn:Hbounds; [done|].
  destruct (Maze.canMove _ _ _ _ _) as [[|]|e] eqn:Hmove; simpl; [|done..].
  destruct (Game.updateVisibility _) as [[[]|e] w2] eqn:Hupd; [|done].
  pose proof (updateVisibility_events _ _ _ Hupd) as (explored & Htr & Hexpl).
  pose proof (updateVisibility_core_kept _ _ _ Hupd) as (Hp & Hs & Hm & Hc & _).
  simpl in *. rewrite Hp, Hs, Hm. simpl.
  destruct ((_ =? px _) && _); simpl; intros [= <-]; simpl.
  - eexists explored, [_]. rewrite Htr, <-!app_assoc. simpl.
    split_and!; [reflexivity|done|by repeat constructor|done].
  - exists explored, []. rewrite Htr, <-!app_assoc. simpl.
    split_and!; [done|done|constructor|lia].
Qed.

Lemma movePlayer_explored_before_move_witness :
  exists explored victory,
    Game.trace (snd (Game.movePlayer 5000 1 0 demo))
    = Game.trace demo ++ explored
        ++ Game.OnMove (Point (Game.x (Game.player (Game.game demo)))
                          (Game.y (Game.player (Game.game demo))))
             (Point (Game.x (Game.player (Game.game demo)) + 1)
                (Game.y (Game.player (Game.game demo)) + 0))
             (Game.moves (Game.state (Game.game demo)) + 1) :: victory
    /\ Forall is_explored_event explored
    /\ Forall is_victory_event victory
    /\ (length victory <= 1)%nat.
Proof.
  apply (movePlayer_explored_before_move 5000 1 0 demo).
  vm_compute. reflexivity.
Defined.

(** C3 as worded fails: the accepted move from (1,0) to (2,0) in the 3×3
    game calls the listeners with the explored cell (1,1) first and the
    move second. *)
Lemma move_first_counterexample :
  Game.trace demo = []
  /\ Game.movePlayer 5000 1 0 demo
     = (Normal true, snd (Game.movePlayer 5000 1 0 demo))
  /\ Game.trace (snd (Game.movePlayer 5000 1 0 demo))
     = [Game.OnCellExplored 1 1 4 9; Game.OnMove (Point 1 0) (Point 2 0) 1]
  /\ ~ move_first (Game.trace (snd (Game.movePlayer 5000 1 0 demo))).
Proof.
  split_and!; [by vm_compute..|].
  intros (from & to & n & explored & victory & Heq & _).
  vm_compute in Heq. discriminate Heq.
Qed.

(** Every failure that [movePlayer] returns has one of the reasons of
    [rejection]. *)
Lemma movePlayer_false_rejection (now dx dy : Z) (w : Game.world) :
  fst (Game.movePlayer now dx dy w) = Normal false -> rejection w dx dy.
Proof.
  unfold rejection, Game.movePlayer, bind, Game.getg, gets, ret, lift. simpl.
  destruct (negb (Game.isRunning _) || _ || _) eqn:Hstate.
  { intros _.
    apply orb_true_iff in Hstate as [[Hrun%negb_true_iff|?]%orb_true_iff|?]; tauto. }
  destruct ((dx =? 0) && (dy =? 0) || _ || _) eqn:Hvec.
  { intros _.
    apply orb_true_iff in Hvec as [[[? ?]%andb_true_iff|?]%orb_true_iff|?].
    - do 3 right. left. lia.
    - do 4 right. left. lia.
    - do 5 right. left. lia. }
  destruct ((_ + dx <? 0) || _ || _ || _) eqn:Hbounds.
  { intros _.
    apply orb_true_iff in Hbounds
      as [[[?|?]%orb_true_iff|?]%orb_true_iff|?].
    - do 6 right. left. lia.
    - do 7 right. left. lia.
    - do 8 right. left. lia.
    - do 9 right. left. lia. }
  destruct (Maze.canMove _ _ _ _ _) as [[|]|e] eqn:Hmove; simpl; [|tauto|done].
  destruct (Game.updateVisibility _) as [[[]|e] w2] eqn:Hupd; [|done].
  simpl. by destruct ((_ =? px _) && _).
Qed.

(** ** Line of sight *)

Lemma wall_rows_decide (m : Maze.t) : wall_rows_b m = true -> wall_rows m.
Proof.
  unfold wall_rows_b, wall_rows. rewrite andb_true_iff, !forallb_forall.
  intros [Hv Hh]. split; intros y Hy.
  - eapply bool_decide_eq_true, Hv, list_elem_of_In, elem_of_seqZ. lia.
  - eapply bool_decide_eq_true, Hh, list_elem_of_In, elem_of_seqZ. lia.
Qed.

Lemma canMove_returns (m : Maze.t) (x y dx dy : Z) :
  wall_rows m -> 0 <= y < Maze.height m ->
  exists b, Maze.canMove m x y dx dy = Normal b.
Proof.
  intros [Hv Hh] Hy. unfold Maze.canMove, read2.
  repeat case_match; simplify_eq/=; eauto.
  all: match goal with
       | H : Maze.vertical _ !! ?k = None |- _ =>
           destruct (Hv k) as [? ?]; [lia|congruence]
       | H : Maze.horizontal _ !! ?k = None |- _ =>
           destruct (Hh k) as [? ?]; [lia|congruence]
       end.
Qed.

Lemma canMove_no_fuel (m : Maze.t) (x y dx dy : Z) :
  Maze.canMove m x y dx dy <> Abort OutOfFuel.
Proof.
  unfold Maze.canMove, read2. repeat case_match; simplify_eq/=; done.
Qed.

Section Walk.

Context (m : Maze.t) (x1 y1 x2 y2 : Z).

(** The walk never runs out of fuel: each iteration takes a step that
    remains to be taken, in x, in y or in both. *)
Lemma sightLoop_no_fuel (fuel : nat) (a b err cx cy : Z) :
  on_line x1 y1 x2 y2 a b err cx cy ->
  (Z.to_nat (a + b) < fuel)%nat ->
  ViewSystem.sightLoop fuel m (span x1 x2) (span y1 y2) (toward x1 x2) (toward y1 y2)
    x2 y2 err cx cy <> Abort OutOfFuel.
Proof.
  set (dx := span x1 x2). set (dy := span y1 y2).
  set (sx := toward x1 x2). set (sy := toward y1 y2).
  revert a b err cx cy.
  induction fuel as [|fuel IH]; intros a b err cx cy Hline Hfuel; [lia|].
  destruct Hline as (Ha & Hb & Herr & Hcx & Hcy).
  fold dx dy sx sy in Ha, Hb, Herr, Hcx, Hcy.
  assert (Hsx : sx = 1 \/ sx = -1) by (subst sx; unfold toward; case_match; auto).
  assert (Hsy : sy = 1 \/ sy = -1) by (subst sy; unfold toward; case_match; auto).
  simpl.
  destruct ((cx =? x2) && (cy =? y2)) eqn:Hat; [done|].
  assert (Hab : 0 < a + b).
  { apply andb_false_iff in Hat. destruct Hat as [Hne|Hne]; apply Z.eqb_neq in Hne; nia. }
  destruct (Maze.canMove _ _ _ _ _) as [[|]|e] eqn:Hmove; simpl; [|done|].
  2:{ intros [= ->]. by eapply canMove_no_fuel. }
  destruct (2 * err >? - dy) eqn:Hx; destruct (2 * err <? dx) eqn:Hy.
  - apply (IH (a - 1) (b - 1)); [|lia].
    unfold on_line. fold dx dy sx sy. split_and!; nia.
  - apply (IH (a - 1) b); [|lia].
    unfold on_line. fold dx dy sx sy. split_and!; nia.
  - apply (IH a (b - 1)); [|lia].
    unfold on_line. fold dx dy sx sy. split_and!; nia.
  - nia.
Qed.

(** With the rows of the wall arrays in place and both ends of the line
    in rows of the grid, the walk returns. *)
Lemma sightLoop_returns (fuel : nat) (a b err cx cy : Z) :
  wall_rows m -> 0 <= y1 < Maze.height m -> 0 <= y2 < Maze.height m ->
  on_line x1 y1 x2 y2 a b err cx cy ->
  (Z.to_nat (a + b) < fuel)%nat ->
  exists r, ViewSystem.sightLoop fuel m (span x1 x2) (span y1 y2) (toward x1 x2) (toward y1 y2)
    x2 y2 err cx cy = Normal r.
Proof.
  set (dx := span x1 x2). set (dy := span y1 y2).
  set (sx := toward x1 x2). set (sy := toward y1 y2).
  intros Hrows Hy1 Hy2. revert a b err cx cy.
  induction fuel as [|fuel IH]; intros a b err cx cy Hline Hfuel; [lia|].
  destruct Hline as (Ha & Hb & Herr & Hcx & Hcy).
  fold dx dy sx sy in Ha, Hb, Herr, Hcx, Hcy.
  assert (Hsx : sx = 1 \/ sx = -1) by (subst sx; unfold toward; case_match; auto).
  assert (Hsy : sy = 1 /\ y1 < y2 \/ sy = -1 /\ y2 <= y1)
    by (subst sy; unfold toward; case_match; lia).
  assert (Hrow : 0 <= cy < Maze.height m) by (subst dy; unfold span in *; lia).
  simpl.
  destruct ((cx =? x2) && (cy =? y2)) eqn:Hat; [eauto|].
  assert (Hab : 0 < a + b).
  { apply andb_false_iff in Hat. destruct Hat as [Hne|Hne]; apply Z.eqb_neq in Hne; nia. }
  destruct (canMove_returns m cx cy
              ((if 2 * err >? - dy then cx + sx else cx) - cx)
              ((if 2 * err <? dx then cy + sy else cy) - cy) Hrows Hrow)
    as [ok ->].
  simpl. destruct ok; [|eauto].
  destruct (2 * err >? - dy) eqn:Hx; destruct (2 * err <? dx) eqn:Hy.
  - apply (IH (a - 1) (b - 1)); [|lia].
    unfold on_line. fold dx dy sx sy. split_and!; nia.
  - apply (IH (a - 1) b); [|lia].
    unfold on_line. fold dx dy sx sy. split_and!; nia.
  - apply (IH a (b - 1)); [|lia].
    unfold on_line. fold dx dy sx sy. split_and!; nia.
  - nia.
Qed.

Lemma on_line_start :
  on_line x1 y1 x2 y2 (span x1 x2) (span y1 y2) (span x1 x2 - span y1 y2) x1 y1.
Proof.
  unfold on_line, span, toward. split_and!; repeat case_match; lia.
Qed.

End Walk.

(** [hasLineOfSight] never loops for ever. *)
Lemma hasLineOfSight_terminates (x1 y1 x2 y2 : Z) (m : Maze.t) :
  ViewSystem.hasLineOfSight x1 y1 x2 y2 m <> Abort OutOfFuel.
Proof.
  unfold ViewSystem.hasLineOfSight.
  eapply sightLoop_no_fuel; [apply on_line_start|unfold span; lia].
Qed.

Lemma hasLineOfSight_returns (x1 y1 x2 y2 : Z) (m : Maze.t) :
  wall_rows m -> 0 <= y1 < Maze.height m -> 0 <= y2 < Maze.height m ->
  exists r, ViewSystem.hasLineOfSight x1 y1 x2 y2 m = Normal r.
Proof.
  intros Hrows Hy1 Hy2. unfold ViewSystem.hasLineOfSight.
  eapply sightLoop_returns; [done..|apply on_line_start|unfold span; lia].
Qed.

(** Line of sight from a cell to itself. *)
Lemma hasLineOfSight_self (x y : Z) (m : Maze.t) :
  ViewSystem.hasLineOfSight x y x y m = Normal true.
Proof.
  unfold ViewSystem.hasLineOfSight. simpl. by rewrite !Z.eqb_refl.
Qed.

(** ** The window *)

Lemma scanRow_spec (m : Maze.t) (vx vy cy : Z) (dxs : list Z) (acc S : JsSet.t) :
  ViewSystem.scanRow m vx vy cy dxs acc = Normal S ->
  (forall k, k ∈ S <->
     k ∈ acc \/ exists dx, dx ∈ dxs /\ Maze.in_grid m (vx + dx) cy = true
                 /\ ViewSystem.hasLineOfSight vx vy (vx + dx) cy m = Normal true
                 /\ k = ViewSystem.getCellKey (vx + dx) cy)
  /\ (NoDup acc -> NoDup S).
Proof.
  revert acc. induction dxs as [|dx dxs IH]; intros acc; simpl.
  - intros [= ->]. split; [|done]. intros k. split; [by left|].
    intros [?|(dx & []%elem_of_nil & _)]. done.
  - change ((vx + dx >=? 0) && (vx + dx <? Maze.width m) && (cy >=? 0)
            && (cy <? Maze.height m)) with (Maze.in_grid m (vx + dx) cy).
    destruct (Maze.in_grid m (vx + dx) cy) eqn:Hgrid.
    + destruct (ViewSystem.hasLineOfSight vx vy (vx + dx) cy m) as [los|e] eqn:Hlos;
        simpl; [|done].
      intros Hrec. apply IH in Hrec as [Hmem Hnd]. split.
      * intros k. rewrite Hmem. setoid_rewrite elem_of_cons.
        destruct los.
        -- rewrite JsSet_elem_of_add. split.
           ++ intros [[->|?]|(dx' & ? & ?)]; [right; exists dx|by left|right; exists dx'];
                naive_solver.
           ++ intros [?|(dx' & [->|?] & ? & ? & ->)]; [by left; right|by left; left|].
              right. exists dx'. naive_solver.
        -- split.
           ++ intros [?|(dx' & ? & ?)]; [by left|right; exists dx']. naive_solver.
           ++ intros [?|(dx' & [->|?] & ? & ? & ->)]; [by left|congruence|].
              right. exists dx'. naive_solver.
      * intros Hacc. apply Hnd. destruct los; [by apply JsSet_add_NoDup|done].
    + intros Hrec. apply IH in Hrec as [Hmem Hnd]. split; [|done].
      intros k. rewrite Hmem. setoid_rewrite elem_of_cons. split.
      * intros [?|(dx' & ? & ?)]; [by left|right; exists dx']. naive_solver.
      * intros [?|(dx' & [->|?] & ? & ? & ->)]; [by left|congruence|].
        right. exists dx'. naive_solver.
Qed.

Lemma scanRow_returns (m : Maze.t) (vx vy cy : Z) (dxs : list Z) (acc : JsSet.t) :
  wall_rows m -> 0 <= vy < Maze.height m ->
  exists S, ViewSystem.scanRow m vx vy cy dxs acc = Normal S.
Proof.
  intros Hrows Hvy. revert acc. induction dxs as [|dx dxs IH]; intros acc; simpl; [eauto|].
  destruct ((vx + dx >=? 0) && _ && _ && _) eqn:Hgrid; [|apply IH].
  destruct (hasLineOfSight_returns vx vy (vx + dx) cy m) as [los ->]; [done..|lia|].
  simpl. apply IH.
Qed.

Lemma scanWindow_spec (m : Maze.t) (range vx vy : Z) (dys : list Z) (acc S : JsSet.t) :
  ViewSystem.scanWindow m range vx vy dys acc = Normal S ->
  (forall k, k ∈ S <->
     k ∈ acc \/ exists dx dy, dy ∈ dys /\ - range <= dx <= range
                 /\ Maze.in_grid m (vx + dx) (vy + dy) = true
                 /\ ViewSystem.hasLineOfSight vx vy (vx + dx) (vy + dy) m = Normal true
                 /\ k = ViewSystem.getCellKey (vx + dx) (vy + dy))
  /\ (NoDup acc -> NoDup S).
Proof.
  revert acc. induction dys as [|dy dys IH]; intros acc; simpl.
  - intros [= ->]. split; [|done]. intros k. split; [by left|].
    intros [?|(dx & dy & []%elem_of_nil & _)]. done.
  - destruct (ViewSystem.scanRow _ _ _ _ _ _) as [row|e] eqn:Hrow; simpl; [|done].
    apply scanRow_spec in Hrow as [Hrmem Hrnd].
    intros Hrec. apply IH in Hrec as [Hmem Hnd]. split; [|by auto].
    intros k. rewrite Hmem, Hrmem. setoid_rewrite elem_of_cons.
    setoid_rewrite elem_of_seqZ. split.
    + intros [[?|(dx & ? & ?)]|(dx & dy' & ? & ?)];
        [by left|right; exists dx, dy|right; exists dx, dy']; split_and?; naive_solver lia.
    + intros [?|(dx & dy' & [->|?] & ? & ? & ? & ->)].
      * left. by left.
      * left. right. exists dx. split_and!; try lia; done.
      * right. exists dx, dy'. naive_solver.
Qed.

Lemma scanWindow_returns (m : Maze.t) (range vx vy : Z) (dys : list Z) (acc : JsSet.t) :
  wall_rows m -> 0 <= vy < Maze.height m ->
  exists S, ViewSystem.scanWindow m range vx vy dys acc = Normal S.
Proof.
  intros Hrows Hvy. revert acc. induction dys as [|dy dys IH]; intros acc; simpl; [eauto|].
  destruct (scanRow_returns m vx vy (vy + dy) (seqZ (- range) (2 * range + 1)) acc)
    as [row ->]; [done..|].
  simpl. apply IH.
Qed.

(** The window holds exactly the cells in sight, once each. *)
Lemma window_spec (m : Maze.t) (range vx vy : Z) (S : JsSet.t) :
  window m range vx vy = Normal S ->
  (forall x y, ViewSystem.getCellKey x y ∈ S <-> in_sight m range vx vy x y)
  /\ (forall k, k ∈ S -> exists x y, k = ViewSystem.getCellKey x y)
  /\ NoDup S.
Proof.
  intros Hw. apply scanWindow_spec in Hw as [Hmem Hnd].
  split_and!; [| |apply Hnd, NoDup_nil_2].
  - intros x y. rewrite Hmem. unfold in_sight. setoid_rewrite elem_of_seqZ. split.
    + intros [[]%elem_of_nil|(dx & dy & ? & ? & ? & ? & [-> ->]%getCellKey_inj)].
      split_and!; [lia|lia|done..].
    + intros (? & ? & ? & ?). right. exists (x - vx), (y - vy).
      replace (vx + (x - vx)) with x by lia. replace (vy + (y - vy)) with y by lia.
      split_and!; [lia..|done|done|done].
  - intros k [[]%elem_of_nil|(dx & dy & _ & _ & _ & _ & ->)]%Hmem. eauto.
Qed.

Lemma window_returns (m : Maze.t) (range vx vy : Z) :
  wall_rows m -> 0 <= vy < Maze.height m ->
  exists S, window m range vx vy = Normal S.
Proof. apply scanWindow_returns. Qed.

(** ** Sets and loops *)

Lemma foldl_add_elem (l acc : JsSet.t) (k : string) :
  k ∈ foldl (fun s k => JsSet.add k s) acc l <-> k ∈ acc \/ k ∈ l.
Proof.
  revert acc. induction l as [|a l IH]; intros acc; simpl.
  - rewrite elem_of_nil. tauto.
  - rewrite IH, JsSet_elem_of_add, elem_of_cons. tauto.
Qed.

Lemma foldl_add_fresh (l acc : JsSet.t) :
  NoDup (acc ++ l) -> foldl (fun s k => JsSet.add k s) acc l = acc ++ l.
Proof.
  revert acc. induction l as [|a l IH]; intros acc Hnd; simpl.
  - by rewrite app_nil_r.
  - assert (Ha : a ∉ acc).
    { apply NoDup_app in Hnd as (_ & Hdisj & _). intros Hin.
      apply (Hdisj a Hin). by left. }
    unfold JsSet.add at 2, JsSet.has. rewrite bool_decide_eq_false_2 by done.
    rewrite IH; rewrite <-app_assoc; done.
Qed.

Lemma of_list_NoDup (l : JsSet.t) : NoDup l -> JsSet.of_list l = l.
Proof. intros Hnd. unfold JsSet.of_list. by rewrite foldl_add_fresh. Qed.

Lemma forM_modify {S A} (f : A -> S -> S) (l : list A) (s : S) :
  forM l (fun a => modify (f a)) s = (Normal tt, foldl (fun s a => f a s) s l).
Proof.
  revert s. induction l as [|a l IH]; intros s; simpl; [done|].
  unfold bind, modify at 1. simpl. apply IH.
Qed.

(** ** The cache *)

Lemma cache_ok_new (m : Maze.t) (omode : option string) (orange : option Z) :
  cache_ok m (ViewSystem.new omode orange).
Proof. intros x y r l. simpl. by rewrite lookup_empty. Qed.

Lemma cache_ok_same (m : Maze.t) (s s' : ViewSystem.t) :
  ViewSystem.cache s' = ViewSystem.cache s -> cache_ok m s -> cache_ok m s'.
Proof. intros Hc Hok x y r l. rewrite Hc. apply Hok. Qed.

(** [calculateVisibleArea] returns the window of the position, whether
    it finds it in the cache or not, and keeps the cache right. *)
Lemma calculateVisibleArea_spec (m : Maze.t) (vx vy : Z) (s : ViewSystem.t) :
  cache_ok m s ->
  exists s',
    ViewSystem.calculateVisibleArea vx vy m s
    = (window m (ViewSystem.viewRange s) vx vy, s')
    /\ same_but_cache s s' /\ cache_ok m s'.
Proof.
  intros Hok. unfold ViewSystem.calculateVisibleArea, bind, gets, lift, ret, modify. simpl.
  destruct (ViewSystem.cache s !! _) as [l|] eqn:Hhit.
  - exists s. apply Hok in Hhit as Hw. rewrite Hw.
    apply window_spec in Hw as (_ & _ & Hnd).
    rewrite of_list_NoDup by done. by split_and!.
  - fold (window m (ViewSystem.viewRange s) vx vy).
    destruct (window m (ViewSystem.viewRange s) vx vy) as [S|e] eqn:Hw.
    + eexists. split; [done|]. split; [done|].
      intros x y r l. simpl. rewrite lookup_insert.
      case_decide as Hkey.
      * apply cacheKey_inj in Hkey as (<- & <- & <-). by intros [= <-].
      * apply Hok.
    + exists s. by split_and!.
Qed.

(** ** [update] *)

Lemma forM_ext {S A} (body1 body2 : A -> M S unit) (l : list A) (s : S) :
  (forall a s, body1 a s = body2 a s) -> forM l body1 s = forM l body2 s.
Proof.
  intros Hext. revert s. induction l as [|a l IH]; intros s; simpl; [done|].
  unfold bind. rewrite Hext. destruct (body2 a s) as [[[]|e] s1]; [apply IH|done].
Qed.

Lemma fold_explored (l : list string) (s : ViewSystem.t) :
  foldl (fun s k => ViewSystem.set_exploredCells
                      (JsSet.add k (ViewSystem.exploredCells s)) s) s l
  = ViewSystem.set_exploredCells
      (foldl (fun e k => JsSet.add k e) (ViewSystem.exploredCells s) l) s.
Proof.
  revert s. induction l as [|k l IH]; intros s; simpl; [by destruct s|].
  by rewrite IH.
Qed.

Lemma fold_visible (l : list string) (s : ViewSystem.t) :
  foldl (fun s k => ViewSystem.set_visibleCells
                      (JsSet.add k (ViewSystem.visibleCells s)) s) s l
  = ViewSystem.set_visibleCells
      (foldl (fun e k => JsSet.add k e) (ViewSystem.visibleCells s) l) s.
Proof.
  revert s. induction l as [|k l IH]; intros s; simpl; [by destruct s|].
  by rewrite IH.
Qed.

Lemma fold_permanent (l : list string) (s : ViewSystem.t) :
  foldl (fun s k =>
           ViewSystem.set_permanentCells
             (JsSet.add k (ViewSystem.permanentCells s))
             (ViewSystem.set_exploredCells (JsSet.add k (ViewSystem.exploredCells s)) s))
    s l
  = ViewSystem.set_permanentCells
      (foldl (fun e k => JsSet.add k e) (ViewSystem.permanentCells s) l)
      (ViewSystem.set_exploredCells
         (foldl (fun e k => JsSet.add k e) (ViewSystem.exploredCells s) l) s).
Proof.
  revert s. induction l as [|k l IH]; intros s; simpl; [by destruct s|].
  by rewrite IH.
Qed.

(** What [update] does, in either mode, for a view system whose cache
    is right. *)
Lemma update_spec (m : Maze.t) (vx vy : Z) (s : ViewSystem.t) :
  cache_ok m s ->
  exists c,
    (forall x y r l, c !! ViewSystem.cacheKey x y r = Some l -> window m r x y = Normal l)
    /\ match window m (ViewSystem.viewRange s) vx vy with
       | Abort e =>
           ViewSystem.update vx vy m s = (Abort e, ViewSystem.set_cache c s)
       | Normal V =>
           if bool_decide (ViewSystem.mode s = "permanent") then
             let perm := foldl (fun e k => JsSet.add k e) (ViewSystem.permanentCells s) V in
             let vis := foldl (fun e k => JsSet.add k e) V perm in
             ViewSystem.update vx vy m s
             = (Normal vis,
                ViewSystem.Build (ViewSystem.mode s) (ViewSystem.viewRange s) vis
                  (foldl (fun e k => JsSet.add k e) (ViewSystem.exploredCells s) V)
                  perm c)
           else
             ViewSystem.update vx vy m s
             = (Normal V,
                ViewSystem.Build (ViewSystem.mode s) (ViewSystem.viewRange s) V V
                  (ViewSystem.permanentCells s) c)
       end.
Proof.
  intros Hok.
  destruct (calculateVisibleArea_spec m vx vy s Hok) as (s1 & Hcalc & Hsame & Hok1).
  destruct Hsame as (Hmode & Hrange & Hvis & Hexp & Hperm).
  exists (ViewSystem.cache s1). split; [exact Hok1|].
  unfold ViewSystem.update.
  destruct (window m (ViewSystem.viewRange s) vx vy) as [S|e] eqn:Hw.
  - apply window_spec in Hw as (_ & _ & Hnd).
    rewrite (bind_normal _ _ _ _ _ Hcalc), bind_modify, bind_gets. simpl. rewrite Hmode.
    case_bool_decide as Hmd.
    + rewrite bind_assoc.
      rewrite (bind_normal _ _ _ tt _
                 (eq_trans (forM_ext _ (fun k => modify (fun s =>
                     ViewSystem.set_permanentCells
                       (JsSet.add k (ViewSystem.permanentCells s))
                       (ViewSystem.set_exploredCells
                          (JsSet.add k (ViewSystem.exploredCells s)) s))) _ _
                     (fun _ _ => eq_refl)) (forM_modify _ _ _))).
      rewrite fold_permanent, bind_assoc, bind_gets. simpl.
      rewrite (bind_normal _ _ _ tt _ (forM_modify _ _ _)).
      rewrite fold_visible. unfold gets. simpl.
      destruct s, s1; simpl in *; by subst.
    + rewrite bind_assoc, bind_modify.
      rewrite (bind_normal _ _ _ tt _ (forM_modify _ _ _)).
      rewrite fold_explored. unfold gets. simpl.
      rewrite (foldl_add_fresh S []) by done. simpl.
      destruct s, s1; simpl in *; by subst.
  - rewrite (bind_abort _ _ _ _ _ Hcalc).
    destruct s, s1; simpl in *. by subst.
Qed.

(** [update], [setMode] and [setViewRange] keep the cache right. *)
Lemma update_cache_ok (m : Maze.t) (vx vy : Z) (s : ViewSystem.t) :
  cache_ok m s -> cache_ok m (snd (ViewSystem.update vx vy m s)).
Proof.
  intros Hok. destruct (update_spec m vx vy s Hok) as (c & Hc & Hupd).
  destruct (window m (ViewSystem.viewRange s) vx vy) as [V|e].
  - case_bool_decide; rewrite Hupd; exact Hc.
  - rewrite Hupd. exact Hc.
Qed.

Lemma setMode_cache_ok (m : Maze.t) (md : string) (s : ViewSystem.t) :
  cache_ok m s -> cache_ok m (snd (ViewSystem.setMode md s)).
Proof.
  intros Hok. unfold ViewSystem.setMode. destruct (negb _ && negb _); [done|].
  intros x y r l. simpl. by rewrite lookup_empty.
Qed.

Lemma setViewRange_cache_ok (m : Maze.t) (range : Z) (s : ViewSystem.t) :
  cache_ok m s -> cache_ok m (snd (ViewSystem.setViewRange range s)).
Proof. intros _ x y r l. simpl. by rewrite lookup_empty. Qed.

(** ** Walls on a straight line *)

Lemma canMove_left (m : Maze.t) (x y : Z) :
  Maze.canMove m x y (-1) 0 = Maze.canMove m (x - 1) y 1 0.
Proof. unfold Maze.canMove. simpl. by replace (x - 1 + 1) with x by lia. Qed.

Lemma canMove_up (m : Maze.t) (x y : Z) :
  Maze.canMove m x y 0 (-1) = Maze.canMove m x (y - 1) 0 1.
Proof. unfold Maze.canMove. simpl. by replace (y - 1 + 1) with y by lia. Qed.

Lemma sightLoop_row (fuel : nat) (m : Maze.t) (dx sx sy x2 y a err cx : Z) :
  0 <= a <= dx -> err = dx -> sx = 1 \/ sx = -1 -> cx = x2 - sx * a ->
  ViewSystem.sightLoop fuel m dx 0 sx sy x2 y err cx y = Normal true ->
  open_row m y cx x2.
Proof.
  revert a err cx. induction fuel as [|fuel IH]; intros a err cx Ha -> Hsx ->; [done|].
  simpl. rewrite Z.eqb_refl, andb_true_r.
  destruct (x2 - sx * a =? x2) eqn:Hat.
  { intros _ i Hi. lia. }
  apply Z.eqb_neq in Hat.
  replace (2 * dx >? - 0) with true by lia.
  replace (2 * dx <? dx) with false by lia.
  replace (x2 - sx * a + sx - (x2 - sx * a)) with sx by lia.
  replace (y - y) with 0 by lia.
  destruct (Maze.canMove m (x2 - sx * a) y sx 0) as [[|]|e] eqn:Hmove; simpl; [|done..].
  intros Hrec. eapply (IH (a - 1)) in Hrec; [|lia|lia|done|lia].
  intros i Hi.
  destruct (decide (Z.min (x2 - sx * a + sx) x2 <= i < Z.max (x2 - sx * a + sx) x2))
    as [Hin|Hout]; [by apply Hrec|].
  destruct Hsx as [->| ->].
  - by replace i with (x2 - 1 * a) by lia.
  - rewrite canMove_left in Hmove. by replace i with (x2 - -1 * a - 1) by lia.
Qed.

Lemma sightLoop_column (fuel : nat) (m : Maze.t) (dy sx sy x y2 b err cy : Z) :
  0 <= b <= dy -> err = - dy -> sy = 1 \/ sy = -1 -> cy = y2 - sy * b ->
  ViewSystem.sightLoop fuel m 0 dy sx sy x y2 err x cy = Normal true ->
  open_column m x cy y2.
Proof.
  revert b err cy. induction fuel as [|fuel IH]; intros b err cy Hb -> Hsy ->; [done|].
  simpl. rewrite Z.eqb_refl. simpl.
  destruct (y2 - sy * b =? y2) eqn:Hat.
  { intros _ j Hj. lia. }
  apply Z.eqb_neq in Hat.
  replace (2 * - dy >? - dy) with false by lia.
  replace (2 * - dy <? 0) with true by lia.
  replace (y2 - sy * b + sy - (y2 - sy * b)) with sy by lia.
  replace (x - x) with 0 by lia.
  destruct (Maze.canMove m x (y2 - sy * b) 0 sy) as [[|]|e] eqn:Hmove; simpl; [|done..].
  intros Hrec. eapply (IH (b - 1)) in Hrec; [|lia|lia|done|lia].
  intros j Hj.
  destruct (decide (Z.min (y2 - sy * b + sy) y2 <= j < Z.max (y2 - sy * b + sy) y2))
    as [Hin|Hout]; [by apply Hrec|].
  destruct Hsy as [->| ->].
  - by replace j with (y2 - 1 * b) by lia.
  - rewrite canMove_up in Hmove. by replace j with (y2 - -1 * b - 1) by lia.
Qed.

(** Sight along a row or a column passes no wall. *)
Lemma sight_along_row (m : Maze.t) (x1 x2 y : Z) :
  ViewSystem.hasLineOfSight x1 y x2 y m = Normal true -> open_row m y x1 x2.
Proof.
  unfold ViewSystem.hasLineOfSight. replace (Z.abs (y - y)) with 0 by lia.
  rewrite Z.add_0_r, Z.sub_0_r.
  apply (sightLoop_row _ _ _ _ _ _ _ (Z.abs (x2 - x1))); [lia|done| |];
    case_match; lia.
Qed.

Lemma sight_along_column (m : Maze.t) (x y1 y2 : Z) :
  ViewSystem.hasLineOfSight x y1 x y2 m = Normal true -> open_column m x y1 y2.
Proof.
  unfold ViewSystem.hasLineOfSight. replace (Z.abs (x - x)) with 0 by lia.
  rewrite Z.add_0_l, Z.sub_0_l.
  apply (sightLoop_column _ _ _ _ _ _ _ (Z.abs (y2 - y1))); [lia|done| |];
    case_match; lia.
Qed.

(** ** The view system *)

(** C10: after [update] with the viewer inside the grid, the viewer's
    own cell is in the returned visible set, in either mode and for every
    view range from 1 up; and [update] does return. *)
Theorem update_sees_viewer (m : Maze.t) (s : ViewSystem.t) (vx vy : Z) :
  wall_rows m -> cache_ok m s ->
  Maze.in_grid m vx vy = true ->
  1 <= ViewSystem.viewRange s ->
  exists visible s',
    ViewSystem.update vx vy m s = (Normal visible, s')
    /\ ViewSystem.getCellKey vx vy ∈ visible
    /\ ViewSystem.isCellVisible s' vx vy = true.
Proof.
  intros Hrows Hok Hgrid Hrange.
  assert (Hvy : 0 <= vy < Maze.height m).
  { unfold Maze.in_grid in Hgrid. lia. }
  destruct (update_spec m vx vy s Hok) as (c & _ & Hupd).
  destruct (window_returns m (ViewSystem.viewRange s) vx vy Hrows Hvy) as [V Hw].
  rewrite Hw in Hupd.
  apply window_spec in Hw as (Hmem & _ & _).
  assert (Hself : ViewSystem.getCellKey vx vy ∈ V).
  { apply Hmem. unfold in_sight. rewrite hasLineOfSight_self. split_and!; [lia..|done|done]. }
  unfold ViewSystem.isCellVisible.
  case_bool_decide; simpl in Hupd; eexists _, _; (split; [exact Hupd|]); simpl;
    rewrite JsSet_has_true, ?foldl_add_elem; tauto.
Qed.

(** On the maze of the 3×3 game, from the player's cell. *)
Lemma update_sees_viewer_witness :
  exists visible s',
    ViewSystem.update 1 0 (Game.maze (Game.game demo))
      (ViewSystem.new (Some "permanent") (Some 1)) = (Normal visible, s')
    /\ ViewSystem.getCellKey 1 0 ∈ visible
    /\ ViewSystem.isCellVisible s' 1 0 = true.
Proof.
  apply update_sees_viewer.
  - apply wall_rows_decide. vm_compute. reflexivity.
  - apply cache_ok_new.
  - vm_compute. reflexivity.
  - vm_compute. discriminate.
Defined.

(** C4: in instant mode [update] returns the window of the viewer's
    position and nothing else, and leaves [exploredCells] equal to it: a
    cell is explored afterwards exactly when it is in sight now, so a cell
    that was explored and is outside the new window is explored no more. *)
Theorem update_instant_forgets (m : Maze.t) (s : ViewSystem.t) (vx vy : Z) :
  wall_rows m -> cache_ok m s ->
  0 <= vy < Maze.height m ->
  ViewSystem.mode s = "instant" ->
  exists visible s',
    ViewSystem.update vx vy m s = (Normal visible, s')
    /\ window m (ViewSystem.viewRange s) vx vy = Normal visible
    /\ ViewSystem.visibleCells s' = visible
    /\ ViewSystem.exploredCells s' = visible
    /\ (forall x y, ViewSystem.getCellKey x y ∈ visible
                    <-> in_sight m (ViewSystem.viewRange s) vx vy x y)
    /\ (forall x y, ViewSystem.isCellExplored s x y = true ->
                    ~ in_sight m (ViewSystem.viewRange s) vx vy x y ->
                    ViewSystem.isCellExplored s' x y = false).
Proof.
  intros Hrows Hok Hvy Hmode.
  destruct (update_spec m vx vy s Hok) as (c & _ & Hupd).
  destruct (window_returns m (ViewSystem.viewRange s) vx vy Hrows Hvy) as [V Hw].
  rewrite Hw, Hmode in Hupd. simpl in Hupd.
  exists V. eexists. split; [exact Hupd|]. simpl.
  apply window_spec in Hw as Hspec. destruct Hspec as (Hmem & _ & _).
  split_and!; [done..|].
  intros x y _ Hout. unfold ViewSystem.isCellExplored. simpl.
  apply not_true_is_false. rewrite JsSet_has_true, Hmem. done.
Qed.

(** In the 3×3 game: the view system that saw (1,0) from (1,0) is
    updated at (1,1), from where (1,0) is behind a wall. *)
Lemma update_instant_forgets_witness :
  exists visible s',
    ViewSystem.update 1 1 (Game.maze (Game.game demo))
      (Game.viewSystem (Game.game demo)) = (Normal visible, s')
    /\ ViewSystem.isCellExplored (Game.viewSystem (Game.game demo)) 1 0 = true
    /\ ViewSystem.isCellExplored s' 1 0 = false.
Proof.
  destruct (update_instant_forgets (Game.maze (Game.game demo))
              (Game.viewSystem (Game.game demo)) 1 1)
    as (visible & s' & Hupd & _ & _ & _ & _ & Hforget).
  - apply wall_rows_decide. vm_compute. reflexivity.
  - change (Game.viewSystem (Game.game demo))
      with (snd (ViewSystem.update 1 0 (Game.maze (Game.game demo))
                   (ViewSystem.new (Some "instant") (Some 1)))).
    apply update_cache_ok, cache_ok_new.
  - vm_compute. split; [discriminate|reflexivity].
  - vm_compute. reflexivity.
  - exists visible, s'. split_and!; [done|by vm_compute|].
    apply Hforget; [by vm_compute|].
    intros (_ & _ & _ & Hlos). vm_compute in Hlos. discriminate.
Defined.

(** C5, amended: after [update] on a view system whose cache was filled
    on this grid, a visible cell is in sight of the viewer — within the
    view range in both coordinates, inside the grid, with line of sight,
    hence with no wall on the way when it lies in the viewer's row or
    column — or else the mode is permanent and the cell was among the
    permanent cells before the call.  About walls on a line that leaves
    the viewer's row and column nothing is stated: there [hasLineOfSight]
    can hold across a wall, as [canMove] has no case for a diagonal
    step. *)
Theorem visible_in_sight_or_permanent(m : Maze.t) (s s' : ViewSystem.t)
    (vx vy x y : Z) (visible : JsSet.t) :
  cache_ok m s ->
  ViewSystem.update vx vy m s = (Normal visible, s') ->
  ViewSystem.isCellVisible s' x y = true ->
  (in_sight m (ViewSystem.viewRange s) vx vy x y
   /\ (y = vy -> open_row m y vx x)
   /\ (x = vx -> open_column m x vy y))
  \/ (ViewSystem.mode s = "permanent"
      /\ ViewSystem.getCellKey x y ∈ ViewSystem.permanentCells s).
Proof.
  intros Hok Hupd Hvis.
  destruct (update_spec m vx vy s Hok) as (c & _ & Hspec).
  rewrite Hupd in Hspec.
  destruct (window m (ViewSystem.viewRange s) vx vy) as [V|e] eqn:Hw; [|done].
  apply window_spec in Hw as (Hmem & _ & _).
  assert (Hsight : ViewSystem.getCellKey x y ∈ V ->
            in_sight m (ViewSystem.viewRange s) vx vy x y
            /\ (y = vy -> open_row m y vx x) /\ (x = vx -> open_column m x vy y)).
  { intros Hin%Hmem. split; [done|]. destruct Hin as (_ & _ & _ & Hlos).
    split; intros ->; [by apply sight_along_row|by apply sight_along_column]. }
  unfold ViewSystem.isCellVisible in Hvis. apply JsSet_has_true in Hvis.
  case_bool_decide as Hmode; simplify_eq/=.
  - apply foldl_add_elem in Hvis as [?|[?|?]%foldl_add_elem]; auto.
  - auto.
Qed.

Lemma visible_in_sight_or_permanent_witness :
  (in_sight (Game.maze (Game.game demo)) 1 1 0 2 0
   /\ (0 = 0 -> open_row (Game.maze (Game.game demo)) 0 1 2)
   /\ (2 = 1 -> open_column (Game.maze (Game.game demo)) 2 0 0))
  \/ (ViewSystem.mode (ViewSystem.new (Some "instant") (Some 1)) = "permanent"
      /\ ViewSystem.getCellKey 2 0
           ∈ ViewSystem.permanentCells (ViewSystem.new (Some "instant") (Some 1))).
Proof.
  apply (visible_in_sight_or_permanent (Game.maze (Game.game demo))
           (ViewSystem.new (Some "instant") (Some 1))
           (snd (ViewSystem.update 1 0 (Game.maze (Game.game demo))
                   (ViewSystem.new (Some "instant") (Some 1))))
           1 0 2 0 ["1,0"; "2,0"; "2,1"]).
  - apply cache_ok_new.
  - vm_compute. reflexivity.
  - vm_compute. reflexivity.
Defined.

(** C5 as worded fails twice.  In permanent mode, by design: on the
    maze of the 3×3 game, a view system of range 1 updated at (1,0) and
    then at (1,2) still reports (1,0) visible, two rows away and behind a
    wall.  In instant mode, for a diagonal line: on the 3×3 maze of fixed
    level 1 the viewer at (0,1) sees (1,2), although the wall between rows
    1 and 2 stands unbroken over columns 0 and 1, so that neither cell of
    row 1 next to the line has a way down; [hasLineOfSight] hands the
    diagonal step to [canMove], which reads the wall at the viewer's side
    only. *)
Lemma visible_beyond_range_counterexample :
  let m := Game.maze (Game.game demo) in
  let s0 := ViewSystem.new (Some "permanent") (Some 1) in
  let s1 := snd (ViewSystem.update 1 0 m s0) in
  let s2 := snd (ViewSystem.update 1 2 m s1) in
  let t0 := ViewSystem.new (Some "instant") (Some 1) in
  let t1 := snd (ViewSystem.update 0 1 level1 t0) in
  (fst (ViewSystem.update 1 0 m s0) = Normal ["1,0"; "2,0"; "2,1"]
   /\ fst (ViewSystem.update 1 2 m s1)
      = Normal ["0,1"; "1,1"; "2,1"; "0,2"; "1,2"; "2,2"; "1,0"; "2,0"]
   /\ ViewSystem.isCellVisible s2 1 0 = true
   /\ ViewSystem.viewRange s1 = 1
   /\ ~ (Z.abs (0 - 2) <= ViewSystem.viewRange s1)
   /\ ViewSystem.hasLineOfSight 1 2 1 0 m = Normal false)
  /\ (fst (ViewSystem.update 0 1 level1 t0) = Normal ["0,0"; "1,0"; "0,1"; "1,1"; "1,2"]
      /\ ViewSystem.isCellVisible t1 1 2 = true
      /\ ViewSystem.hasLineOfSight 0 1 1 2 level1 = Normal true
      /\ Maze.canMove level1 0 1 1 1 = Normal true
      /\ Maze.getWall level1 Maze.Horizontal 2 0 = Normal (Some true)
      /\ Maze.getWall level1 Maze.Horizontal 2 1 = Normal (Some true)
      /\ Maze.canMove level1 0 1 0 1 = Normal false
      /\ Maze.canMove level1 1 1 0 1 = Normal false).
Proof. vm_compute. split_and!; try reflexivity. intros H. by apply H. Qed.

(** ** Two generations from one seed *)

Section Related.

Context {S : Type}.

Lemma related_ret {A} (P : S -> S -> Prop) (a : A) : related P P (ret a).
Proof. by intros s1 s2 HP. Qed.

Lemma related_throw {A} (P Q : S -> S -> Prop) (e : abort) : related P Q (throw (A:=A) e).
Proof. by intros s1 s2 HP. Qed.

Lemma related_lift {A} (P : S -> S -> Prop) (c : completion A) : related P P (lift c).
Proof. intros s1 s2 HP. unfold lift. by destruct c. Qed.

Lemma related_bind {A B} (P Q Q' : S -> S -> Prop) (c : M S A) (k : A -> M S B) :
  related P Q c -> (forall a, related Q Q' (k a)) -> related P Q' (bind c k).
Proof.
  intros Hc Hk s1 s2 HP. specialize (Hc s1 s2 HP). unfold bind.
  destruct (c s1) as [[a1|e1] s1'], (c s2) as [[a2|e2] s2']; simpl in Hc; try done.
  destruct Hc as [-> HQ]. by apply Hk.
Qed.

Lemma related_gets {A} (P : S -> S -> Prop) (f : S -> A) :
  (forall s1 s2, P s1 s2 -> f s1 = f s2) -> related P P (gets f).
Proof. intros Hf s1 s2 HP. simpl. auto. Qed.

Lemma related_modify (P Q : S -> S -> Prop) (f : S -> S) :
  (forall s1 s2, P s1 s2 -> Q (f s1) (f s2)) -> related P Q (modify f).
Proof. intros Hf s1 s2 HP. simpl. auto. Qed.

Lemma related_forM {A} (P : S -> S -> Prop) (l : list A) (body : A -> M S unit) :
  (forall a, related P P (body a)) -> related P P (forM l body).
Proof.
  intros Hbody. induction l as [|a l IH]; simpl.
  - apply related_ret.
  - eapply related_bind; [apply Hbody|]. intros _. apply IH.
Qed.

Lemma related_weaken {A} (P P' Q Q' : S -> S -> Prop) (c : M S A) :
  (forall s1 s2, P' s1 s2 -> P s1 s2) -> (forall s1 s2, Q s1 s2 -> Q' s1 s2) ->
  related P Q c -> related P' Q' c.
Proof.
  intros HP HQ Hc s1 s2 H. specialize (Hc s1 s2 (HP _ _ H)).
  destruct (c s1) as [[a1|e1] s1'], (c s2) as [[a2|e2] s2']; simpl in *; try done.
  destruct Hc. auto.
Qed.

End Related.

Lemma mazes_agree_le (n n' : nat) (m1 m2 : Maze.t) :
  (n' <= n)%nat -> mazes_agree n m1 m2 -> mazes_agree n' m1 m2.
Proof.
  intros Hle (? & ? & H1 & H2 & H3 & H4 & H5).
  split_and!; [done|done|..]; intros ?;
    [apply H1|apply H2|apply H3|apply H4|apply H5]; lia.
Qed.

(** From stage 4 on the two mazes differ in their paths at most. *)
Lemma mazes_agree_path (n : nat) (m1 m2 : Maze.t) :
  (4 <= n)%nat -> mazes_agree n m1 m2 -> m1 = Maze.set_path (Maze.path m1) m2.
Proof.
  intros Hn (? & ? & H1 & H2 & H3 & H4 & _).
  specialize (H1 ltac:(lia)). specialize (H2 ltac:(lia)).
  specialize (H3 ltac:(lia)). specialize (H4 ltac:(lia)).
  destruct m1, m2; simpl in *. by subst.
Qed.

Lemma related_bind_gets {S A B} (P Q : S -> S -> Prop) (f : S -> A) (k : A -> M S B) :
  (forall s1 s2, P s1 s2 -> same_outcome Q (k (f s1) s1) (k (f s2) s2)) ->
  related P Q (bind (gets f) k).
Proof. intros Hk s1 s2 HP. rewrite !bind_gets. by apply Hk. Qed.

(** *** Steps on the maze *)

Lemma write_cell_related (n : nat) (y x : Z) (v : bool) :
  (1 <= n)%nat -> related (mazes_agree n) (mazes_agree n) (Maze.write_cell y x v).
Proof.
  intros Hn m1 m2 Hag. pose proof Hag as (? & ? & H1 & ?).
  unfold Maze.write_cell. rewrite H1 by lia.
  destruct (write2 _ _ _ _); simpl; [|done]. split; [done|].
  destruct Hag as (? & ? & ? & ? & ? & ? & ?). by split_and!.
Qed.

Lemma write_horizontal_related (n : nat) (y x : Z) (v : bool) :
  (2 <= n)%nat -> related (mazes_agree n) (mazes_agree n) (Maze.write_horizontal y x v).
Proof.
  intros Hn m1 m2 Hag. pose proof Hag as (? & ? & ? & H2 & ?).
  unfold Maze.write_horizontal. rewrite H2 by lia.
  destruct (write2 _ _ _ _); simpl; [|done]. split; [done|].
  destruct Hag as (? & ? & ? & ? & ? & ? & ?). by split_and!.
Qed.

Lemma write_vertical_related (n : nat) (y x : Z) (v : bool) :
  (2 <= n)%nat -> related (mazes_agree n) (mazes_agree n) (Maze.write_vertical y x v).
Proof.
  intros Hn m1 m2 Hag. pose proof Hag as (? & ? & ? & H2 & ?).
  unfold Maze.write_vertical. rewrite H2 by lia.
  destruct (write2 _ _ _ _); simpl; [|done]. split; [done|].
  destruct Hag as (? & ? & ? & ? & ? & ? & ?). by split_and!.
Qed.

Lemma removeWall_related (n : nat) (x y : Z) (d : Maze.direction) :
  (2 <= n)%nat -> related (mazes_agree n) (mazes_agree n) (Maze.removeWall x y d).
Proof.
  intros Hn. destruct d; simpl;
    auto using write_horizontal_related, write_vertical_related.
Qed.

Lemma gets_width_related (n : nat) : related (mazes_agree n) (mazes_agree n) (gets Maze.width).
Proof. apply related_gets. by intros m1 m2 (? & _). Qed.

Lemma gets_height_related (n : nat) : related (mazes_agree n) (mazes_agree n) (gets Maze.height).
Proof. apply related_gets. by intros m1 m2 (? & ? & _). Qed.

Lemma setBoundaryWalls_related (n : nat) :
  (2 <= n)%nat -> related (mazes_agree n) (mazes_agree n) Maze.setBoundaryWalls.
Proof.
  intros Hn. unfold Maze.setBoundaryWalls.
  eapply related_bind; [apply gets_width_related|intros w].
  eapply related_bind; [apply gets_height_related|intros h].
  eapply related_bind;
    [apply related_forM; intros x; by apply write_horizontal_related|intros _].
  eapply related_bind;
    [apply related_forM; intros x; by apply write_horizontal_related|intros _].
  eapply related_bind;
    [apply related_forM; intros y; by apply write_vertical_related|intros _].
  apply related_forM; intros y; by apply write_vertical_related.
Qed.

Lemma init_related : related (mazes_agree 0) (mazes_agree 2) Maze.init.
Proof.
  unfold Maze.init.
  eapply related_bind; [apply gets_width_related|intros w].
  eapply related_bind; [apply gets_height_related|intros h].
  eapply related_bind; [apply related_lift|intros c].
  eapply (related_bind _ (mazes_agree 1)).
  { apply related_modify. intros m1 m2 (? & ? & _). split_and!; simpl; try done; lia. }
  intros _.
  eapply related_bind; [apply related_lift|intros hor].
  eapply related_bind; [apply related_lift|intros ver].
  eapply (related_bind _ (mazes_agree 2)).
  { apply related_modify. intros m1 m2 (? & ? & H1 & _).
    split_and!; simpl; try done; try lia. intros _. apply H1. lia. }
  intros _. by apply setBoundaryWalls_related.
Qed.

(** *** The searches do not read the path *)

Lemma canMove_path (p : list point) (m : Maze.t) (x y dx dy : Z) :
  Maze.canMove (Maze.set_path p m) x y dx dy = Maze.canMove m x y dx dy.
Proof. done. Qed.

Lemma unvisitedLoop_path (p : list point) (m : Maze.t) (x y : Z)
    (dirs : list (Z * Z * Maze.direction)) (acc : list Maze.neighbor) :
  Maze.unvisitedLoop (Maze.set_path p m) x y dirs acc = Maze.unvisitedLoop m x y dirs acc.
Proof.
  revert acc. induction dirs as [|[[dx dy] d] dirs IH]; intros acc; simpl; [done|].
  unfold Maze.in_grid. simpl.
  destruct (_ && _); [|apply IH].
  destruct (read2 _ _ _); simpl; [apply IH|done].
Qed.

Lemma reachNeighbors_path (p : list point) (m : Maze.t) (current : point)
    (dirs : list (Z * Z)) (queue : list point) (visited : grid bool) :
  Maze.reachNeighbors (Maze.set_path p m) current dirs queue visited
  = Maze.reachNeighbors m current dirs queue visited.
Proof.
  revert queue visited. induction dirs as [|[dx dy] dirs IH]; intros queue visited;
    simpl; [done|].
  unfold Maze.in_grid. simpl. rewrite canMove_path.
  destruct (_ && _); [|apply IH].
  destruct (Maze.canMove _ _ _ _ _) as [[|]|]; simpl; [|apply IH|done].
  destruct (read2 _ _ _) as [v|]; simpl; [|done].
  destruct (negb (truthy v)); [|apply IH].
  destruct (write2 _ _ _ _); simpl; [apply IH|done].
Qed.

Lemma reachLoop_path (p : list point) (fuel : nat) (m : Maze.t) (queue : list point)
    (visited : grid bool) :
  Maze.reachLoop fuel (Maze.set_path p m) queue visited = Maze.reachLoop fuel m queue visited.
Proof.
  revert queue visited. induction fuel as [|fuel IH]; intros queue visited; [done|].
  destruct queue as [|current queue]; [done|].
  cbn [Maze.reachLoop]. rewrite reachNeighbors_path.
  change (Maze.end_ (Maze.set_path p m)) with (Maze.end_ m).
  destruct (_ && _); [done|].
  destruct (Maze.reachNeighbors _ _ _ _ _); simpl; [apply IH|done].
Qed.

Lemma pathNeighbors_path (p : list point) (m : Maze.t) (current : point)
    (dirs : list (Z * Z)) (queue : list point) (visited : grid bool)
    (parent : grid (option point)) :
  Maze.pathNeighbors (Maze.set_path p m) current dirs queue visited parent
  = Maze.pathNeighbors m current dirs queue visited parent.
Proof.
  revert queue visited parent.
  induction dirs as [|[dx dy] dirs IH]; intros queue visited parent; simpl; [done|].
  unfold Maze.in_grid. simpl. rewrite canMove_path.
  destruct (_ && _); [|apply IH].
  destruct (Maze.canMove _ _ _ _ _) as [[|]|]; simpl; [|apply IH|done].
  destruct (read2 _ _ _) as [v|]; simpl; [|done].
  destruct (negb (truthy v)); [|apply IH].
  destruct (write2 _ _ _ _); simpl; [|done].
  destruct (write2 _ _ _ _); simpl; [apply IH|done].
Qed.

Lemma pathLoop_path (p : list point) (fuel : nat) (m : Maze.t) (queue : list point)
    (visited : grid bool) (parent : grid (option point)) :
  Maze.pathLoop fuel (Maze.set_path p m) queue visited parent
  = Maze.pathLoop fuel m queue visited parent.
Proof.
  revert queue visited parent.
  induction fuel as [|fuel IH]; intros queue visited parent; [done|].
  destruct queue as [|current queue]; [done|].
  cbn [Maze.pathLoop]. rewrite pathNeighbors_path.
  change (Maze.end_ (Maze.set_path p m)) with (Maze.end_ m).
  change (Maze.searchFuel (Maze.set_path p m)) with (Maze.searchFuel m).
  destruct (_ && _); [done|].
  destruct (Maze.pathNeighbors _ _ _ _ _ _); simpl; [apply IH|done].
Qed.

Lemma searchPath_path (p : list point) (m : Maze.t) :
  Maze.searchPath (Maze.set_path p m) = Maze.searchPath m.
Proof.
  unfold Maze.searchPath.
  change (Maze.height (Maze.set_path p m)) with (Maze.height m).
  change (Maze.width (Maze.set_path p m)) with (Maze.width m).
  change (Maze.start (Maze.set_path p m)) with (Maze.start m).
  change (Maze.searchFuel (Maze.set_path p m)) with (Maze.searchFuel m).
  destruct (filled2 _ _ false); cbn [cbind]; [|done].
  destruct (filled2 _ _ None); cbn [cbind]; [|done].
  destruct (write2 _ _ _ _); cbn [cbind]; [|done].
  apply pathLoop_path.
Qed.

(** *** The steps of [generate] *)

Lemma carveLoop_related (fuel : nat) (x y : Z) :
  related (mazes_agree 4) (mazes_agree 4) (Maze.carveLoop fuel x y).
Proof.
  revert x y. induction fuel as [|fuel IH]; intros x y; simpl.
  - apply related_throw.
  - eapply related_bind.
    { apply related_gets. intros m1 m2 (_ & _ & _ & _ & _ & H4 & _). apply H4. lia. }
    intros e. destruct (negb _ || negb _); [|apply related_ret].
    repeat case_match;
      (eapply related_bind;
       [first [apply write_vertical_related; lia|apply write_horizontal_related; lia]
       |intros _]);
      (eapply related_bind; [apply write_cell_related; lia|intros _]); apply IH.
Qed.

Lemma createPathToEnd_related :
  related (mazes_agree 4) (mazes_agree 4) Maze.createPathToEnd.
Proof.
  unfold Maze.createPathToEnd.
  eapply related_bind.
  { apply related_gets. intros m1 m2 (_ & _ & _ & _ & H3 & _). apply H3. lia. }
  intros s. eapply related_bind.
  { apply related_gets. intros m1 m2 (_ & _ & _ & _ & _ & H4 & _). apply H4. lia. }
  intros e. apply carveLoop_related.
Qed.

Lemma searchFuel_agree (n : nat) (m1 m2 : Maze.t) :
  mazes_agree n m1 m2 -> Maze.searchFuel m1 = Maze.searchFuel m2.
Proof. intros (Hw & Hh & _). unfold Maze.searchFuel. by rewrite Hw, Hh. Qed.

Lemma reachLoop_agree (m1 m2 : Maze.t) (fuel : nat) (queue : list point)
    (visited : grid bool) :
  mazes_agree 4 m1 m2 ->
  Maze.reachLoop fuel m1 queue visited = Maze.reachLoop fuel m2 queue visited.
Proof.
  intros Hag. rewrite (mazes_agree_path 4 m1 m2) by done. apply reachLoop_path.
Qed.

Lemma searchPath_agree (m1 m2 : Maze.t) :
  mazes_agree 4 m1 m2 -> Maze.searchPath m1 = Maze.searchPath m2.
Proof.
  intros Hag. rewrite (mazes_agree_path 4 m1 m2) by done. apply searchPath_path.
Qed.

Lemma getUnvisitedNeighbors_agree (m1 m2 : Maze.t) (x y : Z) :
  mazes_agree 4 m1 m2 ->
  Maze.getUnvisitedNeighbors m1 x y = Maze.getUnvisitedNeighbors m2 x y.
Proof.
  intros Hag. rewrite (mazes_agree_path 4 m1 m2) by done. apply unvisitedLoop_path.
Qed.

Lemma ensurePathExists_related :
  related (mazes_agree 4) (mazes_agree 4) Maze.ensurePathExists.
Proof.
  intros m1 m2 Hag. unfold Maze.ensurePathExists, get, bind, lift.
  rewrite (searchFuel_agree 4 m1 m2) by done.
  pose proof Hag as (Hw & Hh & H1 & H2 & H3 & H4 & H5).
  rewrite Hw, Hh, H3 by lia.
  destruct (filled2 _ _ _) as [visited|]; [|done].
  destruct (write2 _ _ _ _) as [visited'|]; [|done].
  rewrite (reachLoop_agree m1 m2) by done.
  destruct (Maze.reachLoop _ _ _ _) as [[|]|]; [done| |done].
  by apply createPathToEnd_related.
Qed.

Lemma calculatePath_related :
  related (mazes_agree 4) (mazes_agree 5) Maze.calculatePath.
Proof.
  intros m1 m2 Hag. unfold Maze.calculatePath, get, bind, lift, modify.
  rewrite (searchPath_agree m1 m2) by done.
  destruct (Maze.searchPath m2) as [p|]; [|done].
  split; [done|]. destruct Hag as (? & ? & H1 & H2 & H3 & H4 & _).
  unfold mazes_agree. simpl.
  split_and!; try done; intros _; [apply H1|apply H2|apply H3|apply H4]; lia.
Qed.

Section RelatedMachines.

Context {R : Type} (native_random : R -> float * R) (h1 h2 : R).

Lemma onThis_related {A} (n n' : nat) (c : M Maze.t A) :
  related (mazes_agree n) (mazes_agree n') c ->
  related (machines_agree n h1 h2) (machines_agree n' h1 h2) (Maze.onThis c).
Proof.
  intros Hc k1 k2 (Hag & Hrnd & Hh1 & Hh2). specialize (Hc _ _ Hag).
  unfold Maze.onThis.
  destruct (c (Maze.this k1)) as [[a1|e1] m1'], (c (Maze.this k2)) as [[a2|e2] m2'];
    simpl in *; try done.
  destruct Hc as [-> Hag']. by split_and!.
Qed.

Lemma random_related (n : nat) :
  related (machines_agree n h1 h2) (machines_agree n h1 h2) (Maze.random native_random).
Proof.
  intros k1 k2 (Hag & (seedValue & Hr1 & Hr2) & Hh1 & Hh2).
  unfold Maze.random. rewrite Hr1, Hr2. simpl. split; [done|].
  split_and!; simpl; eauto.
Qed.

Lemma randomBelow_related (n : nat) (bound : Z) :
  related (machines_agree n h1 h2) (machines_agree n h1 h2)
    (Maze.randomBelow native_random bound).
Proof.
  unfold Maze.randomBelow.
  eapply related_bind; [apply random_related|intros f].
  destruct (Math_floor _); [apply related_ret|apply related_throw].
Qed.

Lemma gets_this_width_related (n : nat) :
  related (machines_agree n h1 h2) (machines_agree n h1 h2)
    (gets (fun k : Maze.machine => Maze.width (Maze.this k))).
Proof. apply related_gets. by intros k1 k2 ((? & _) & _). Qed.

Lemma gets_this_height_related (n : nat) :
  related (machines_agree n h1 h2) (machines_agree n h1 h2)
    (gets (fun k : Maze.machine => Maze.height (Maze.this k))).
Proof. apply related_gets. by intros k1 k2 ((? & ? & _) & _). Qed.

Lemma drawEnd_related (n : nat) (fuel : nat) (startX startY : Z) :
  related (machines_agree n h1 h2) (machines_agree n h1 h2)
    (Maze.drawEnd native_random fuel startX startY).
Proof.
  induction fuel as [|fuel IH]; simpl; [apply related_throw|].
  eapply related_bind; [apply gets_this_width_related|intros w].
  eapply related_bind; [apply randomBelow_related|intros endX].
  eapply related_bind; [apply gets_this_height_related|intros h].
  eapply related_bind; [apply randomBelow_related|intros endY].
  destruct (_ && _); [apply IH|apply related_ret].
Qed.

Lemma carve_related (fuel : nat) (stack : list point) :
  related (machines_agree 4 h1 h2) (machines_agree 4 h1 h2)
    (Maze.carve native_random fuel stack).
Proof.
  revert stack. induction fuel as [|fuel IH]; intros stack; simpl; [apply related_throw|].
  destruct stack as [|current below]; [apply related_ret|].
  apply related_bind_gets. intros k1 k2 Hag.
  pose proof Hag as (Hmaze & _).
  rewrite (getUnvisitedNeighbors_agree _ _ _ _ Hmaze).
  refine (related_bind _ _ _ _ _ _ _ _ _ Hag); [apply related_lift|].
  intros neighbors. destruct (_ >? 0); [|apply IH].
  eapply related_bind; [apply randomBelow_related|intros randomIndex].
  destruct (if randomIndex <? 0 then None else _) as [nb|]; [|apply related_throw].
  eapply related_bind; [apply onThis_related, removeWall_related; lia|intros _].
  eapply related_bind; [apply onThis_related, write_cell_related; lia|intros _].
  apply IH.
Qed.

Lemma generate_related (fuel : nat) :
  related (machines_agree 0 h1 h2) (machines_agree 5 h1 h2)
    (Maze.generate native_random fuel).
Proof.
  unfold Maze.generate.
  eapply related_bind; [apply onThis_related, init_related|intros _].
  eapply related_bind; [apply gets_this_width_related|intros w].
  eapply related_bind; [apply randomBelow_related|intros startX].
  eapply related_bind; [apply gets_this_height_related|intros h].
  eapply related_bind; [apply randomBelow_related|intros startY].
  eapply (related_bind _ (machines_agree 3 h1 h2)).
  { apply onThis_related, related_modify.
    intros m1 m2 (? & ? & H1 & H2 & _). unfold mazes_agree. simpl.
    split_and!; try done; try lia; intros _; [apply H1|apply H2]; lia. }
  intros _.
  eapply related_bind; [apply drawEnd_related|intros e].
  eapply (related_bind _ (machines_agree 4 h1 h2)).
  { apply onThis_related, related_modify.
    intros m1 m2 (? & ? & H1 & H2 & H3 & _). unfold mazes_agree. simpl.
    split_and!; try done; try lia; intros _; [apply H1|apply H2|apply H3]; lia. }
  intros _.
  eapply related_bind; [apply onThis_related, write_cell_related; lia|intros _].
  eapply related_bind; [apply carve_related|intros _].
  eapply related_bind; [apply onThis_related, ensurePathExists_related|intros _].
  apply onThis_related, calculatePath_related.
Qed.

End RelatedMachines.

(** C8: two seeded generations for the same level (hence the same
    seed) on mazes of the same size complete alike, whatever the two mazes
    held before and whatever state the host's random generator is in: both
    return — with identical wall arrays, cells, start, end and solution
    path, and with [Math.random] put back — or both stop the same way. *)
Theorem generateFixedLevel_deterministic {R : Type} (native_random : R -> float * R)
    (fuel : nat) (level : Z) (k1 k2 : Maze.machine (R:=R)) :
  Maze.width (Maze.this k1) = Maze.width (Maze.this k2) ->
  Maze.height (Maze.this k1) = Maze.height (Maze.this k2) ->
  same_outcome (same_level k1 k2)
    (Maze.generateFixedLevel native_random fuel level k1)
    (Maze.generateFixedLevel native_random fuel level k2).
Proof.
  intros Hw Hh. unfold Maze.generateFixedLevel.
  rewrite !bind_gets, !bind_modify.
  pose proof (generate_related native_random (Maze.host (Maze.globals k1))
                (Maze.host (Maze.globals k2)) fuel
                (Maze.Machine (Maze.this k1)
                   (Maze.Env (Maze.SeededRandom (level * 12345)) (Maze.host (Maze.globals k1))))
                (Maze.Machine (Maze.this k2)
                   (Maze.Env (Maze.SeededRandom (level * 12345)) (Maze.host (Maze.globals k2)))))
    as Hgen.
  assert (Hstart : machines_agree 0 (Maze.host (Maze.globals k1))
                     (Maze.host (Maze.globals k2))
                     (Maze.Machine (Maze.this k1)
                        (Maze.Env (Maze.SeededRandom (level * 12345))
                           (Maze.host (Maze.globals k1))))
                     (Maze.Machine (Maze.this k2)
                        (Maze.Env (Maze.SeededRandom (level * 12345))
                           (Maze.host (Maze.globals k2))))).
  { unfold machines_agree, mazes_agree. simpl. split_and!; try done; try lia. eauto. }
  specialize (Hgen Hstart). unfold bind.
  destruct (Maze.generate _ _ _) as [[[]|e1] k1'], (Maze.generate _ _ _) as [[[]|e2] k2'];
    simpl in *; try done.
  destruct Hgen as (_ & (_ & _ & H1 & H2 & H3 & H4 & H5) & _ & Hk1 & Hk2).
  split; [done|]. unfold same_level. simpl. rewrite Hk1, Hk2.
  split_and!; [apply H2|apply H1|apply H3|apply H4|apply H5|..]; try lia.
  - clear. by destruct k1 as [? []].
  - clear. by destruct k2 as [? []].
Qed.

(** Level 1 on a fresh 3×3 maze with the host's generator in state 7,
    and on the maze of the 3×3 game, with [Math.random] already replaced
    by some closure and the host's generator in state 12. *)
Lemma generateFixedLevel_deterministic_witness :
  same_outcome
    (same_level (Maze.Machine (snd (Maze.new 3 3)) (Maze.Env Maze.NativeRandom 7))
       (Maze.Machine (Game.maze (Game.game demo)) (Maze.Env (Maze.SeededRandom 99) 12)))
    (Maze.generateFixedLevel hostRandom 100 1
       (Maze.Machine (snd (Maze.new 3 3)) (Maze.Env Maze.NativeRandom 7)))
    (Maze.generateFixedLevel hostRandom 100 1
       (Maze.Machine (Game.maze (Game.game demo)) (Maze.Env (Maze.SeededRandom 99) 12)))
  /\ fst (Maze.generateFixedLevel hostRandom 100 1
            (Maze.Machine (snd (Maze.new 3 3)) (Maze.Env Maze.NativeRandom 7)))
     = Normal tt
  /\ Maze.path (Maze.this (snd (Maze.generateFixedLevel hostRandom 100 1
            (Maze.Machine (snd (Maze.new 3 3)) (Maze.Env Maze.NativeRandom 7)))))
     = [Point 1 0; Point 0 0].
Proof.
  split_and!.
  - apply generateFixedLevel_deterministic; vm_compute; reflexivity.
  - vm_compute. reflexivity.
  - vm_compute. reflexivity.
Defined.

(** ** Arrays of arrays *)

Lemma read2_write2 {A} (g g' : grid A) (y x y' x' : Z) (v : A) :
  write2 g y x v = Normal g' ->
  read2 g' y' x' = if decide (y = y' /\ x = x') then Normal (Some v) else read2 g y' x'.
Proof.
  unfold write2, read2. destruct (g !! y) as [row|] eqn:Hrow; [|done].
  intros [= <-]. destruct (decide (y = y')) as [<-|Hy].
  - rewrite lookup_insert_eq, Hrow. destruct (decide (x = x')) as [<-|Hx].
    + by rewrite decide_True, lookup_insert_eq.
    + rewrite decide_False by tauto. by rewrite lookup_insert_ne.
  - rewrite decide_False by tauto. by rewrite lookup_insert_ne.
Qed.

Lemma write2_returns {A} (g : grid A) (y x : Z) (v : A) (o : option A) :
  read2 g y x = Normal o -> exists g', write2 g y x v = Normal g'.
Proof.
  unfold write2, read2. destruct (g !! y); [eauto|done].
Qed.

Lemma lookup_filled_list {A} (l : list Z) (v : A) (i : Z) :
  i ∈ l -> (list_to_map ((fun i => (i, v)) <$> l) : gmap Z A) !! i = Some v.
Proof.
  induction l as [|k l IH]; [by intros ?%elem_of_nil|].
  intros Hi. cbn [fmap list_fmap list_to_map foldr]. simpl.
  destruct (decide (k = i)) as [->|Hne].
  - by rewrite lookup_insert_eq.
  - rewrite lookup_insert_ne by done. apply IH.
    apply elem_of_cons in Hi as [->|?]; done.
Qed.

Lemma filled2_read {A} (h w : Z) (v : A) :
  0 <= h -> 0 <= w ->
  exists g, filled2 h w v = Normal g
    /\ forall y x, 0 <= y < h -> 0 <= x < w -> read2 g y x = Normal (Some v).
Proof.
  intros Hh Hw. unfold filled2, filled.
  replace (h <? 0) with false by lia. replace (w <? 0) with false by lia.
  destruct (h =? 0) eqn:Hz.
  - eexists. split; [done|]. intros y x Hy. lia.
  - simpl. eexists. split; [done|]. intros y x Hy Hx.
    unfold read2. rewrite lookup_filled_list by (apply elem_of_seqZ; lia).
    by rewrite lookup_filled_list by (apply elem_of_seqZ; lia).
Qed.

(** ** Walks *)

Lemma in_grid_bounds (m : Maze.t) (x y : Z) :
  Maze.in_grid m x y = true <-> 0 <= x < Maze.width m /\ 0 <= y < Maze.height m.
Proof. unfold Maze.in_grid. lia. Qed.

Lemma walk_snoc (m : Maze.t) (l : list point) (a b : point) :
  walk m (l ++ [a]) -> step m a b -> walk m ((l ++ [a]) ++ [b]).
Proof.
  induction l as [|c l IH]; simpl; [by auto|].
  destruct (l ++ [a]) as [|c' l'] eqn:Hl; [by destruct l|].
  simpl. intros [Hstep Hwalk] Hab. split; [done|]. by apply IH.
Qed.

Lemma walk_snoc_inv (m : Maze.t) (l : list point) (a b : point) :
  walk m ((l ++ [a]) ++ [b]) -> walk m (l ++ [a]) /\ step m a b.
Proof.
  induction l as [|c l IH]; simpl; [tauto|].
  destruct (l ++ [a]) as [|c' l'] eqn:Hl; [by destruct l|].
  simpl. intros [Hstep Hwalk]. apply IH in Hwalk. tauto.
Qed.

(** Points of the grid are few: distinct ones number at most
    [width * height]. *)
Lemma cells_bounded (m : Maze.t) (l : list point) :
  NoDup l -> (forall c, c ∈ l -> point_in_grid m c) ->
  (length l <= Z.to_nat (Maze.width m * Maze.height m))%nat.
Proof.
  intros Hnd Hin.
  set (idx := fun c : point => Z.to_nat (py c * Maze.width m + px c)).
  assert (Hinj : NoDup (idx <$> l)).
  { apply NoDup_fmap_2_strong; [|done].
    intros [x1 y1] [x2 y2] H1%Hin%in_grid_bounds H2%Hin%in_grid_bounds Heq.
    unfold idx in Heq. simpl in *.
    assert (y1 * Maze.width m + x1 = y2 * Maze.width m + x2) as Heq' by nia.
    assert (y1 = y2) by nia. subst. f_equal. lia. }
  rewrite <-(length_fmap idx).
  rewrite <-(length_seq (Z.to_nat (Maze.width m * Maze.height m)) 0).
  apply submseteq_length, NoDup_submseteq; [done|].
  intros i [c [-> Hc%Hin%in_grid_bounds]]%list_elem_of_fmap.
  apply elem_of_seq. unfold idx. nia.
Qed.

(** ** The search of [calculatePath] *)

Section Search.

Context (m : Maze.t) (Hrows : wall_rows m).

Lemma point_eq (a b : point) : px a = px b -> py a = py b -> a = b.
Proof. destruct a, b; simpl. by intros -> ->. Qed.

Lemma at_cell_write {A} (g g' : grid A) (n c : point) (v : A) :
  write2 g (py n) (px n) v = Normal g' ->
  at_cell g' c = if decide (n = c) then Normal (Some v) else at_cell g c.
Proof.
  intros Hw. unfold at_cell. rewrite (read2_write2 _ _ _ _ _ _ _ Hw).
  destruct (decide (n = c)) as [->|Hne].
  - by rewrite decide_True.
  - rewrite decide_False; [done|]. intros [? ?]. by apply Hne, point_eq.
Qed.

(** A neighbour that was not seen yet enters the queue. *)
Lemma search_inv_enqueue (d : point -> nat) (processed queue : list point)
    (visited visited' : grid bool) (parent parent' : grid (option point))
    (cur n : point) :
  search_inv m d processed [cur] queue visited parent ->
  step m cur n ->
  n ∉ processed ++ [cur] ++ queue ->
  write2 visited (py n) (px n) true = Normal visited' ->
  write2 parent (py n) (px n) (Some cur) = Normal parent' ->
  search_inv m (<[n := S (d cur)]> d) processed [cur] (queue ++ [n]) visited' parent'.
Proof.
  intros [Hnd Hgrid Hvis Hpar [Hstart Hd0] Hsort Hfront Hclosed Hend Hdepth]
    Hstep Hfresh Hwv Hwp.
  set (seen := processed ++ [cur] ++ queue) in *.
  set (d' := <[n := S (d cur)]> d).
  assert (Hseen' : processed ++ [cur] ++ queue ++ [n] = seen ++ [n]).
  { unfold seen. by rewrite !app_assoc. }
  assert (Hcur : cur ∈ seen).
  { unfold seen. rewrite !elem_of_app, list_elem_of_singleton. auto. }
  assert (Hold : forall c, c ∈ seen -> d' c = d c).
  { intros c Hc. unfold d'. apply fn_lookup_insert_ne. by intros ->. }
  assert (Hnew : d' n = S (d cur)) by apply fn_lookup_insert.
  assert (Hbound : forall c, c ∈ seen -> (d c <= S (d cur))%nat).
  { by apply Hfront. }
  split; rewrite ?Hseen'.
  - apply NoDup_app. split_and!; [done| |apply NoDup_singleton].
    intros c Hc ->%list_elem_of_singleton. done.
  - intros c [Hc| ->%list_elem_of_singleton]%elem_of_app; [by apply Hgrid|apply Hstep].
  - intros c Hc. rewrite (at_cell_write _ _ _ _ _ Hwv).
    destruct (decide (n = c)) as [<-|Hne].
    + exists true. split; [done|]. rewrite elem_of_app, list_elem_of_singleton. tauto.
    + destruct (Hvis c Hc) as (b & Hb & Hiff). exists b. split; [done|].
      rewrite Hiff, elem_of_app, list_elem_of_singleton. naive_solver.
  - intros c Hc. rewrite (at_cell_write _ _ _ _ _ Hwp).
    destruct (decide (n = c)) as [<-|Hne].
    + eexists. split; [done|]. intros _. split_and!; [|done|].
      * apply elem_of_app. by left.
      * by rewrite Hnew, Hold.
    + destruct (Hpar c Hc) as (v & Hv & Hin). exists v. split; [done|].
      intros [Hcs| ->%list_elem_of_singleton]%elem_of_app; [|done].
      specialize (Hin Hcs). destruct v as [p|]; [|done].
      destruct Hin as (Hp & Hpc & Hdc). split_and!; [|done|].
      * apply elem_of_app. by left.
      * by rewrite !Hold.
  - split; [apply elem_of_app; by left|]. by rewrite Hold.
  - intros i j a b Hij Ha Hb.
    change ([cur] ++ queue ++ [n]) with (([cur] ++ queue) ++ [n]) in Ha, Hb.
    apply lookup_app_Some in Hb as [Hb|[Hlen Hb]].
    + rewrite lookup_app_l in Ha by (apply lookup_lt_Some in Hb; lia).
      rewrite !Hold.
      * by eapply Hsort.
      * unfold seen. apply elem_of_app. right. by eapply list_elem_of_lookup_2.
      * unfold seen. apply elem_of_app. right. by eapply list_elem_of_lookup_2.
    + apply list_lookup_singleton_Some in Hb as [_ <-]. rewrite Hnew.
      apply lookup_app_Some in Ha as [Ha|[_ Ha]].
      * rewrite Hold.
        -- apply Hbound. unfold seen. apply elem_of_app. right.
           by eapply list_elem_of_lookup_2.
        -- unfold seen. apply elem_of_app. right. by eapply list_elem_of_lookup_2.
      * apply list_lookup_singleton_Some in Ha as [_ <-]. by rewrite Hnew.
  - intros f [= <-] c [Hc| ->%list_elem_of_singleton]%elem_of_app.
    + rewrite !Hold by done. by apply Hbound.
    + by rewrite Hnew, Hold.
  - intros c n0 Hc Hcn. destruct (Hclosed c n0 Hc Hcn) as [Hin Hle]. split.
    + apply elem_of_app. by left.
    + rewrite !Hold; [done| |done]. unfold seen. apply elem_of_app. by left.
  - done.
  - intros c. rewrite length_app. simpl.
    intros [Hc| ->%list_elem_of_singleton]%elem_of_app.
    + rewrite Hold by done. specialize (Hdepth c Hc). lia.
    + rewrite Hnew. specialize (Hdepth cur Hcur). lia.
Qed.

(** One direction of the inner loop. *)
Lemma visit_direction (d : point -> nat) (processed queue : list point)
    (visited : grid bool) (parent : grid (option point)) (cur : point)
    (done : list (Z * Z)) (dx dy : Z) :
  search_inv m d processed [cur] queue visited parent ->
  neighbours_seen m d (processed ++ [cur] ++ queue) cur done ->
  (dx, dy) ∈ Maze.directions ->
  exists d' queue' visited' parent',
    (forall dirs,
       Maze.pathNeighbors m cur ((dx, dy) :: dirs) queue visited parent
       = Maze.pathNeighbors m cur dirs queue' visited' parent')
    /\ search_inv m d' processed [cur] queue' visited' parent'
    /\ neighbours_seen m d' (processed ++ [cur] ++ queue') cur (done ++ [(dx, dy)]).
Proof.
  intros Hinv Hdone Hdir.
  set (n := Point (px cur + dx) (py cur + dy)).
  assert (Hcur : cur ∈ processed ++ [cur] ++ queue).
  { rewrite !elem_of_app, list_elem_of_singleton. auto. }
  assert (Hfront : forall c, c ∈ processed ++ [cur] ++ queue -> (d c <= S (d cur))%nat).
  { by apply (front_bound _ _ _ _ _ _ _ Hinv). }
  destruct (Maze.in_grid m (px cur + dx) (py cur + dy)) eqn:Hgrid.
  2:{ exists d, queue, visited, parent. split_and!; [|done|].
      - intros dirs. simpl. by rewrite Hgrid.
      - intros dx' dy' [Hin|[= -> ->]%list_elem_of_singleton]%elem_of_app Hg Hm;
          [by apply Hdone|congruence]. }
  destruct (canMove_returns m (px cur) (py cur) dx dy Hrows) as [ok Hok].
  { apply (seen_in_grid _ _ _ _ _ _ _ Hinv), in_grid_bounds in Hcur. lia. }
  destruct ok.
  2:{ exists d, queue, visited, parent. split_and!; [|done|].
      - intros dirs. simpl. by rewrite Hgrid, Hok.
      - intros dx' dy' [Hin|[= -> ->]%list_elem_of_singleton]%elem_of_app Hg Hm;
          [by apply Hdone|congruence]. }
  destruct (visited_seen _ _ _ _ _ _ _ Hinv n Hgrid) as (b & Hb & Hiff).
  unfold at_cell in Hb. simpl in Hb.
  destruct b.
  - exists d, queue, visited, parent. split_and!; [|done|].
    + intros dirs. simpl. by rewrite Hgrid, Hok, Hb.
    + intros dx' dy' [Hin|[= -> ->]%list_elem_of_singleton]%elem_of_app Hg Hm;
        [by apply Hdone|].
      fold n. split; [by apply Hiff|]. by apply Hfront, Hiff.
  - assert (Hfresh : n ∉ processed ++ [cur] ++ queue) by (intros Hin%Hiff; done).
    destruct (write2_returns visited (py n) (px n) true _ Hb) as [visited' Hwv].
    destruct (parent_seen _ _ _ _ _ _ _ Hinv n Hgrid) as (v & Hv & _).
    destruct (write2_returns parent (py n) (px n) (Some cur) _ Hv) as [parent' Hwp].
    assert (Hstep : step m cur n).
    { split; [done|]. by exists dx, dy. }
    exists (<[n := S (d cur)]> d), (queue ++ [n]), visited', parent'. split_and!.
    + intros dirs. simpl in *. by rewrite Hgrid, Hok, Hb, Hwv, Hwp.
    + by eapply search_inv_enqueue.
    + assert (Hold : forall c, c ∈ processed ++ [cur] ++ queue ->
                               <[n := S (d cur)]> d c = d c).
      { intros c Hc. apply fn_lookup_insert_ne. by intros ->. }
      intros dx' dy' [Hin|[= -> ->]%list_elem_of_singleton]%elem_of_app Hg Hm.
      * destruct (Hdone dx' dy' Hin Hg Hm) as [Hs Hle]. split.
        -- rewrite !elem_of_app in *. tauto.
        -- by rewrite !Hold.
      * fold n. split.
        -- rewrite !elem_of_app, !list_elem_of_singleton. auto.
        -- rewrite fn_lookup_insert, Hold by done. lia.
Qed.

(** The inner loop: every direction in turn. *)
Lemma visit_all (dirs : list (Z * Z)) :
  forall (d : point -> nat) (processed queue : list point) (visited : grid bool)
         (parent : grid (option point)) (cur : point) (done : list (Z * Z)),
    search_inv m d processed [cur] queue visited parent ->
    neighbours_seen m d (processed ++ [cur] ++ queue) cur done ->
    (forall dir, dir ∈ dirs -> dir ∈ Maze.directions) ->
    exists d' queue' visited' parent',
      Maze.pathNeighbors m cur dirs queue visited parent
      = Normal (queue', visited', parent')
      /\ search_inv m d' processed [cur] queue' visited' parent'
      /\ neighbours_seen m d' (processed ++ [cur] ++ queue') cur (done ++ dirs).
Proof.
  induction dirs as [|[dx dy] dirs IH];
    intros d processed queue visited parent cur done Hinv Hdone Hdirs.
  - exists d, queue, visited, parent. rewrite app_nil_r. by split_and!.
  - destruct (visit_direction d processed queue visited parent cur done dx dy Hinv Hdone)
      as (d1 & queue1 & visited1 & parent1 & Heq & Hinv1 & Hdone1).
    { apply Hdirs. by left. }
    destruct (IH d1 processed queue1 visited1 parent1 cur (done ++ [(dx, dy)]) Hinv1 Hdone1)
      as (d2 & queue2 & visited2 & parent2 & Heq2 & Hinv2 & Hdone2).
    { intros dir Hdir. apply Hdirs. by right. }
    exists d2, queue2, visited2, parent2. rewrite Heq, Heq2.
    split_and!; [done|done|]. by rewrite <-app_assoc in Hdone2.
Qed.

Lemma search_inv_dequeue (d : point -> nat) (processed queue : list point)
    (visited : grid bool) (parent : grid (option point)) (cur : point) :
  search_inv m d processed [] (cur :: queue) visited parent ->
  search_inv m d processed [cur] queue visited parent.
Proof. intros []. by split. Qed.

(** The cell whose neighbours have all been looked at is done with. *)
Lemma search_inv_done (d : point -> nat) (processed queue : list point)
    (visited : grid bool) (parent : grid (option point)) (cur : point) :
  search_inv m d processed [cur] queue visited parent ->
  neighbours_seen m d (processed ++ [cur] ++ queue) cur Maze.directions ->
  cur ≠ Maze.end_ m ->
  search_inv m d (processed ++ [cur]) [] queue visited parent.
Proof.
  intros [Hnd Hgrid Hvis Hpar Hstart Hsort Hfront Hclosed Hend Hdepth] Hdone Hne.
  assert (Hseen : (processed ++ [cur]) ++ [] ++ queue = processed ++ [cur] ++ queue).
  { by rewrite <-app_assoc. }
  split; rewrite ?Hseen; try done.
  - intros i j a b Hij Ha Hb. by apply (Hsort (S i) (S j) a b); [lia|..].
  - intros f Hf c Hc. specialize (Hfront cur eq_refl c Hc).
    assert (d cur <= d f)%nat; [|lia].
    destruct queue as [|f' queue]; simplify_eq/=.
    by apply (Hsort 0%nat 1%nat cur f); [lia|..].
  - intros c n [Hc| ->%list_elem_of_singleton]%elem_of_app Hstep; [by apply Hclosed|].
    destruct Hstep as (Hg & dx & dy & Hdir & -> & Hmove). by apply Hdone.
  - intros [?|Heq%list_elem_of_singleton]%elem_of_app; [done|congruence].
Qed.

(** Walking back along the parents gives a walk from the start, of
    [d c] steps. *)
Lemma buildPath_walk (d : point -> nat) (processed pending queue : list point)
    (visited : grid bool) (parent : grid (option point)) (fuel : nat) :
  search_inv m d processed pending queue visited parent ->
  forall c acc, c ∈ processed ++ pending ++ queue -> (d c < fuel)%nat ->
    exists l, Maze.buildPath fuel parent c acc = Normal (l ++ acc)
              /\ joins m (Maze.start m) c l /\ length l = S (d c).
Proof.
  intros Hinv. induction fuel as [|fuel IH]; intros c acc Hc Hfuel; [lia|].
  simpl.
  destruct (parent_seen _ _ _ _ _ _ _ Hinv c (seen_in_grid _ _ _ _ _ _ _ Hinv c Hc))
    as (v & Hv & Hin).
  unfold at_cell in Hv. rewrite Hv. simpl. specialize (Hin Hc).
  destruct v as [p|].
  - destruct Hin as (Hp & Hstep & Hd).
    destruct (IH p (c :: acc) Hp) as (l & Hl & (Hhead & Hlast & Hwalk) & Hlen); [lia|].
    exists (l ++ [c]). rewrite <-app_assoc. split; [done|].
    apply last_Some in Hlast as [l' ->]. split; [split_and!|].
    + destruct l'; done.
    + by rewrite last_snoc.
    + by apply walk_snoc.
    + rewrite !length_app in *. simpl in *. lia.
  - subst c. exists [Maze.start m]. split; [done|].
    destruct (start_seen _ _ _ _ _ _ _ Hinv) as [_ ->]. by split.
Qed.

(** Every walk from the start ends in a seen cell no deeper than the
    walk is long, or passes a cell that still waits in the queue. *)
Lemma walk_reaches (d : point -> nat) (processed pending queue : list point)
    (visited : grid bool) (parent : grid (option point)) :
  search_inv m d processed pending queue visited parent ->
  forall l u, joins m (Maze.start m) u l ->
    (u ∈ processed ++ pending ++ queue /\ (S (d u) <= length l)%nat)
    \/ (exists q, q ∈ pending ++ queue /\ (S (d q) <= length l)%nat).
Proof.
  intros Hinv. induction l as [|u' l IH] using rev_ind; intros u (Hhead & Hlast & Hwalk);
    [done|].
  rewrite last_snoc in Hlast. simplify_eq.
  destruct l as [|a l _] using rev_ind.
  - simpl in Hhead. simplify_eq. left.
    destruct (start_seen _ _ _ _ _ _ _ Hinv) as [? ->]. simpl. split; [done|lia].
  - apply walk_snoc_inv in Hwalk as [Hwalk Hstep].
    destruct (IH a) as [[Ha Hlen]|(q & Hq & Hlen)].
    { split_and!; [|by rewrite last_snoc|done]. by destruct l. }
    + apply elem_of_app in Ha as [Ha|Ha].
      * destruct (processed_closed _ _ _ _ _ _ _ Hinv a u Ha Hstep) as [Hu Hle].
        left. split; [done|]. rewrite !length_app in *. simpl in *. lia.
      * right. exists a. split; [done|]. rewrite !length_app in *. simpl in *. lia.
    + right. exists q. split; [done|]. rewrite !length_app in *. simpl in *. lia.
Qed.

(** The outer loop finds a shortest path when there is a path at all,
    and has fuel to spare. *)
Lemma pathLoop_shortest (fuel : nat) :
  forall (d : point -> nat) (processed queue : list point) (visited : grid bool)
         (parent : grid (option point)),
    search_inv m d processed [] queue visited parent ->
    (S (Z.to_nat (Maze.width m * Maze.height m)) <= fuel + length processed)%nat ->
    (exists l, joins m (Maze.start m) (Maze.end_ m) l) ->
    exists p, Maze.pathLoop fuel m queue visited parent = Normal p /\ shortest_path m p.
Proof.
  induction fuel as [|fuel IH]; intros d processed queue visited parent Hinv Hfuel Hreach.
  { pose proof (cells_bounded m _ (seen_nodup _ _ _ _ _ _ _ Hinv)
                  (seen_in_grid _ _ _ _ _ _ _ Hinv)) as Hlen.
    rewrite length_app in Hlen. lia. }
  destruct Hreach as [l Hl]. cbn [Maze.pathLoop].
  destruct queue as [|cur queue].
  { exfalso. destruct (walk_reaches d _ _ _ _ _ Hinv l _ Hl) as [[Hend _]|(q & Hq & _)].
    - rewrite app_nil_r in Hend. by apply (end_pending _ _ _ _ _ _ _ Hinv).
    - by apply elem_of_nil in Hq. }
  assert (Hcur : cur ∈ processed ++ [] ++ cur :: queue).
  { rewrite !elem_of_app, elem_of_cons. auto. }
  destruct ((px cur =? px (Maze.end_ m)) && (py cur =? py (Maze.end_ m))) eqn:Hat.
  - assert (cur = Maze.end_ m) as Hcur_end by (apply point_eq; lia).
    destruct (buildPath_walk d _ _ _ _ _ (Maze.searchFuel m) Hinv cur [] Hcur)
      as (p & Hp & Hjoin & Hlen).
    { pose proof (cells_bounded m _ (seen_nodup _ _ _ _ _ _ _ Hinv)
                    (seen_in_grid _ _ _ _ _ _ _ Hinv)).
      pose proof (depth_bound _ _ _ _ _ _ _ Hinv cur Hcur). unfold Maze.searchFuel. lia. }
    rewrite app_nil_r in Hp. exists p. split; [done|].
    unfold shortest_path. rewrite <-Hcur_end.
    split; [done|]. intros l' Hl'. rewrite Hlen.
    destruct (walk_reaches d _ _ _ _ _ Hinv l' _ Hl') as [[_ Hle]|(q & Hq & Hle)]; [done|].
    apply list_elem_of_lookup in Hq as [j Hj].
    pose proof (queue_sorted _ _ _ _ _ _ _ Hinv 0%nat j cur q ltac:(lia) eq_refl Hj).
    lia.
  - assert (cur ≠ Maze.end_ m) as Hne.
    { intros ->. rewrite !Z.eqb_refl in Hat. done. }
    destruct (visit_all Maze.directions d processed queue visited parent cur []
                (search_inv_dequeue _ _ _ _ _ _ Hinv))
      as (d' & queue' & visited' & parent' & Heq & Hinv' & Hdone); [by intros ? ? []%elem_of_nil|done|].
    rewrite Heq. cbn [cbind fst snd].
    apply (IH d' (processed ++ [cur])).
    + by apply search_inv_done.
    + rewrite length_app. simpl. lia.
    + eauto.
Qed.

(** The search starts from a state in which the start alone is seen. *)
Lemma search_inv_start (visited visited' : grid bool) (parent : grid (option point)) :
  point_in_grid m (Maze.start m) ->
  (forall c, point_in_grid m c -> at_cell visited c = Normal (Some false)) ->
  (forall c, point_in_grid m c -> at_cell parent c = Normal (Some None)) ->
  write2 visited (py (Maze.start m)) (px (Maze.start m)) true = Normal visited' ->
  search_inv m (fun _ => O) [] [] [Maze.start m] visited' parent.
Proof.
  intros Hstart Hvis Hpar Hw. split; simpl.
  - apply NoDup_singleton.
  - by intros c ->%list_elem_of_singleton.
  - intros c Hc. rewrite (at_cell_write _ _ _ _ _ Hw).
    destruct (decide (Maze.start m = c)) as [<-|Hne].
    + exists true. rewrite list_elem_of_singleton. tauto.
    + exists false. rewrite list_elem_of_singleton. split; [by apply Hvis|]. naive_solver.
  - intros c Hc. exists None. split; [by apply Hpar|]. by intros ->%list_elem_of_singleton.
  - split; [by apply list_elem_of_singleton|done].
  - intros. lia.
  - intros. lia.
  - by intros c n []%elem_of_nil.
  - by intros []%elem_of_nil.
  - intros c _. lia.
Qed.

(** [searchPath] on a maze whose end can be reached. *)
Lemma searchPath_shortest :
  point_in_grid m (Maze.start m) ->
  (exists l, joins m (Maze.start m) (Maze.end_ m) l) ->
  exists p, Maze.searchPath m = Normal p /\ shortest_path m p.
Proof.
  intros Hstart Hreach. unfold Maze.searchPath.
  apply in_grid_bounds in Hstart as Hb.
  destruct (filled2_read (Maze.height m) (Maze.width m) false) as (visited & -> & Hvis);
    [lia..|].
  destruct (filled2_read (Maze.height m) (Maze.width m) (None : option point))
    as (parent & -> & Hpar); [lia..|].
  cbn [cbind].
  destruct (write2_returns visited (py (Maze.start m)) (px (Maze.start m)) true
              (Some false)) as [visited' Hw]; [apply Hvis; lia|].
  rewrite Hw. cbn [cbind].
  eapply pathLoop_shortest; [|unfold Maze.searchFuel; simpl; lia|done].
  eapply search_inv_start; [done| | |done].
  - intros c Hc%in_grid_bounds. apply Hvis; lia.
  - intros c Hc%in_grid_bounds. apply Hpar; lia.
Qed.

End Search.

(** ** The solution path *)

(** C7: on a maze as [generate] leaves it — the rows of the wall arrays
    in place, the start inside the grid — in which the end can be reached
    from the start, [calculatePath] returns and sets [path] to a list that
    begins at the start, ends at the end, makes a valid [canMove] step
    between any two consecutive cells, and is no longer than any other
    such list. *)
Theorem calculatePath_shortest (m : Maze.t) :
  wall_rows m ->
  point_in_grid m (Maze.start m) ->
  (exists l, joins m (Maze.start m) (Maze.end_ m) l) ->
  exists p,
    Maze.calculatePath m = (Normal tt, Maze.set_path p m)
    /\ head p = Some (Maze.start m)
    /\ last p = Some (Maze.end_ m)
    /\ walk m p
    /\ forall l, joins m (Maze.start m) (Maze.end_ m) l -> (length p <= length l)%nat.
Proof.
  intros Hrows Hstart Hreach.
  destruct (searchPath_shortest m Hrows Hstart Hreach) as (p & Hp & (? & ? & ?) & Hmin).
  exists p. unfold Maze.calculatePath, get, bind, lift, modify. rewrite Hp.
  by split_and!.
Qed.

Lemma step_decide (m : Maze.t) (a b : point) : step_b m a b = true -> step m a b.
Proof.
  unfold step_b. intros [Hg Hex]%andb_true_iff. split; [done|].
  apply existsb_exists in Hex as ([dx dy] & Hdir & [Hb Hmove]%andb_true_iff).
  exists dx, dy. split_and!.
  - by apply list_elem_of_In.
  - by apply bool_decide_eq_true in Hb.
  - by apply bool_decide_eq_true in Hmove.
Qed.

Lemma walk_decide (m : Maze.t) (l : list point) : walk_b m l = true -> walk m l.
Proof.
  induction l as [|a [|b l] IH]; simpl; [done..|].
  intros [Hstep Hwalk]%andb_true_iff. split; [by apply step_decide|by apply IH].
Qed.

(** The maze of the 3×3 game: the way (1,0), (2,0), (2,1), (1,1), (1,2)
    shows the end reachable, and [calculatePath] finds it. *)
Lemma calculatePath_shortest_witness :
  exists p,
    Maze.calculatePath (Game.maze (Game.game demo))
    = (Normal tt, Maze.set_path p (Game.maze (Game.game demo)))
    /\ head p = Some (Maze.start (Game.maze (Game.game demo)))
    /\ last p = Some (Maze.end_ (Game.maze (Game.game demo)))
    /\ walk (Game.maze (Game.game demo)) p
    /\ forall l, joins (Game.maze (Game.game demo))
                   (Maze.start (Game.maze (Game.game demo)))
                   (Maze.end_ (Game.maze (Game.game demo))) l ->
                 (length p <= length l)%nat.
Proof.
  apply calculatePath_shortest.
  - apply wall_rows_decide. vm_compute. reflexivity.
  - vm_compute. reflexivity.
  - exists [Point 1 0; Point 2 0; Point 2 1; Point 1 1; Point 1 2]. split_and!.
    + vm_compute. reflexivity.
    + vm_compute. reflexivity.
    + apply walk_decide. vm_compute. reflexivity.
Defined.

(** ** Mazes as [generate] leaves them *)

Global Instance rows_kept_preorder : PreOrder rows_kept.
Proof.
  split.
  - by intros m.
  - intros m1 m2 m3 (Hw & Hh & Hv & Hh') (Hw2 & Hh2 & Hv2 & Hh2').
    split_and!; [congruence|congruence|auto|auto].
Qed.

Global Instance machine_rows_kept_preorder {R} : PreOrder (machine_rows_kept (R:=R)).
Proof.
  split.
  - intros k. unfold machine_rows_kept. reflexivity.
  - intros k1 k2 k3. unfold machine_rows_kept. apply transitivity.
Qed.

Lemma wall_rows_kept (m m' : Maze.t) : wall_rows m -> rows_kept m m' -> wall_rows m'.
Proof.
  intros [Hv Hh] (Hw & Hh' & Hkv & Hkh). split; intros y Hy.
  - apply Hkv, Hv. lia.
  - apply Hkh, Hh. lia.
Qed.

Lemma write2_rows {A} (g g' : grid A) (y x k : Z) (v : A) :
  write2 g y x v = Normal g' -> is_Some (g !! k) -> is_Some (g' !! k).
Proof.
  unfold write2. destruct (g !! y) eqn:Hrow; [|done]. intros [= <-] Hk.
  destruct (decide (y = k)) as [->|Hne].
  - rewrite lookup_insert_eq. eauto.
  - by rewrite lookup_insert_ne.
Qed.

Lemma write_horizontal_rows (y x : Z) (v : bool) :
  preserves rows_kept (Maze.write_horizontal y x v).
Proof.
  intros m r m'. unfold Maze.write_horizontal.
  destruct (write2 _ _ _ _) as [h'|] eqn:Hw; intros [= _ <-]; [|reflexivity].
  split_and!; simpl; try done. intros k. by apply (write2_rows _ _ _ _ _ _ Hw).
Qed.

Lemma write_vertical_rows (y x : Z) (v : bool) :
  preserves rows_kept (Maze.write_vertical y x v).
Proof.
  intros m r m'. unfold Maze.write_vertical.
  destruct (write2 _ _ _ _) as [h'|] eqn:Hw; intros [= _ <-]; [|reflexivity].
  split_and!; simpl; try done. intros k. by apply (write2_rows _ _ _ _ _ _ Hw).
Qed.

Lemma write_cell_rows (y x : Z) (v : bool) : preserves rows_kept (Maze.write_cell y x v).
Proof.
  intros m r m'. unfold Maze.write_cell.
  destruct (write2 _ _ _ _); intros [= _ <-]; by split_and!.
Qed.

Lemma removeWall_rows (x y : Z) (d : Maze.direction) :
  preserves rows_kept (Maze.removeWall x y d).
Proof. destruct d; simpl; auto using write_horizontal_rows, write_vertical_rows. Qed.

Ltac rows_step :=
  lazymatch goal with
  | |- preserves _ (bind _ _) => apply preserves_bind; [apply _| |intros ?]
  | |- preserves _ (if _ then _ else _) => apply preserves_if
  | |- preserves _ (ret _) => apply preserves_ret, _
  | |- preserves _ (throw _) => apply preserves_throw, _
  | |- preserves _ (lift _) => apply preserves_lift, _
  | |- preserves _ (gets _) => apply preserves_gets, _
  | |- preserves _ (forM _ _) => apply preserves_forM; [apply _|intros ?]
  | |- preserves _ (Maze.write_horizontal _ _ _) => apply write_horizontal_rows
  | |- preserves _ (Maze.write_vertical _ _ _) => apply write_vertical_rows
  | |- preserves _ (Maze.write_cell _ _ _) => apply write_cell_rows
  | |- preserves _ (Maze.removeWall _ _ _) => apply removeWall_rows
  end.

Lemma setBoundaryWalls_rows : preserves rows_kept Maze.setBoundaryWalls.
Proof. unfold Maze.setBoundaryWalls. repeat rows_step. Qed.

Lemma carveLoop_rows (fuel : nat) (x y : Z) : preserves rows_kept (Maze.carveLoop fuel x y).
Proof.
  revert x y. induction fuel as [|fuel IH]; intros x y; simpl; repeat rows_step; apply IH.
Qed.

Lemma createPathToEnd_rows : preserves rows_kept Maze.createPathToEnd.
Proof. unfold Maze.createPathToEnd. repeat rows_step. apply carveLoop_rows. Qed.

Lemma ensurePathExists_rows : preserves rows_kept Maze.ensurePathExists.
Proof.
  intros m r m'. unfold Maze.ensurePathExists, get, bind, lift.
  destruct (filled2 _ _ _); [|by intros [= _ <-]].
  destruct (write2 _ _ _ _); [|by intros [= _ <-]].
  destruct (Maze.reachLoop _ _ _ _) as [[|]|]; [by intros [= _ <-]| |by intros [= _ <-]].
  apply createPathToEnd_rows.
Qed.

Lemma calculatePath_rows : preserves rows_kept Maze.calculatePath.
Proof.
  intros m r m'. unfold Maze.calculatePath, get, bind, lift, modify.
  destruct (Maze.searchPath m); by intros [= _ <-].
Qed.

Lemma filled2_rows {A} (h w : Z) (v : A) (g : grid A) (y : Z) :
  filled2 h w v = Normal g -> 0 <= y < h -> is_Some (g !! y).
Proof.
  unfold filled2. destruct (h <? 0) eqn:Hneg; [done|].
  destruct (h =? 0) eqn:Hz; [lia|].
  destruct (filled w v) as [row|]; simpl; [|done].
  intros [= <-] Hy. rewrite lookup_filled_list by (apply elem_of_seqZ; lia). eauto.
Qed.

(** [init] puts the rows of the wall arrays in place. *)
Lemma init_wall_rows (m m' : Maze.t) :
  Maze.init m = (Normal tt, m') -> wall_rows m'.
Proof.
  unfold Maze.init. rewrite !bind_gets. unfold bind at 1, lift at 1.
  destruct (filled2 _ _ false) as [c|]; [|done].
  rewrite bind_modify. unfold bind at 1, lift at 1.
  destruct (filled2 (Maze.height m + 1) _ true) as [hor|] eqn:Hhor; [|done].
  unfold bind at 1, lift at 1.
  destruct (filled2 (Maze.height m) _ true) as [ver|] eqn:Hver; [|done].
  rewrite bind_modify. intros Hset.
  eapply wall_rows_kept; [|by eapply setBoundaryWalls_rows].
  split; simpl; intros y Hy.
  - by eapply filled2_rows; [exact Hver|].
  - eapply filled2_rows; [exact Hhor|]. lia.
Qed.

Section GeneratedRows.

Context {R : Type} (native_random : R -> float * R).

Lemma onThis_rows {A} (c : M Maze.t A) :
  preserves rows_kept c -> preserves machine_rows_kept (Maze.onThis (R:=R) c).
Proof.
  intros Hc k r k'. unfold Maze.onThis.
  destruct (c (Maze.this k)) as [r0 m'] eqn:Hcm. intros [= _ <-].
  unfold machine_rows_kept. simpl. by eapply Hc.
Qed.

Lemma randomBelow_rows (n : Z) :
  preserves machine_rows_kept (Maze.randomBelow native_random n).
Proof.
  unfold Maze.randomBelow. apply preserves_bind; [apply _| |intros f].
  - intros k r k'. unfold Maze.random.
    destruct (Maze.Math_random _); [destruct (native_random _)|];
      intros [= _ <-]; unfold machine_rows_kept; reflexivity.
  - destruct (Math_floor _); [apply preserves_ret, _|apply preserves_throw, _].
Qed.

Lemma drawEnd_rows (fuel : nat) (startX startY : Z) :
  preserves machine_rows_kept (Maze.drawEnd native_random fuel startX startY).
Proof.
  induction fuel as [|fuel IH]; simpl; [apply preserves_throw, _|].
  repeat rows_step; try apply randomBelow_rows. apply IH.
Qed.

Lemma carve_rows (fuel : nat) (stack : list point) :
  preserves machine_rows_kept (Maze.carve native_random fuel stack).
Proof.
  revert stack. induction fuel as [|fuel IH]; intros stack; simpl;
    [apply preserves_throw, _|].
  destruct stack as [|current below]; [apply preserves_ret, _|].
  repeat rows_step; try apply randomBelow_rows; try apply IH.
  destruct (if _ <? 0 then None else _) as [nb|]; [|apply preserves_throw, _].
  repeat rows_step; try apply IH; apply onThis_rows; repeat rows_step.
Qed.

(** A maze that [generate] returns has the rows of its wall arrays. *)
Lemma generate_wall_rows (fuel : nat) (k k' : Maze.machine (R:=R)) :
  Maze.generate native_random fuel k = (Normal tt, k') -> wall_rows (Maze.this k').
Proof.
  unfold Maze.generate. unfold bind at 1, Maze.onThis at 1.
  destruct (Maze.init (Maze.this k)) as [[[]|e] m1] eqn:Hinit; [|done].
  apply init_wall_rows in Hinit. intros Hrest.
  eapply wall_rows_kept; [exact Hinit|].
  match type of Hrest with
  | ?c _ = _ => assert (preserves machine_rows_kept c) as Hkeep
  end; [|exact (Hkeep _ _ _ Hrest)].
  repeat rows_step; try apply randomBelow_rows; try apply drawEnd_rows;
    try apply carve_rows; apply onThis_rows;
    first [apply ensurePathExists_rows|apply calculatePath_rows|repeat rows_step|idtac].
  - by intros m r m' [= _ <-].
  - by intros m r m' [= _ <-].
Qed.

End GeneratedRows.

Lemma bind_normal_inv {S A B} (c : M S A) (k : A -> M S B) (s s' : S) (b : B) :
  bind c k s = (Normal b, s') ->
  exists a s1, c s = (Normal a, s1) /\ k a s1 = (Normal b, s').
Proof.
  unfold bind. destruct (c s) as [[a|e] s1]; [|done]. eauto.
Qed.

(** The path of a maze that [generate] returns is what the search of
    [calculatePath] finds on that maze. *)
Lemma generate_path {R} (native_random : R -> float * R) (fuel : nat)
    (k k' : Maze.machine (R:=R)) :
  Maze.generate native_random fuel k = (Normal tt, k') ->
  Maze.searchPath (Maze.this k') = Normal (Maze.path (Maze.this k')).
Proof.
  unfold Maze.generate. intros Hgen.
  repeat (apply bind_normal_inv in Hgen as (? & ? & _ & Hgen); cbv beta in Hgen).
  unfold Maze.onThis, Maze.calculatePath, get, bind, lift, modify in Hgen.
  destruct (Maze.searchPath _) as [p|] eqn:Hp; [|done].
  injection Hgen as <-. simpl. by rewrite searchPath_path.
Qed.

(** C7 for the mazes that [generate] returns: with the start inside the
    grid and the end reachable, [path] is a shortest way from the start to
    the end. *)
Lemma generated_path_shortest {R} (native_random : R -> float * R) (fuel : nat)
    (k k' : Maze.machine (R:=R)) :
  Maze.generate native_random fuel k = (Normal tt, k') ->
  point_in_grid (Maze.this k') (Maze.start (Maze.this k')) ->
  (exists l, joins (Maze.this k') (Maze.start (Maze.this k')) (Maze.end_ (Maze.this k')) l) ->
  shortest_path (Maze.this k') (Maze.path (Maze.this k')).
Proof.
  intros Hgen Hstart Hreach.
  destruct (searchPath_shortest (Maze.this k') (generate_wall_rows _ _ _ _ Hgen)
              Hstart Hreach) as (p & Hp & Hshort).
  rewrite (generate_path _ _ _ _ Hgen) in Hp. by simplify_eq.
Qed.

(** * Further properties of the code *)

(** ** The constructor of the maze *)

Lemma write2_same {A} (g : grid A) (y x : Z) (v : A) :
  read2 g y x = Normal (Some v) -> write2 g y x v = Normal g.
Proof.
  unfold read2, write2. destruct (g !! y) as [row|] eqn:Hrow; [|done].
  intros [= Hx]. by rewrite (insert_id row), (insert_id g).
Qed.

Lemma write_horizontal_same (m : Maze.t) (y x : Z) (v : bool) :
  read2 (Maze.horizontal (Maze.walls m)) y x = Normal (Some v) ->
  Maze.write_horizontal y x v m = (Normal tt, m).
Proof.
  intros Hr. unfold Maze.write_horizontal. rewrite (write2_same _ _ _ _ Hr).
  by destruct m as [? ? ? [] ? ? ?].
Qed.

Lemma write_vertical_same (m : Maze.t) (y x : Z) (v : bool) :
  read2 (Maze.vertical (Maze.walls m)) y x = Normal (Some v) ->
  Maze.write_vertical y x v m = (Normal tt, m).
Proof.
  intros Hr. unfold Maze.write_vertical. rewrite (write2_same _ _ _ _ Hr).
  by destruct m as [? ? ? [] ? ? ?].
Qed.

Lemma forM_same {S A} (l : list A) (body : A -> M S unit) (s : S) :
  (forall a, a ∈ l -> body a s = (Normal tt, s)) -> forM l body s = (Normal tt, s).
Proof.
  induction l as [|a l IH]; intros Hbody; simpl; [done|].
  rewrite (bind_normal _ _ _ tt s) by (apply Hbody; left).
  apply IH. intros b Hb. apply Hbody. by right.
Qed.

(** On a grid whose walls all stand, [setBoundaryWalls] changes nothing. *)
Lemma setBoundaryWalls_same (m : Maze.t) :
  0 <= Maze.width m -> 0 <= Maze.height m -> all_walled m ->
  Maze.setBoundaryWalls m = (Normal tt, m).
Proof.
  intros Hw Hh [Hhor Hver]. unfold Maze.setBoundaryWalls. rewrite !bind_gets.
  rewrite (bind_normal _ _ _ tt m); [rewrite (bind_normal _ _ _ tt m);
    [rewrite (bind_normal _ _ _ tt m)|]|].
  all: apply forM_same; intros i Hi%elem_of_seqZ.
  all: first [apply write_horizontal_same, Hhor|apply write_vertical_same, Hver]; lia.
Qed.

(** With sizes from 0 up [init] returns, and leaves no cell visited and
    every wall standing. *)
Lemma init_returns (m : Maze.t) :
  0 <= Maze.width m -> 0 <= Maze.height m ->
  exists c hor ver,
    Maze.init m = (Normal tt, Maze.set_walls (Maze.Walls hor ver) (Maze.set_cells c m))
    /\ (forall y x, 0 <= y < Maze.height m -> 0 <= x < Maze.width m ->
          read2 c y x = Normal (Some false))
    /\ all_walled (Maze.set_walls (Maze.Walls hor ver) (Maze.set_cells c m)).
Proof.
  intros Hw Hh.
  destruct (filled2_read (Maze.height m) (Maze.width m) false Hh Hw) as (c & Hc & Hcells).
  destruct (filled2_read (Maze.height m + 1) (Maze.width m) true ltac:(lia) Hw)
    as (hor & Hhor & Hhors).
  destruct (filled2_read (Maze.height m) (Maze.width m + 1) true Hh ltac:(lia))
    as (ver & Hver & Hvers).
  assert (all_walled (Maze.set_walls (Maze.Walls hor ver) (Maze.set_cells c m))) as Hall.
  { split; simpl; intros y x Hy Hx; [apply Hhors|apply Hvers]; lia. }
  exists c, hor, ver. split_and!; [|done..].
  unfold Maze.init. rewrite !bind_gets.
  unfold bind at 1, lift at 1. rewrite Hc. rewrite bind_modify.
  unfold bind at 1, lift at 1. simpl. rewrite Hhor.
  unfold bind at 1, lift at 1. simpl. rewrite Hver. rewrite bind_modify.
  by apply setBoundaryWalls_same.
Qed.

(** With a negative size [init] throws the [RangeError] of [Array(n)]. *)
Lemma init_negative (m : Maze.t) :
  Maze.width m < 0 \/ Maze.height m < 0 -> fst (Maze.init m) = Abort RangeError.
Proof.
  intros Hneg. unfold Maze.init. rewrite !bind_gets.
  unfold bind at 1, lift at 1. unfold filled2 at 1.
  destruct (Maze.height m <? 0) eqn:Hh; [done|].
  destruct (Maze.height m =? 0) eqn:Hz.
  - rewrite bind_modify. unfold bind at 1, lift at 1. simpl. unfold filled2 at 1.
    replace (Maze.height m + 1 <? 0) with false by lia.
    replace (Maze.height m + 1 =? 0) with false by lia.
    unfold filled. replace (Maze.width m <? 0) with true by lia. done.
  - unfold filled. replace (Maze.width m <? 0) with true by lia. done.
Qed.

Lemma init_all_walled (m m' : Maze.t) :
  Maze.init m = (Normal tt, m') ->
  0 <= Maze.width m' /\ 0 <= Maze.height m' /\ all_walled m'.
Proof.
  intros Hinit.
  destruct (decide (Maze.width m < 0 \/ Maze.height m < 0)) as [Hneg|Hpos].
  { apply init_negative in Hneg. by rewrite Hinit in Hneg. }
  destruct (init_returns m) as (c & hor & ver & Hret & _ & Hall); [lia..|].
  rewrite Hret in Hinit. injection Hinit as <-. split_and!; [simpl; lia..|done].
Qed.

(** X1: [new Maze(width, height)] with sizes from 0 up returns a grid of
    that size in which no cell is visited and every wall stands, so that
    no move is possible from any cell, in any direction; the start is
    (0,0), the end the opposite corner and the path empty. *)
Theorem new_maze_walled (w h : Z) :
  0 <= w -> 0 <= h ->
  exists m,
    Maze.new w h = (Normal tt, m)
    /\ Maze.getSize m = (w, h)
    /\ Maze.getStart m = Point 0 0
    /\ Maze.getEnd m = Point (w - 1) (h - 1)
    /\ Maze.getPath m = []
    /\ (forall x y, Maze.in_grid m x y = true -> Maze.getCell m x y = Normal (Some false))
    /\ (forall x y dx dy, Maze.in_grid m x y = true ->
          Maze.canMove m x y dx dy = Normal false).
Proof.
  intros Hw Hh. unfold Maze.new.
  destruct (init_returns (Maze.Build w h ∅ (Maze.Walls ∅ ∅) (Point 0 0)
                            (Point (w - 1) (h - 1)) []))
    as (c & hor & ver & Hret & Hcells & [Hhors Hvers]); [done..|].
  eexists. split; [exact Hret|]. simpl in *.
  split_and!; try reflexivity.
  - intros x y Hin. unfold Maze.getCell. unfold Maze.in_grid in Hin. rewrite Hin.
    simpl in *. apply Hcells; lia.
  - intros x y dx dy Hin%in_grid_bounds. simpl in Hin. unfold Maze.canMove. simpl.
    repeat case_match; try done.
    all: first [rewrite Hvers by lia|rewrite Hhors by lia]; done.
Qed.

Lemma new_maze_walled_witness :
  exists m,
    Maze.new 2 2 = (Normal tt, m)
    /\ Maze.getSize m = (2, 2)
    /\ Maze.getStart m = Point 0 0
    /\ Maze.getEnd m = Point (2 - 1) (2 - 1)
    /\ Maze.getPath m = []
    /\ (forall x y, Maze.in_grid m x y = true -> Maze.getCell m x y = Normal (Some false))
    /\ (forall x y dx dy, Maze.in_grid m x y = true ->
          Maze.canMove m x y dx dy = Normal false).
Proof. apply (new_maze_walled 2 2); lia. Defined.

(** X2: a negative width or height makes the constructor throw a
    [RangeError], the one of [Array(n)]. *)
Theorem new_maze_negative_size (w h : Z) :
  w < 0 \/ h < 0 -> fst (Maze.new w h) = Abort RangeError.
Proof. intros Hneg. unfold Maze.new. by apply init_negative. Qed.

Lemma new_maze_negative_size_witness : fst (Maze.new (-1) 3) = Abort RangeError.
Proof. apply (new_maze_negative_size (-1) 3). lia. Defined.

(** ** Walls have two sides *)

(** A step can be taken back: both ways read the same wall. *)
Lemma step_back (m : Maze.t) (a b : point) :
  point_in_grid m a -> step m a b -> step m b a.
Proof.
  intros Ha (Hb & dx & dy & Hdir & -> & Hmove). split; [exact Ha|].
  exists (- dx), (- dy). simpl.
  unfold Maze.directions in *. rewrite !elem_of_cons, elem_of_nil in Hdir.
  destruct Hdir as [[= -> ->]|[[= -> ->]|[[= -> ->]|[[= -> ->]|[]]]]]; simpl.
  all: split_and!; [set_solver|destruct a; simpl; f_equal; lia|].
  all: unfold Maze.canMove in *; simpl in *; rewrite <-Hmove; repeat f_equal; lia.
Qed.

Lemma walk_reverse (m : Maze.t) (l : list point) :
  (forall a, head l = Some a -> point_in_grid m a) -> walk m l -> walk m (reverse l).
Proof.
  induction l as [|a l IH]; [done|].
  destruct l as [|b l]; [done|].
  intros Hhead [Hstep Hwalk].
  rewrite (reverse_cons (b :: l) a). rewrite (reverse_cons l b) in *.
  apply walk_snoc.
  - apply IH; [|done]. intros ? [= <-]. apply Hstep.
  - apply step_back; [|done]. by apply Hhead.
Qed.

(** X3: a way through the maze can be walked back.  A list of cells that
    leads from [a], a cell of the grid, to [b] by valid [canMove] steps
    leads, read backwards, from [b] to [a] by valid [canMove] steps. *)
Theorem walk_back (m : Maze.t) (a b : point) (l : list point) :
  point_in_grid m a -> joins m a b l -> joins m b a (reverse l).
Proof.
  intros Ha (Hhead & Hlast & Hwalk). split_and!.
  - by rewrite head_reverse.
  - by rewrite last_reverse.
  - apply walk_reverse; [|done]. intros c Hc. by simplify_eq.
Qed.

Lemma walk_back_witness :
  joins (Game.maze (Game.game demo)) (Point 1 2) (Point 1 0)
    (reverse [Point 1 0; Point 2 0; Point 2 1; Point 1 1; Point 1 2]).
Proof.
  apply walk_back.
  - vm_compute. reflexivity.
  - split_and!; [vm_compute; reflexivity..|]. apply walk_decide. vm_compute. reflexivity.
Defined.

(** ** What the generator keeps

    After [init], [generate] only ever opens walls and marks cells: a
    relation that these writes keep is kept by the carving loop, by
    [ensurePathExists] and by [calculatePath]. *)

Global Instance on_this_preorder {R} (Rel : Maze.t -> Maze.t -> Prop) `{!PreOrder Rel} :
  PreOrder (on_this (R:=R) Rel).
Proof.
  split.
  - intros k. unfold on_this. reflexivity.
  - intros k1 k2 k3. unfold on_this. apply transitivity.
Qed.

Section Writes.

Context (Rel : Maze.t -> Maze.t -> Prop) `{!PreOrder Rel}.
Context (Hhor : forall y x, preserves Rel (Maze.write_horizontal y x false)).
Context (Hver : forall y x, preserves Rel (Maze.write_vertical y x false)).
Context (Hcell : forall y x, preserves Rel (Maze.write_cell y x true)).
Context (Hpath : forall p m, Rel m (Maze.set_path p m)).

Ltac keeps_step :=
  lazymatch goal with
  | |- preserves _ (bind _ _) => apply preserves_bind; [apply _| |intros ?]
  | |- preserves _ (if _ then _ else _) => apply preserves_if
  | |- preserves _ (ret _) => apply preserves_ret, _
  | |- preserves _ (throw _) => apply preserves_throw, _
  | |- preserves _ (lift _) => apply preserves_lift, _
  | |- preserves _ (gets _) => apply preserves_gets, _
  | |- preserves _ (Maze.write_horizontal _ _ false) => apply Hhor
  | |- preserves _ (Maze.write_vertical _ _ false) => apply Hver
  | |- preserves _ (Maze.write_cell _ _ true) => apply Hcell
  end.

Lemma removeWall_keeps (x y : Z) (d : Maze.direction) :
  preserves Rel (Maze.removeWall x y d).
Proof. destruct d; simpl; auto. Qed.

Lemma carveLoop_keeps (fuel : nat) (x y : Z) : preserves Rel (Maze.carveLoop fuel x y).
Proof.
  revert x y. induction fuel as [|fuel IH]; intros x y; simpl; repeat keeps_step; apply IH.
Qed.

Lemma createPathToEnd_keeps : preserves Rel Maze.createPathToEnd.
Proof. unfold Maze.createPathToEnd. repeat keeps_step. apply carveLoop_keeps. Qed.

Lemma ensurePathExists_keeps : preserves Rel Maze.ensurePathExists.
Proof.
  intros m r m'. unfold Maze.ensurePathExists, get, bind, lift.
  destruct (filled2 _ _ _); [|by intros [= _ <-]].
  destruct (write2 _ _ _ _); [|by intros [= _ <-]].
  destruct (Maze.reachLoop _ _ _ _) as [[|]|]; [by intros [= _ <-]| |by intros [= _ <-]].
  apply createPathToEnd_keeps.
Qed.

Lemma calculatePath_keeps : preserves Rel Maze.calculatePath.
Proof.
  intros m r m'. unfold Maze.calculatePath, get, bind, lift, modify.
  destruct (Maze.searchPath m); intros [= _ <-]; [apply Hpath|reflexivity].
Qed.

Context {R : Type} (native_random : R -> float * R).

Lemma onThis_keeps {A} (c : M Maze.t A) :
  preserves Rel c -> preserves (on_this Rel) (Maze.onThis (R:=R) c).
Proof.
  intros Hc k r k'. unfold Maze.onThis.
  destruct (c (Maze.this k)) as [r0 m'] eqn:Hcm. intros [= _ <-].
  unfold on_this. simpl. by eapply Hc.
Qed.

Lemma randomBelow_keeps (n : Z) :
  preserves (on_this Rel) (Maze.randomBelow native_random n).
Proof.
  unfold Maze.randomBelow. apply preserves_bind; [apply _| |intros f].
  - intros k r k'. unfold Maze.random.
    destruct (Maze.Math_random _); [destruct (native_random _)|];
      intros [= _ <-]; unfold on_this; reflexivity.
  - destruct (Math_floor _); [apply preserves_ret, _|apply preserves_throw, _].
Qed.

Lemma carve_keeps (fuel : nat) (stack : list point) :
  preserves (on_this Rel) (Maze.carve native_random fuel stack).
Proof.
  revert stack. induction fuel as [|fuel IH]; intros stack; simpl;
    [apply preserves_throw, _|].
  destruct stack as [|current below]; [apply preserves_ret, _|].
  repeat keeps_step; try apply randomBelow_keeps; try apply IH.
  destruct (if _ <? 0 then None else _) as [nb|]; [|apply preserves_throw, _].
  repeat keeps_step; try apply IH; apply onThis_keeps;
    [apply removeWall_keeps|apply Hcell].
Qed.

End Writes.

(** ** The steps of [generate] *)

Section GenerateSteps.

Context {R : Type} (native_random : R -> float * R).

Lemma onThis_normal_inv {A} (c : M Maze.t A) (k k' : Maze.machine (R:=R)) (a : A) :
  Maze.onThis c k = (Normal a, k') ->
  c (Maze.this k) = (Normal a, Maze.this k') /\ Maze.globals k' = Maze.globals k.
Proof.
  unfold Maze.onThis. destruct (c (Maze.this k)) as [r m']. by intros [= -> <-].
Qed.

Lemma randomBelow_this (n : Z) (k k' : Maze.machine (R:=R)) (r : completion Z) :
  Maze.randomBelow native_random n k = (r, k') -> Maze.this k' = Maze.this k.
Proof.
  intros Hr. by apply (randomBelow_keeps eq native_random n) in Hr.
Qed.

(** The end that is drawn is not the start. *)
Lemma drawEnd_spec (fuel : nat) (startX startY : Z) (k k' : Maze.machine (R:=R)) (e : point) :
  Maze.drawEnd native_random fuel startX startY k = (Normal e, k') ->
  Maze.this k' = Maze.this k /\ e <> Point startX startY.
Proof.
  revert k. induction fuel as [|fuel IH]; intros k; simpl; [done|].
  rewrite bind_gets. intros H.
  apply bind_normal_inv in H as (endX & k1 & Hx%randomBelow_this & H).
  rewrite bind_gets in H.
  apply bind_normal_inv in H as (endY & k2 & Hy%randomBelow_this & H).
  destruct ((endX =? startX) && (endY =? startY)) eqn:Hsame.
  - apply IH in H as [-> Hne]. split; [congruence|done].
  - injection H as <- <-. split; [congruence|]. intros [= -> ->]. lia.
Qed.

Lemma generate_inv (fuel : nat) (k k' : Maze.machine (R:=R)) :
  Maze.generate native_random fuel k = (Normal tt, k') ->
  exists m1 startX startY e m3 ka kb mb,
    Maze.init (Maze.this k) = (Normal tt, m1)
    /\ e <> Point startX startY
    /\ Maze.write_cell startY startX true
         (Maze.set_end e (Maze.set_start (Point startX startY) m1)) = (Normal tt, m3)
    /\ Maze.this ka = m3
    /\ Maze.carve native_random fuel [Point startX startY] ka = (Normal tt, kb)
    /\ Maze.ensurePathExists (Maze.this kb) = (Normal tt, mb)
    /\ Maze.calculatePath mb = (Normal tt, Maze.this k').
Proof.
  unfold Maze.generate. intros H.
  apply bind_normal_inv in H as ([] & k1 & [Hinit _]%onThis_normal_inv & H).
  rewrite bind_gets in H.
  apply bind_normal_inv in H as (startX & k2 & Hx%randomBelow_this & H).
  rewrite bind_gets in H.
  apply bind_normal_inv in H as (startY & k3 & Hy%randomBelow_this & H).
  apply bind_normal_inv in H as ([] & k4 & [Hstart _]%onThis_normal_inv & H).
  apply bind_normal_inv in H as (e & k5 & [Hthis Hne]%drawEnd_spec & H).
  apply bind_normal_inv in H as ([] & k6 & [Hend _]%onThis_normal_inv & H).
  apply bind_normal_inv in H as ([] & k7 & [Hcell _]%onThis_normal_inv & H).
  apply bind_normal_inv in H as ([] & k8 & Hcarve & H).
  apply bind_normal_inv in H as ([] & k9 & [Hensure _]%onThis_normal_inv & H).
  apply onThis_normal_inv in H as [Hcalc _].
  injection Hstart as Hstart. injection Hend as Hend.
  exists (Maze.this k1), startX, startY, e, (Maze.this k7), k7, k8, (Maze.this k9).
  split_and!; try done.
  rewrite <-Hcell. f_equal. congruence.
Qed.

End GenerateSteps.

(** ** The frame of a generated maze *)

Global Instance frame_kept_preorder : PreOrder frame_kept.
Proof.
  split.
  - by intros m.
  - intros m1 m2 m3 (? & ? & ? & ?) (? & ? & ? & ?). split_and!; congruence.
Qed.

Lemma write_horizontal_frame (y x : Z) (v : bool) :
  preserves frame_kept (Maze.write_horizontal y x v).
Proof.
  intros m r m'. unfold Maze.write_horizontal.
  destruct (write2 _ _ _ _); intros [= _ <-]; by split_and!.
Qed.

Lemma write_vertical_frame (y x : Z) (v : bool) :
  preserves frame_kept (Maze.write_vertical y x v).
Proof.
  intros m r m'. unfold Maze.write_vertical.
  destruct (write2 _ _ _ _); intros [= _ <-]; by split_and!.
Qed.

Lemma write_cell_frame (y x : Z) (v : bool) : preserves frame_kept (Maze.write_cell y x v).
Proof.
  intros m r m'. unfold Maze.write_cell.
  destruct (write2 _ _ _ _); intros [= _ <-]; by split_and!.
Qed.

Lemma init_frame : preserves frame_kept Maze.init.
Proof.
  unfold Maze.init, Maze.setBoundaryWalls.
  repeat first
    [ apply preserves_bind; [apply _| |intros ?]
    | apply preserves_gets, _
    | apply preserves_lift, _
    | apply preserves_forM; [apply _|intros ?]
    | apply write_horizontal_frame
    | apply write_vertical_frame ].
  all: by intros m r m' [= _ <-].
Qed.

(** X4: [generate] keeps the size of the grid, and the start and the end
    of a maze that it returns are different cells. *)
Theorem generate_ends_differ {R : Type} (native_random : R -> float * R) (fuel : nat)
    (k k' : Maze.machine (R:=R)) :
  Maze.generate native_random fuel k = (Normal tt, k') ->
  Maze.getSize (Maze.this k') = Maze.getSize (Maze.this k)
  /\ Maze.getStart (Maze.this k') <> Maze.getEnd (Maze.this k').
Proof.
  intros (m1 & sx & sy & e & m3 & ka & kb & mb & Hinit & Hne & Hcell & Hka & Hcarve
          & Hensure & Hcalc)%generate_inv.
  apply init_frame in Hinit as (Hw1 & Hh1 & _ & _).
  apply write_cell_frame in Hcell as (Hw3 & Hh3 & Hs3 & He3).
  apply (carve_keeps frame_kept (fun y x => write_horizontal_frame y x false)
           (fun y x => write_vertical_frame y x false)
           (fun y x => write_cell_frame y x true)) in Hcarve as (Hwb & Hhb & Hsb & Heb).
  apply (ensurePathExists_keeps frame_kept (fun y x => write_horizontal_frame y x false)
           (fun y x => write_vertical_frame y x false)
           (fun y x => write_cell_frame y x true)) in Hensure as (Hwe & Hhe & Hse & Hee).
  apply (calculatePath_keeps frame_kept) in Hcalc as (Hwc & Hhc & Hsc & Hec);
    [|by intros p m].
  rewrite Hka in *. simpl in *.
  unfold Maze.getSize, Maze.getStart, Maze.getEnd. split.
  - f_equal; congruence.
  - rewrite Hsc, Hse, Hsb, Hs3, Hec, Hee, Heb, He3. congruence.
Qed.

Lemma generate_ends_differ_witness :
  Maze.getSize (Maze.this (snd (Maze.generate hostRandom 100 demoMachine)))
  = Maze.getSize (Maze.this demoMachine)
  /\ Maze.getStart (Maze.this (snd (Maze.generate hostRandom 100 demoMachine)))
     <> Maze.getEnd (Maze.this (snd (Maze.generate hostRandom 100 demoMachine))).
Proof.
  apply (generate_ends_differ hostRandom 100 demoMachine). vm_compute. reflexivity.
Defined.

(** ** The border of a generated maze *)

Lemma bind_inv {S A B} (c : M S A) (k : A -> M S B) (s s' : S) (r : completion B) :
  bind c k s = (r, s') ->
  (exists a s1, c s = (Normal a, s1) /\ k a s1 = (r, s'))
  \/ (exists e, c s = (Abort e, s') /\ r = Abort e).
Proof.
  unfold bind. destruct (c s) as [[a|e] s1]; [by eauto|].
  intros [= <- <-]. by eauto.
Qed.

Global Instance border_kept_preorder : PreOrder border_kept.
Proof.
  split.
  - by intros m.
  - intros m1 m2 m3 [Hf1 Hb1] [Hf2 Hb2]. split; [by etransitivity|auto].
Qed.

Lemma in_grid_frame (m m' : Maze.t) (x y : Z) :
  frame_kept m m' -> Maze.in_grid m' x y = Maze.in_grid m x y.
Proof. intros (Hw & Hh & _). unfold Maze.in_grid. by rewrite Hw, Hh. Qed.

Lemma read2_write2_ne {A} (g g' : grid A) (y x y' x' : Z) (v : A) :
  write2 g y x v = Normal g' -> y <> y' \/ x <> x' -> read2 g' y' x' = read2 g y' x'.
Proof.
  intros Hw Hne. rewrite (read2_write2 _ _ _ _ _ _ _ Hw).
  destruct (decide _) as [[-> ->]|]; [by destruct Hne|done].
Qed.

Lemma write_horizontal_border (m m' : Maze.t) (y x : Z) (v : bool) (r : completion unit) :
  Maze.write_horizontal y x v m = (r, m') ->
  y <> 0 /\ y <> Maze.height m -> border_kept m m'.
Proof.
  unfold Maze.write_horizontal.
  destruct (write2 _ _ _ _) as [h'|] eqn:Hw; intros [= _ <-] [Hy0 Hyh]; [|reflexivity].
  split; [by split_and!|]. intros [Hhor Hver]. split; simpl; [|done].
  intros x0 Hx0. rewrite !(read2_write2_ne _ _ _ _ _ _ _ Hw) by auto. by apply Hhor.
Qed.

Lemma write_vertical_border (m m' : Maze.t) (y x : Z) (v : bool) (r : completion unit) :
  Maze.write_vertical y x v m = (r, m') ->
  x <> 0 /\ x <> Maze.width m -> border_kept m m'.
Proof.
  unfold Maze.write_vertical.
  destruct (write2 _ _ _ _) as [v'|] eqn:Hw; intros [= _ <-] [Hx0 Hxw]; [|reflexivity].
  split; [by split_and!|]. intros [Hhor Hver]. split; simpl; [done|].
  intros y0 Hy0. rewrite !(read2_write2_ne _ _ _ _ _ _ _ Hw) by auto. by apply Hver.
Qed.

Lemma write_cell_border (y x : Z) (v : bool) : preserves border_kept (Maze.write_cell y x v).
Proof.
  intros m r m'. unfold Maze.write_cell.
  destruct (write2 _ _ _ _); intros [= _ <-]; [|reflexivity].
  split; [by split_and!|done].
Qed.

Lemma unvisitedLoop_spec (m : Maze.t) (x y : Z) (dirs : list (Z * Z * Maze.direction))
    (acc l : list Maze.neighbor) :
  (forall dx dy d, (dx, dy, d) ∈ dirs -> Maze.in_grid m (x + dx) (y + dy) = true ->
     neighbor_of m x y (Maze.Neighbor (x + dx) (y + dy) d)) ->
  Forall (neighbor_of m x y) acc ->
  Maze.unvisitedLoop m x y dirs acc = Normal l ->
  Forall (neighbor_of m x y) l.
Proof.
  revert acc. induction dirs as [|[[dx dy] d] dirs IH]; intros acc Hdirs Hacc; simpl.
  - by intros [= <-].
  - assert (forall dx dy d, (dx, dy, d) ∈ dirs ->
              Maze.in_grid m (x + dx) (y + dy) = true ->
              neighbor_of m x y (Maze.Neighbor (x + dx) (y + dy) d)) as Hdirs'.
    { intros ? ? ? Hin. apply Hdirs. by right. }
    destruct (Maze.in_grid m (x + dx) (y + dy)) eqn:Hin; [|by apply IH].
    destruct (read2 _ _ _) as [c|]; simpl; [|done].
    apply IH; [done|]. destruct (negb (truthy c)); [|done].
    apply Forall_app. split; [done|]. constructor; [|done].
    apply Hdirs; [left|done].
Qed.

Lemma getUnvisitedNeighbors_spec (m : Maze.t) (x y : Z) (l : list Maze.neighbor) :
  Maze.getUnvisitedNeighbors m x y = Normal l -> Forall (neighbor_of m x y) l.
Proof.
  apply unvisitedLoop_spec; [|done].
  intros dx dy d Hd Hin. split; [done|]. simpl.
  rewrite !elem_of_cons, elem_of_nil in Hd.
  destruct Hd as [[= -> -> ->]|[[= -> -> ->]|[[= -> -> ->]|[[= -> -> ->]|[]]]]]; simpl; lia.
Qed.

Lemma removeWall_border (m m' : Maze.t) (x y : Z) (nb : Maze.neighbor) (r : completion unit) :
  Maze.in_grid m x y = true -> neighbor_of m x y nb ->
  Maze.removeWall x y (Maze.nb_direction nb) m = (r, m') -> border_kept m m'.
Proof.
  intros Hxy%in_grid_bounds [Hnb%in_grid_bounds Hd].
  destruct (Maze.nb_direction nb); simpl; intros Hw.
  - eapply write_horizontal_border; [done|lia].
  - eapply write_vertical_border; [done|lia].
  - eapply write_horizontal_border; [done|lia].
  - eapply write_vertical_border; [done|lia].
Qed.

Lemma carve_border {R} (native_random : R -> float * R) (fuel : nat) (stack : list point)
    (k k' : Maze.machine (R:=R)) (r : completion unit) :
  Maze.carve native_random fuel stack k = (r, k') ->
  (forall c, c ∈ stack -> point_in_grid (Maze.this k) c) ->
  on_this border_kept k k'.
Proof.
  revert stack k. induction fuel as [|fuel IH]; intros stack k; simpl.
  { intros [= _ <-] _. reflexivity. }
  destruct stack as [|current below]; [intros [= _ <-] _; reflexivity|].
  rewrite bind_gets. unfold bind at 1, lift at 1.
  destruct (Maze.getUnvisitedNeighbors _ _ _) as [nbs|e] eqn:Hnbs;
    [|intros [= _ <-] _; reflexivity].
  apply getUnvisitedNeighbors_spec in Hnbs. intros Hcarve Hstack.
  destruct (Z.of_nat (length nbs) >? 0).
  - apply bind_inv in Hcarve as [(idx & k1 & Hidx & Hcarve)|(e & Hidx & _)].
    2: { apply (randomBelow_keeps border_kept) in Hidx. exact Hidx. }
    apply randomBelow_this in Hidx.
    destruct (if idx <? 0 then None else nbs !! Z.to_nat idx) as [nb|] eqn:Hnb.
    2: { injection Hcarve as _ <-. unfold on_this. by rewrite Hidx. }
    assert (neighbor_of (Maze.this k) (px current) (py current) nb) as Hgood.
    { destruct (idx <? 0); [done|].
      eapply Forall_forall; [exact Hnbs|]. by eapply list_elem_of_lookup_2. }
    assert (point_in_grid (Maze.this k) current) as Hcur by (apply Hstack; left).
    assert (forall r2 k2, Maze.onThis (Maze.removeWall (px current) (py current)
                                         (Maze.nb_direction nb)) k1 = (r2, k2) ->
                          on_this border_kept k k2) as Hremove.
    { intros r2 k2. unfold Maze.onThis.
      destruct (Maze.removeWall _ _ _ _) as [r0 m2] eqn:Hrm. intros [= _ <-].
      unfold on_this. simpl. rewrite Hidx in Hrm.
      by eapply removeWall_border. }
    apply bind_inv in Hcarve as [([] & k2 & Hrm & Hcarve)|(e & Hrm & _)]; [|by eapply Hremove].
    apply Hremove in Hrm.
    assert (forall r3 k3, Maze.onThis (Maze.write_cell (Maze.nb_y nb) (Maze.nb_x nb) true) k2
                          = (r3, k3) -> on_this border_kept k k3) as Hwrite.
    { intros r3 k3. unfold Maze.onThis.
      destruct (Maze.write_cell _ _ _ _) as [r0 m3] eqn:Hwc. intros [= _ <-].
      unfold on_this. simpl. etransitivity; [exact Hrm|]. by eapply write_cell_border. }
    apply bind_inv in Hcarve as [([] & k3 & Hwc & Hcarve)|(e & Hwc & _)]; [|by eapply Hwrite].
    apply Hwrite in Hwc.
    etransitivity; [exact Hwc|]. eapply IH; [exact Hcarve|].
    intros c Hc. unfold point_in_grid. rewrite (in_grid_frame _ _ _ _ (proj1 Hwc)).
    apply elem_of_cons in Hc as [->|Hc]; [apply Hgood|by apply Hstack].
  - eapply IH; [exact Hcarve|]. intros c Hc. apply Hstack. by right.
Qed.

Lemma carveLoop_border (fuel : nat) (x y : Z) (m m' : Maze.t) (r : completion unit) :
  Maze.carveLoop fuel x y m = (r, m') ->
  Maze.in_grid m x y = true -> point_in_grid m (Maze.end_ m) ->
  border_kept m m'.
Proof.
  revert x y m. induction fuel as [|fuel IH]; intros x y m; simpl.
  { intros [= _ <-] _ _. reflexivity. }
  rewrite bind_gets. intros Hloop Hxy Hend.
  pose proof Hxy as Hxy'%in_grid_bounds. pose proof Hend as Hend'%in_grid_bounds.
  destruct (negb (x =? px (Maze.end_ m)) || negb (y =? py (Maze.end_ m))) eqn:Hcond;
    [|injection Hloop as _ <-; reflexivity].
  assert (x <> px (Maze.end_ m) \/ y <> py (Maze.end_ m)) as Hnot_there by lia.
  assert (forall (wall : M Maze.t unit) cy cx x' y',
            (forall r1 m1, wall m = (r1, m1) -> border_kept m m1) ->
            Maze.in_grid m x' y' = true ->
            bind wall (fun _ => bind (Maze.write_cell cy cx true)
                                  (fun _ => Maze.carveLoop fuel x' y')) m = (r, m') ->
            border_kept m m') as Hstep.
  { intros wall cy cx x' y' Hwall Hin Hrun.
    apply bind_inv in Hrun as [([] & m1 & Hw & Hrun)|(e & Hw & _)]; [|by eapply Hwall].
    apply Hwall in Hw.
    apply bind_inv in Hrun as [([] & m2 & Hc & Hrun)|(e & Hc & _)].
    2: { etransitivity; [exact Hw|]. by eapply write_cell_border. }
    apply write_cell_border in Hc.
    assert (border_kept m m2) as H2 by (by etransitivity).
    etransitivity; [exact H2|]. eapply IH; [exact Hrun| |].
    - by rewrite (in_grid_frame _ _ _ _ (proj1 H2)).
    - unfold point_in_grid. destruct H2 as [(Hw2 & Hh2 & Hs2 & He2) _].
      rewrite He2. unfold Maze.in_grid. rewrite Hw2, Hh2. exact Hend. }
  repeat case_match.
  - eapply Hstep; [|apply in_grid_bounds|exact Hloop]; [|lia].
    intros r1 m1 Hw. eapply write_vertical_border; [done|lia].
  - eapply Hstep; [|apply in_grid_bounds|exact Hloop]; [|lia].
    intros r1 m1 Hw. eapply write_vertical_border; [done|lia].
  - eapply Hstep; [|apply in_grid_bounds|exact Hloop]; [|lia].
    intros r1 m1 Hw. eapply write_horizontal_border; [done|lia].
  - eapply Hstep; [|apply in_grid_bounds|exact Hloop]; [|].
    + intros r1 m1 Hw. eapply write_horizontal_border; [done|lia].
    + lia.
Qed.

Lemma ensurePathExists_border (m m' : Maze.t) (r : completion unit) :
  Maze.ensurePathExists m = (r, m') ->
  point_in_grid m (Maze.start m) -> point_in_grid m (Maze.end_ m) ->
  border_kept m m'.
Proof.
  unfold Maze.ensurePathExists, get, bind, lift. intros Hrun Hstart Hend.
  destruct (filled2 _ _ _); [|injection Hrun as _ <-; reflexivity].
  destruct (write2 _ _ _ _); [|injection Hrun as _ <-; reflexivity].
  destruct (Maze.reachLoop _ _ _ _) as [[|]|];
    [injection Hrun as _ <-; reflexivity| |injection Hrun as _ <-; reflexivity].
  unfold Maze.createPathToEnd in Hrun. rewrite !bind_gets in Hrun.
  by eapply carveLoop_border.
Qed.

(** The frames of the mazes that [generate] passes through. *)
Lemma generate_frames {R} (native_random : R -> float * R) (fuel : nat)
    (startX startY : Z) (e : point) (m1 m3 mb : Maze.t) (ka kb : Maze.machine (R:=R))
    (final : Maze.t) :
  Maze.write_cell startY startX true
    (Maze.set_end e (Maze.set_start (Point startX startY) m1)) = (Normal tt, m3) ->
  Maze.this ka = m3 ->
  Maze.carve native_random fuel [Point startX startY] ka = (Normal tt, kb) ->
  Maze.ensurePathExists (Maze.this kb) = (Normal tt, mb) ->
  Maze.calculatePath mb = (Normal tt, final) ->
  Maze.start m3 = Point startX startY /\ Maze.end_ m3 = e
  /\ frame_kept m3 (Maze.this kb) /\ frame_kept (Maze.this kb) mb /\ frame_kept mb final.
Proof.
  intros Hcell Hka Hcarve Hensure Hcalc.
  apply write_cell_frame in Hcell as (Hw3 & Hh3 & Hs3 & He3).
  apply (carve_keeps frame_kept (fun y x => write_horizontal_frame y x false)
           (fun y x => write_vertical_frame y x false)
           (fun y x => write_cell_frame y x true)) in Hcarve.
  apply (ensurePathExists_keeps frame_kept (fun y x => write_horizontal_frame y x false)
           (fun y x => write_vertical_frame y x false)
           (fun y x => write_cell_frame y x true)) in Hensure.
  apply (calculatePath_keeps frame_kept) in Hcalc; [|by intros p m].
  unfold on_this in Hcarve. rewrite Hka in Hcarve. by split_and!.
Qed.

Lemma border_walls_enclosed (m : Maze.t) : border_walls m -> enclosed m.
Proof.
  intros [Hhor Hver] x y dx dy Hin%in_grid_bounds Hd Hout.
  assert (~ (0 <= x + dx < Maze.width m /\ 0 <= y + dy < Maze.height m)) as Hout'.
  { intros Hin'%in_grid_bounds. congruence. }
  unfold Maze.canMove.
  destruct Hd as [[-> ->]|[[-> ->]|[[-> ->]|[-> ->]]]]; simpl.
  - replace y with 0 by lia. by rewrite (proj1 (Hhor x ltac:(lia))).
  - replace (x + 1) with (Maze.width m) by lia. by rewrite (proj2 (Hver y ltac:(lia))).
  - replace (y + 1) with (Maze.height m) by lia. by rewrite (proj2 (Hhor x ltac:(lia))).
  - replace x with 0 by lia. by rewrite (proj1 (Hver y ltac:(lia))).
Qed.

(** X5: a generated maze is closed all round.  When [generate] returns
    with the start and the end inside the grid, no [canMove] step leads
    from a cell of the grid to a place outside it: the walls on the border
    are never opened. *)
Theorem generated_maze_enclosed {R : Type} (native_random : R -> float * R) (fuel : nat)
    (k k' : Maze.machine (R:=R)) :
  Maze.generate native_random fuel k = (Normal tt, k') ->
  point_in_grid (Maze.this k') (Maze.getStart (Maze.this k')) ->
  point_in_grid (Maze.this k') (Maze.getEnd (Maze.this k')) ->
  enclosed (Maze.this k').
Proof.
  intros (m1 & sx & sy & e & m3 & ka & kb & mb & Hinit & Hne & Hcell & Hka & Hcarve
          & Hensure & Hcalc)%generate_inv Hstart Hend.
  destruct (generate_frames _ _ _ _ _ _ _ _ _ _ _ Hcell Hka Hcarve Hensure Hcalc)
    as (Hs3 & He3 & Hf3 & Hfb & Hfc).
  assert (frame_kept m3 (Maze.this k')) as Hf3' by (by do 2 (etransitivity; [eassumption|])).
  assert (frame_kept (Maze.this kb) (Maze.this k')) as Hfb' by (by etransitivity).
  unfold Maze.getStart, Maze.getEnd, point_in_grid in Hstart, Hend.
  apply border_walls_enclosed.
  apply init_all_walled in Hinit as (Hw & Hh & [Hhor Hver]).
  assert (border_walls m3) as Hb3.
  { eapply (write_cell_border _ _ _ _ _ _ Hcell).
    split; simpl; intros i Hi; split; first [apply Hhor|apply Hver]; lia. }
  assert (border_walls (Maze.this kb)) as Hbb.
  { eapply (carve_border _ _ _ _ _ _ Hcarve); [|by rewrite Hka].
    intros c ->%list_elem_of_singleton. unfold point_in_grid. rewrite Hka.
    rewrite <-(in_grid_frame _ _ _ _ Hf3'). destruct Hf3' as (_ & _ & Hs & _).
    rewrite <-Hs3, <-Hs. exact Hstart. }
  assert (border_walls mb) as Hbm.
  { eapply (ensurePathExists_border _ _ _ Hensure); [| |done].
    - unfold point_in_grid. rewrite <-(in_grid_frame _ _ _ _ Hfb').
      destruct Hfb' as (_ & _ & Hs & _). by rewrite <-Hs.
    - unfold point_in_grid. rewrite <-(in_grid_frame _ _ _ _ Hfb').
      destruct Hfb' as (_ & _ & _ & He). by rewrite <-He. }
  unfold Maze.calculatePath, get, bind, lift, modify in Hcalc.
  destruct (Maze.searchPath mb); [|done]. injection Hcalc as <-. exact Hbm.
Qed.

Lemma generated_maze_enclosed_witness :
  enclosed (Maze.this (snd (Maze.generate hostRandom 100 demoMachine))).
Proof.
  apply (generated_maze_enclosed hostRandom 100 demoMachine); vm_compute; reflexivity.
Defined.

(** ** A generated maze can be solved *)

Global Instance open_kept_preorder : PreOrder open_kept.
Proof.
  split.
  - by intros m.
  - intros m1 m2 m3 (Hf1 & Hh1 & Hv1) (Hf2 & Hh2 & Hv2).
    split_and!; [by etransitivity|auto..].
Qed.

Lemma open_at_write (g g' : grid bool) (y x y' x' : Z) :
  write2 g y x false = Normal g' -> open_at g y' x' -> open_at g' y' x'.
Proof.
  intros Hw (w & Hr & Hopen). unfold open_at.
  rewrite (read2_write2 _ _ _ _ _ _ _ Hw). destruct (decide _); eauto.
Qed.

Lemma write_horizontal_open (y x : Z) : preserves open_kept (Maze.write_horizontal y x false).
Proof.
  intros m r m'. unfold Maze.write_horizontal.
  destruct (write2 _ _ _ _) as [h'|] eqn:Hw; intros [= _ <-]; [|reflexivity].
  split_and!; simpl; [by split_and!| |done].
  intros y' x'. by apply (open_at_write _ _ _ _ _ _ Hw).
Qed.

Lemma write_vertical_open (y x : Z) : preserves open_kept (Maze.write_vertical y x false).
Proof.
  intros m r m'. unfold Maze.write_vertical.
  destruct (write2 _ _ _ _) as [v'|] eqn:Hw; intros [= _ <-]; [|reflexivity].
  split_and!; simpl; [by split_and!|done|].
  intros y' x'. by apply (open_at_write _ _ _ _ _ _ Hw).
Qed.

Lemma write_cell_open (y x : Z) : preserves open_kept (Maze.write_cell y x true).
Proof.
  intros m r m'. unfold Maze.write_cell.
  destruct (write2 _ _ _ _); intros [= _ <-]; [|reflexivity].
  by split_and!.
Qed.

(** [canMove] says yes exactly when the edge it reads is open. *)
Lemma canMove_open (m : Maze.t) (x y dx dy : Z) :
  (dx, dy) ∈ Maze.directions ->
  Maze.canMove m x y dx dy = Normal true <->
  match dx, dy with
  | 1, _ => open_at (Maze.vertical (Maze.walls m)) y (x + 1)
  | -1, _ => open_at (Maze.vertical (Maze.walls m)) y x
  | _, 1 => open_at (Maze.horizontal (Maze.walls m)) (y + 1) x
  | _, _ => open_at (Maze.horizontal (Maze.walls m)) y x
  end.
Proof.
  unfold Maze.directions. rewrite !elem_of_cons, elem_of_nil.
  intros [[= -> ->]|[[= -> ->]|[[= -> ->]|[[= -> ->]|[]]]]]; unfold Maze.canMove, open_at; simpl.
  all: destruct (read2 _ _ _) as [w|e]; simpl.
  all: split; [intros Hw; simplify_eq; eauto|intros (w' & Hr & Hw); congruence].
Qed.

Lemma step_open (m m' : Maze.t) (a b : point) : open_kept m m' -> step m a b -> step m' a b.
Proof.
  intros (Hf & Hhor & Hver) (Hb & dx & dy & Hd & -> & Hmove).
  split; [by rewrite (in_grid_frame _ _ _ _ Hf)|].
  exists dx, dy. split_and!; [done..|].
  apply canMove_open in Hmove; [|done]. apply canMove_open; [done|].
  repeat case_match; auto.
Qed.

Lemma walk_open (m m' : Maze.t) (l : list point) : open_kept m m' -> walk m l -> walk m' l.
Proof.
  intros Hk. induction l as [|a [|b l] IH]; simpl; [done..|].
  intros [Hs Hw]. split; [by eapply step_open|by apply IH].
Qed.

(** The loop of [createPathToEnd] leaves a way from where it starts to
    the end. *)
Lemma carveLoop_walk (fuel : nat) (x y : Z) (m m' : Maze.t) :
  Maze.carveLoop fuel x y m = (Normal tt, m') ->
  Maze.in_grid m x y = true -> point_in_grid m (Maze.end_ m) ->
  exists l, joins m' (Point x y) (Maze.end_ m') l.
Proof.
  revert x y m. induction fuel as [|fuel IH]; intros x y m; simpl; [done|].
  rewrite bind_gets. intros Hloop Hxy Hend.
  pose proof Hxy as Hxy'%in_grid_bounds. pose proof Hend as Hend'%in_grid_bounds.
  destruct (negb (x =? px (Maze.end_ m)) || negb (y =? py (Maze.end_ m))) eqn:Hcond.
  2: { injection Hloop as <-. exists [Point x y]. split_and!; [done| |done].
       simpl. f_equal. apply point_eq; simpl; lia. }
  assert (x <> px (Maze.end_ m) \/ y <> py (Maze.end_ m)) as Hnot_there by lia.
  assert (forall (wall : M Maze.t unit) cy cx dx dy x' y',
            preserves open_kept wall ->
            (forall m1, wall m = (Normal tt, m1) ->
                        Maze.canMove m1 x y dx dy = Normal true) ->
            (dx, dy) ∈ Maze.directions ->
            x' = x + dx -> y' = y + dy ->
            Maze.in_grid m x' y' = true ->
            bind wall (fun _ => bind (Maze.write_cell cy cx true)
                                  (fun _ => Maze.carveLoop fuel x' y')) m
            = (Normal tt, m') ->
            exists l, joins m' (Point x y) (Maze.end_ m') l) as Hstep.
  { intros wall cy cx dx dy x' y' Hwall Hopen Hd -> -> Hin Hrun.
    apply bind_normal_inv in Hrun as ([] & m1 & Hw & Hrun).
    apply bind_normal_inv in Hrun as ([] & m2 & Hc & Hrun).
    pose proof (Hopen _ Hw) as Hmove. apply Hwall in Hw. apply write_cell_open in Hc.
    pose proof (carveLoop_keeps open_kept write_horizontal_open write_vertical_open
                  write_cell_open fuel _ _ _ _ _ Hrun) as Hrest.
    assert (open_kept m m2) as H2 by (by etransitivity).
    assert (open_kept m m') as H' by (by etransitivity).
    destruct (IH _ _ _ Hrun) as (l & Hhead & Hlast & Hwalk).
    - by rewrite (in_grid_frame _ _ _ _ (proj1 H2)).
    - unfold point_in_grid. destruct H2 as [(Hw2 & Hh2 & Hs2 & He2) _].
      rewrite He2. unfold Maze.in_grid. rewrite Hw2, Hh2. exact Hend.
    - exists (Point x y :: l). destruct l as [|b l]; [done|]. injection Hhead as ->.
      split_and!; [done|done|]. split; [|done].
      split; [by rewrite (in_grid_frame _ _ _ _ (proj1 H'))|].
      exists dx, dy. split_and!; [done..|].
      eapply canMove_open; [done|].
      assert (open_kept m1 m') as (_ & Hhor & Hver) by (by etransitivity).
      apply canMove_open in Hmove; [|done]. repeat case_match; auto. }
  assert (forall (g g' : grid bool) cy cx, write2 g cy cx false = Normal g' ->
            open_at g' cy cx) as Hwritten.
  { intros g g' cy cx Hw. exists (Some false).
    rewrite (read2_write2 _ _ _ _ _ _ _ Hw). by rewrite decide_True. }
  repeat case_match.
  - eapply (Hstep _ _ _ 1 0 (x + 1) y); [apply write_vertical_open| |set_solver|lia|lia
                               |apply in_grid_bounds; lia|exact Hloop].
    intros m1. unfold Maze.write_vertical.
    destruct (write2 _ _ _ _) as [v'|] eqn:Hw; [|done]. intros [= <-].
    apply canMove_open; [set_solver|]. simpl. by eapply Hwritten.
  - eapply (Hstep _ _ _ (-1) 0 (x - 1) y); [apply write_vertical_open| |set_solver|lia|lia
                                  |apply in_grid_bounds; lia|exact Hloop].
    intros m1. unfold Maze.write_vertical.
    destruct (write2 _ _ _ _) as [v'|] eqn:Hw; [|done]. intros [= <-].
    apply canMove_open; [set_solver|]. simpl. by eapply Hwritten.
  - eapply (Hstep _ _ _ 0 1 x (y + 1)); [apply write_horizontal_open| |set_solver|lia|lia
                               |apply in_grid_bounds; lia|exact Hloop].
    intros m1. unfold Maze.write_horizontal.
    destruct (write2 _ _ _ _) as [h'|] eqn:Hw; [|done]. intros [= <-].
    apply canMove_open; [set_solver|]. simpl. by eapply Hwritten.
  - eapply (Hstep _ _ _ 0 (-1) x (y - 1)); [apply write_horizontal_open| |set_solver|lia|lia
                                  |apply in_grid_bounds; lia|exact Hloop].
    intros m1. unfold Maze.write_horizontal.
    destruct (write2 _ _ _ _) as [h'|] eqn:Hw; [|done]. intros [= <-].
    apply canMove_open; [set_solver|]. simpl. by eapply Hwritten.
Qed.

Lemma reachable_start (m : Maze.t) : reachable m (Maze.start m).
Proof. by exists [Maze.start m]. Qed.

Lemma reachable_step (m : Maze.t) (a b : point) :
  reachable m a -> step m a b -> reachable m b.
Proof.
  intros (l & Hhead & Hlast & Hwalk) Hstep.
  pose proof Hlast as [l0 ->]%last_Some.
  exists ((l0 ++ [a]) ++ [b]). split_and!.
  - rewrite <-Hhead. by destruct l0.
  - by rewrite last_snoc.
  - by apply walk_snoc.
Qed.

(** What the search of [ensurePathExists] puts in its queue can be
    reached from the start. *)
Lemma reachNeighbors_reachable (m : Maze.t) (current : point) (dirs : list (Z * Z))
    (queue queue' : list point) (visited visited' : grid bool) :
  dirs ⊆ Maze.directions -> reachable m current -> Forall (reachable m) queue ->
  Maze.reachNeighbors m current dirs queue visited = Normal (queue', visited') ->
  Forall (reachable m) queue'.
Proof.
  revert queue visited. induction dirs as [|[dx dy] dirs IH]; intros queue visited Hsub Hcur Hq;
    simpl.
  { by intros [= <- _]. }
  assert (dirs ⊆ Maze.directions) as Hsub' by set_solver.
  destruct (Maze.in_grid m _ _) eqn:Hin; [|by apply IH].
  destruct (Maze.canMove m _ _ _ _) as [[|]|] eqn:Hmove; simpl; [|by apply IH|done].
  destruct (read2 visited _ _) as [v|]; simpl; [|done].
  destruct (negb (truthy v)); [|by apply IH].
  destruct (write2 visited _ _ _) as [visited1|]; simpl; [|done].
  apply IH; [done..|]. apply Forall_app. split; [done|]. constructor; [|done].
  apply (reachable_step m current); [done|]. split; [done|].
  exists dx, dy. split_and!; [set_solver|done..].
Qed.

Lemma reachLoop_sound (fuel : nat) (m : Maze.t) (queue : list point) (visited : grid bool) :
  Forall (reachable m) queue ->
  Maze.reachLoop fuel m queue visited = Normal true -> reachable m (Maze.end_ m).
Proof.
  revert queue visited.
  induction fuel as [|fuel IH]; intros queue visited Hq; cbn [Maze.reachLoop]; [done|].
  destruct queue as [|current queue']; [done|].
  apply Forall_cons in Hq as [Hcur Hq].
  destruct ((px current =? px (Maze.end_ m)) && (py current =? py (Maze.end_ m))) eqn:Hend.
  - intros _. replace (Maze.end_ m) with current; [done|]. apply point_eq; lia.
  - destruct (Maze.reachNeighbors m current Maze.directions queue' visited)
      as [[q v]|] eqn:Hn; cbn [cbind fst snd]; [|done].
    apply IH. by eapply reachNeighbors_reachable.
Qed.

(** When [ensurePathExists] returns, the end can be reached from the
    start: the search found it, or [createPathToEnd] opened a way. *)
Lemma ensurePathExists_reaches (m m' : Maze.t) :
  Maze.ensurePathExists m = (Normal tt, m') ->
  point_in_grid m (Maze.start m) -> point_in_grid m (Maze.end_ m) ->
  reachable m' (Maze.end_ m').
Proof.
  unfold Maze.ensurePathExists, get, bind, lift. intros Hrun Hstart Hend.
  destruct (filled2 _ _ _); [|done].
  destruct (write2 _ _ _ _); [|done].
  destruct (Maze.reachLoop _ _ _ _) as [[|]|] eqn:Hloop; [| |done].
  - injection Hrun as <-. eapply reachLoop_sound; [|exact Hloop].
    constructor; [apply reachable_start|done].
  - unfold Maze.createPathToEnd in Hrun. rewrite !bind_gets in Hrun.
    pose proof (carveLoop_keeps frame_kept (fun y x => write_horizontal_frame y x false)
                  (fun y x => write_vertical_frame y x false)
                  (fun y x => write_cell_frame y x true) _ _ _ _ _ _ Hrun)
      as (_ & _ & Hs & _).
    apply carveLoop_walk in Hrun as (l & Hl); [|done..].
    exists l. rewrite Hs. by destruct (Maze.start m).
Qed.

Lemma walk_path (p : list point) (m : Maze.t) (l : list point) :
  walk m l -> walk (Maze.set_path p m) l.
Proof. apply walk_open. by split_and!. Qed.

(** X6: a generated maze can be solved, and its [path] is a solution.
    When [generate] returns with the start and the end inside the grid,
    [path] begins at the start, ends at the end, goes by valid [canMove]
    steps between cells of the grid, and no such way from the start to
    the end is shorter. *)
Theorem generated_maze_solved {R : Type} (native_random : R -> float * R) (fuel : nat)
    (k k' : Maze.machine (R:=R)) :
  Maze.generate native_random fuel k = (Normal tt, k') ->
  point_in_grid (Maze.this k') (Maze.getStart (Maze.this k')) ->
  point_in_grid (Maze.this k') (Maze.getEnd (Maze.this k')) ->
  shortest_path (Maze.this k') (Maze.getPath (Maze.this k')).
Proof.
  intros Hgen Hstart Hend. apply (generated_path_shortest native_random fuel k); [done..|].
  apply generate_inv in Hgen as (m1 & sx & sy & e & m3 & ka & kb & mb & Hinit & Hne & Hcell
          & Hka & Hcarve & Hensure & Hcalc).
  destruct (generate_frames _ _ _ _ _ _ _ _ _ _ _ Hcell Hka Hcarve Hensure Hcalc)
    as (Hs3 & He3 & Hf3 & Hfb & Hfc).
  assert (frame_kept (Maze.this kb) (Maze.this k')) as Hfb' by (by etransitivity).
  unfold Maze.getStart, Maze.getEnd, point_in_grid in Hstart, Hend.
  apply ensurePathExists_reaches in Hensure as (l & Hhead & Hlast & Hwalk).
  - unfold Maze.calculatePath, get, bind, lift, modify in Hcalc.
    destruct (Maze.searchPath mb); [|done]. injection Hcalc as <-.
    exists l. split_and!; [done..|]. by apply walk_path.
  - unfold point_in_grid. rewrite <-(in_grid_frame _ _ _ _ Hfb').
    destruct Hfb' as (_ & _ & Hs & _). by rewrite <-Hs.
  - unfold point_in_grid. rewrite <-(in_grid_frame _ _ _ _ Hfb').
    destruct Hfb' as (_ & _ & _ & He). by rewrite <-He.
Qed.

Lemma generated_maze_solved_witness :
  shortest_path (Maze.this (snd (Maze.generate hostRandom 100 demoMachine)))
    (Maze.getPath (Maze.this (snd (Maze.generate hostRandom 100 demoMachine)))).
Proof.
  apply (generated_maze_solved hostRandom 100 demoMachine); vm_compute; reflexivity.
Defined.

(** X7: [canMove] does not throw on a generated maze, whatever the
    column and the direction, as long as the row is one of the grid. *)
Theorem generated_canMove_returns {R : Type} (native_random : R -> float * R) (fuel : nat)
    (k k' : Maze.machine (R:=R)) (x y dx dy : Z) :
  Maze.generate native_random fuel k = (Normal tt, k') ->
  0 <= y < Maze.height (Maze.this k') ->
  exists b, Maze.canMove (Maze.this k') x y dx dy = Normal b.
Proof.
  intros Hgen Hy. apply canMove_returns; [|done]. by eapply generate_wall_rows.
Qed.

Lemma generated_canMove_returns_witness :
  exists b, Maze.canMove (Maze.this (snd (Maze.generate hostRandom 100 demoMachine)))
              7 2 1 0 = Normal b.
Proof.
  apply (generated_canMove_returns hostRandom 100 demoMachine); vm_compute; [reflexivity|].
  split; [discriminate|reflexivity].
Defined.

(** ** Steps of the generator on the machine *)

Section MachineSteps.

Context {R : Type} (native_random : R -> float * R).
Context (Rel : Maze.machine (R:=R) -> Maze.machine (R:=R) -> Prop) `{!PreOrder Rel}.
Context (Hthis : forall A (c : M Maze.t A), preserves Rel (Maze.onThis c)).
Context (Hrandom : forall n, preserves Rel (Maze.randomBelow native_random n)).

Ltac machine_step :=
  lazymatch goal with
  | |- preserves _ (bind _ _) => apply preserves_bind; [apply _| |intros ?]
  | |- preserves _ (if _ then _ else _) => apply preserves_if
  | |- preserves _ (ret _) => apply preserves_ret, _
  | |- preserves _ (throw _) => apply preserves_throw, _
  | |- preserves _ (lift _) => apply preserves_lift, _
  | |- preserves _ (gets _) => apply preserves_gets, _
  | |- preserves _ (Maze.onThis _) => apply Hthis
  | |- preserves _ (Maze.randomBelow _ _) => apply Hrandom
  end.

Lemma drawEnd_steps (fuel : nat) (startX startY : Z) :
  preserves Rel (Maze.drawEnd native_random fuel startX startY).
Proof.
  induction fuel as [|fuel IH]; simpl; repeat machine_step. apply IH.
Qed.

Lemma carve_steps (fuel : nat) (stack : list point) :
  preserves Rel (Maze.carve native_random fuel stack).
Proof.
  revert stack. induction fuel as [|fuel IH]; intros stack; simpl; [machine_step|].
  destruct stack as [|current below]; repeat machine_step; try apply IH.
  destruct (if _ <? 0 then None else _) as [nb|]; repeat machine_step. apply IH.
Qed.

Lemma generate_steps (fuel : nat) : preserves Rel (Maze.generate native_random fuel).
Proof.
  unfold Maze.generate. repeat machine_step; [apply drawEnd_steps|apply carve_steps].
Qed.

End MachineSteps.

Global Instance seeded_kept_preorder {R} : PreOrder (seeded_kept (R:=R)).
Proof.
  split.
  - by intros k Hk.
  - intros k1 k2 k3 H12 H23 Hk. destruct (H12 Hk) as [Hk2 Hh2].
    destruct (H23 Hk2) as [Hk3 Hh3]. split; [done|congruence].
Qed.

Lemma generate_seeded_kept {R} (native_random : R -> float * R) (fuel : nat) :
  preserves seeded_kept (Maze.generate native_random fuel).
Proof.
  apply generate_steps; [apply _| |].
  - intros A c k r k'. unfold Maze.onThis. destruct (c _). by intros [= _ <-] Hk.
  - intros n. unfold Maze.randomBelow. apply preserves_bind; [apply _| |intros f].
    + intros k r k' Hr [sv Hsv]. unfold Maze.random in Hr. rewrite Hsv in Hr.
      injection Hr as _ <-. simpl. eauto.
    + destruct (Math_floor _); [apply preserves_ret, _|apply preserves_throw, _].
Qed.

(** X8: the seeded generation never draws from the host's generator,
    and it puts [Math.random] back only when it returns: if [generate]
    throws inside [generateFixedLevel], [Math.random] stays replaced by the
    seeded closure. *)
Theorem generateFixedLevel_restores_on_return {R : Type} (native_random : R -> float * R)
    (fuel : nat) (level : Z) (k k' : Maze.machine (R:=R)) (r : completion unit) :
  Maze.generateFixedLevel native_random fuel level k = (r, k') ->
  Maze.host (Maze.globals k') = Maze.host (Maze.globals k)
  /\ match r with
     | Normal _ => Maze.Math_random (Maze.globals k') = Maze.Math_random (Maze.globals k)
     | Abort _ =>
         exists seedValue, Maze.Math_random (Maze.globals k') = Maze.SeededRandom seedValue
     end.
Proof.
  unfold Maze.generateFixedLevel. rewrite bind_gets, bind_modify. intros Hrun.
  apply bind_inv in Hrun as [([] & k1 & Hgen & Hrun)|(e & Hgen & ->)].
  - destruct (generate_seeded_kept _ _ _ _ _ Hgen) as [_ Hhost]; [simpl; by eauto|].
    injection Hrun as <- <-. by simpl in *.
  - destruct (generate_seeded_kept _ _ _ _ _ Hgen) as [Hseeded Hhost]; [simpl; by eauto|].
    by simpl in *.
Qed.

Lemma generateFixedLevel_restores_on_return_witness :
  Maze.host (Maze.globals (snd (Maze.generateFixedLevel hostRandom 100 (-1) demoMachine)))
  = Maze.host (Maze.globals demoMachine)
  /\ exists seedValue,
       Maze.Math_random
         (Maze.globals (snd (Maze.generateFixedLevel hostRandom 100 (-1) demoMachine)))
       = Maze.SeededRandom seedValue.
Proof.
  apply (generateFixedLevel_restores_on_return hostRandom 100 (-1) demoMachine _
           (Abort TypeError)).
  vm_compute. reflexivity.
Defined.

Lemma generate_size {R} (native_random : R -> float * R) (fuel : nat)
    (k k' : Maze.machine (R:=R)) :
  Maze.generate native_random fuel k = (Normal tt, k') ->
  Maze.width (Maze.this k') = Maze.width (Maze.this k)
  /\ Maze.height (Maze.this k') = Maze.height (Maze.this k)
  /\ 0 <= Maze.width (Maze.this k) /\ 0 <= Maze.height (Maze.this k).
Proof.
  intros (m1 & sx & sy & e & m3 & ka & kb & mb & Hinit & Hne & Hcell & Hka & Hcarve
          & Hensure & Hcalc)%generate_inv.
  destruct (generate_frames _ _ _ _ _ _ _ _ _ _ _ Hcell Hka Hcarve Hensure Hcalc)
    as (_ & _ & (Hw3 & Hh3 & _) & (Hwb & Hhb & _) & (Hwc & Hhc & _)).
  apply write_cell_frame in Hcell as (Hw2 & Hh2 & _). simpl in *.
  pose proof (init_all_walled _ _ Hinit) as (Hw & Hh & _).
  apply init_frame in Hinit as (Hw1 & Hh1 & _).
  split_and!; congruence.
Qed.

(** X9: [generateWithSize(size)] returns only for a size from 0 up, and
    the maze it returns is [size] by [size], with the rows of its wall
    arrays in place. *)
Theorem generateWithSize_square {R : Type} (native_random : R -> float * R) (fuel : nat)
    (size : Z) (k k' : Maze.machine (R:=R)) :
  Maze.generateWithSize native_random fuel size k = (Normal tt, k') ->
  0 <= size
  /\ Maze.getSize (Maze.this k') = (size, size)
  /\ wall_rows (Maze.this k').
Proof.
  unfold Maze.generateWithSize. intros Hrun.
  apply bind_normal_inv in Hrun as ([] & k1 & [Hset _]%onThis_normal_inv & Hgen).
  injection Hset as Hset.
  pose proof (generate_size _ _ _ _ Hgen) as (Hw & Hh & Hw0 & Hh0).
  rewrite <-Hset in *. simpl in *. split_and!.
  - done.
  - unfold Maze.getSize. by rewrite Hw, Hh.
  - by eapply generate_wall_rows.
Qed.

Lemma generateWithSize_square_witness :
  0 <= 3
  /\ Maze.getSize (Maze.this (snd (Maze.generateWithSize hostRandom 100 3 demoMachine)))
     = (3, 3)
  /\ wall_rows (Maze.this (snd (Maze.generateWithSize hostRandom 100 3 demoMachine))).
Proof.
  apply (generateWithSize_square hostRandom 100 3 demoMachine). vm_compute. reflexivity.
Defined.

(** ** Sight between neighbours *)

(** X10: towards a neighbouring cell, diagonal ones included, line of
    sight is what [canMove] answers for that step, error included; for a
    diagonal step that is the wall at the viewer's side alone. *)
Theorem sight_of_neighbour (m : Maze.t) (x y dx dy : Z) :
  -1 <= dx <= 1 -> -1 <= dy <= 1 -> dx <> 0 \/ dy <> 0 ->
  ViewSystem.hasLineOfSight x y (x + dx) (y + dy) m = Maze.canMove m x y dx dy
  /\ (dx <> 0 -> Maze.canMove m x y dx dy = Maze.canMove m x y dx 0).
Proof.
  intros Hdx Hdy Hne.
  assert (dx = -1 \/ dx = 0 \/ dx = 1) as Hx by lia.
  assert (dy = -1 \/ dy = 0 \/ dy = 1) as Hy by lia.
  destruct Hx as [-> | [-> | ->]], Hy as [-> | [-> | ->]]; try lia.
  all: split; [|done].
  all: unfold ViewSystem.hasLineOfSight.
  all: repeat match goal with
         | |- context [Z.abs (?a + ?d - ?a)] =>
             replace (Z.abs (a + d - a)) with (Z.abs d) by lia
         | |- context [?a <? ?a + ?d] =>
             replace (a <? a + d) with (0 <? d) by lia
         end.
  all: simpl.
  all: repeat match goal with
         | |- context [?a =? ?a + ?d] =>
             replace (a =? a + d) with (0 =? d) by lia
         | |- context [?a + ?d - ?a] =>
             replace (a + d - a) with d by lia
         | |- context [?a - ?a] =>
             replace (a - a) with 0 by lia
         end.
  all: simpl.
  all: destruct (Maze.canMove m x y _ _) as [[|]|]; simpl; try done.
  all: by rewrite ?Z.eqb_refl.
Qed.

Lemma sight_of_neighbour_witness :
  ViewSystem.hasLineOfSight 1 0 (1 + 1) (0 + 1) (Game.maze (Game.game demo))
  = Maze.canMove (Game.maze (Game.game demo)) 1 0 1 1
  /\ (1 <> 0 -> Maze.canMove (Game.maze (Game.game demo)) 1 0 1 1
                = Maze.canMove (Game.maze (Game.game demo)) 1 0 1 0).
Proof. apply sight_of_neighbour; lia. Defined.

(** ** Sight along a row and along a column *)

Lemma sightLoop_row_open (fuel : nat) (m : Maze.t) (dx sx sy x2 y a err cx : Z) :
  0 <= a <= dx -> err = dx -> sx = 1 \/ sx = -1 -> cx = x2 - sx * a ->
  (Z.to_nat a < fuel)%nat -> open_row m y cx x2 ->
  ViewSystem.sightLoop fuel m dx 0 sx sy x2 y err cx y = Normal true.
Proof.
  revert a err cx. induction fuel as [|fuel IH]; intros a err cx Ha -> Hsx -> Hfuel Hopen;
    [lia|].
  simpl. rewrite Z.eqb_refl, andb_true_r.
  destruct (x2 - sx * a =? x2) eqn:Hat; [done|].
  apply Z.eqb_neq in Hat.
  replace (2 * dx >? - 0) with true by lia.
  replace (2 * dx <? dx) with false by lia.
  replace (x2 - sx * a + sx - (x2 - sx * a)) with sx by lia.
  replace (y - y) with 0 by lia.
  assert (Maze.canMove m (x2 - sx * a) y sx 0 = Normal true) as ->.
  { destruct Hsx as [->| ->].
    - apply Hopen. lia.
    - rewrite canMove_left. apply Hopen. lia. }
  simpl. apply (IH (a - 1)); [lia|lia|done|lia|lia|].
  intros i Hi. apply Hopen. lia.
Qed.

Lemma sightLoop_column_open (fuel : nat) (m : Maze.t) (dy sx sy x y2 b err cy : Z) :
  0 <= b <= dy -> err = - dy -> sy = 1 \/ sy = -1 -> cy = y2 - sy * b ->
  (Z.to_nat b < fuel)%nat -> open_column m x cy y2 ->
  ViewSystem.sightLoop fuel m 0 dy sx sy x y2 err x cy = Normal true.
Proof.
  revert b err cy. induction fuel as [|fuel IH]; intros b err cy Hb -> Hsy -> Hfuel Hopen;
    [lia|].
  simpl. rewrite Z.eqb_refl. simpl.
  destruct (y2 - sy * b =? y2) eqn:Hat; [done|].
  apply Z.eqb_neq in Hat.
  replace (2 * - dy >? - dy) with false by lia.
  replace (2 * - dy <? 0) with true by lia.
  replace (y2 - sy * b + sy - (y2 - sy * b)) with sy by lia.
  replace (x - x) with 0 by lia.
  assert (Maze.canMove m x (y2 - sy * b) 0 sy = Normal true) as ->.
  { destruct Hsy as [->| ->].
    - apply Hopen. lia.
    - rewrite canMove_up. apply Hopen. lia. }
  simpl. apply (IH (b - 1)); [lia|lia|done|lia|lia|].
  intros j Hj. apply Hopen. lia.
Qed.

(** X11: within a row, and within a column, there is line of sight
    exactly when no wall stands between the two cells; so sight along a
    row or a column is the same in both directions. *)
Theorem sight_along_line (m : Maze.t) (x1 x2 y1 y2 : Z) :
  (ViewSystem.hasLineOfSight x1 y1 x2 y1 m = Normal true <-> open_row m y1 x1 x2)
  /\ (ViewSystem.hasLineOfSight x1 y1 x1 y2 m = Normal true <-> open_column m x1 y1 y2)
  /\ (ViewSystem.hasLineOfSight x1 y1 x2 y1 m = Normal true
      <-> ViewSystem.hasLineOfSight x2 y1 x1 y1 m = Normal true)
  /\ (ViewSystem.hasLineOfSight x1 y1 x1 y2 m = Normal true
      <-> ViewSystem.hasLineOfSight x1 y2 x1 y1 m = Normal true).
Proof.
  assert (forall a b y, ViewSystem.hasLineOfSight a y b y m = Normal true <-> open_row m y a b)
    as Hrow.
  { intros a b y. split; [apply sight_along_row|]. intros Hopen.
    unfold ViewSystem.hasLineOfSight. replace (Z.abs (y - y)) with 0 by lia.
    rewrite Z.add_0_r, Z.sub_0_r.
    apply (sightLoop_row_open _ _ _ _ _ _ _ (Z.abs (b - a)));
      [lia|done|case_match; lia|case_match; lia|lia|done]. }
  assert (forall x a b, ViewSystem.hasLineOfSight x a x b m = Normal true
                        <-> open_column m x a b) as Hcol.
  { intros x a b. split; [apply sight_along_column|]. intros Hopen.
    unfold ViewSystem.hasLineOfSight. replace (Z.abs (x - x)) with 0 by lia.
    rewrite Z.add_0_l, Z.sub_0_l.
    apply (sightLoop_column_open _ _ _ _ _ _ _ (Z.abs (b - a)));
      [lia|done|case_match; lia|case_match; lia|lia|done]. }
  split_and!; [apply Hrow|apply Hcol| |].
  - rewrite !Hrow. unfold open_row. by rewrite Z.min_comm, Z.max_comm.
  - rewrite !Hcol. unfold open_column. by rewrite Z.min_comm, Z.max_comm.
Qed.

(** ** The view system in permanent mode, and its cache *)

Lemma window_keys (m : Maze.t) (range vx vy : Z) (V : JsSet.t) (k : string) :
  window m range vx vy = Normal V ->
  k ∈ V <-> exists x y, k = ViewSystem.getCellKey x y /\ in_sight m range vx vy x y.
Proof.
  intros (Hsight & Hkeys & _)%window_spec. split.
  - intros Hk. destruct (Hkeys k Hk) as (x & y & ->). exists x, y. split; [done|].
    by apply Hsight.
  - intros (x & y & -> & Hin). by apply Hsight.
Qed.

(** X12: in permanent mode [update] never forgets.  After it, the
    permanent and the explored cells are the ones there were together with
    the cells in sight now, and the visible cells are exactly the permanent
    ones. *)
Theorem update_permanent_accumulates (m : Maze.t) (s s' : ViewSystem.t) (vx vy : Z)
    (visible : JsSet.t) :
  cache_ok m s ->
  ViewSystem.mode s = "permanent" ->
  ViewSystem.update vx vy m s = (Normal visible, s') ->
  ViewSystem.visibleCells s' = visible
  /\ (forall k, k ∈ visible <-> k ∈ ViewSystem.permanentCells s')
  /\ (forall k, k ∈ ViewSystem.permanentCells s' <->
        k ∈ ViewSystem.permanentCells s
        \/ exists x y, k = ViewSystem.getCellKey x y
                       /\ in_sight m (ViewSystem.viewRange s) vx vy x y)
  /\ (forall k, k ∈ ViewSystem.exploredCells s' <->
        k ∈ ViewSystem.exploredCells s
        \/ exists x y, k = ViewSystem.getCellKey x y
                       /\ in_sight m (ViewSystem.viewRange s) vx vy x y).
Proof.
  intros Hok Hmode Hupd.
  destruct (update_spec m vx vy s Hok) as (c & _ & Hspec).
  destruct (window m (ViewSystem.viewRange s) vx vy) as [V|e] eqn:Hw;
    [|by rewrite Hupd in Hspec].
  rewrite bool_decide_eq_true_2 in Hspec by done. rewrite Hupd in Hspec.
  injection Hspec as -> ->. simpl.
  split_and!; [done|..]; intros k;
    rewrite ?foldl_add_elem, ?(window_keys _ _ _ _ _ _ Hw); tauto.
Qed.

Lemma update_permanent_accumulates_witness :
  ViewSystem.isCellVisible
    (snd (ViewSystem.update 1 2 (Game.maze (Game.game demo))
            (snd (ViewSystem.update 1 0 (Game.maze (Game.game demo))
                    (ViewSystem.new (Some "permanent") (Some 1)))))) 1 0 = true.
Proof.
  pose (m := Game.maze (Game.game demo)).
  pose (s1 := snd (ViewSystem.update 1 0 m (ViewSystem.new (Some "permanent") (Some 1)))).
  destruct (update_permanent_accumulates m s1 (snd (ViewSystem.update 1 2 m s1)) 1 2
              (ViewSystem.visibleCells (snd (ViewSystem.update 1 2 m s1))))
    as (_ & Hvis & Hperm & _).
  - apply update_cache_ok, cache_ok_new.
  - vm_compute. reflexivity.
  - vm_compute. reflexivity.
  - apply JsSet_has_true, Hvis, Hperm. left. apply JsSet_has_true.
    vm_compute. reflexivity.
Defined.

(** X13: the cache does not change what [update] returns.  On a view
    system whose cache was filled on this grid, [update] completes as it
    does with the cache emptied first, with the same visible, explored and
    permanent cells. *)
Theorem update_cache_transparent (m : Maze.t) (s : ViewSystem.t) (vx vy : Z) :
  cache_ok m s ->
  fst (ViewSystem.update vx vy m s) = fst (ViewSystem.update vx vy m (ViewSystem.set_cache ∅ s))
  /\ same_but_cache (snd (ViewSystem.update vx vy m (ViewSystem.set_cache ∅ s)))
       (snd (ViewSystem.update vx vy m s)).
Proof.
  intros Hok.
  assert (cache_ok m (ViewSystem.set_cache ∅ s)) as Hok0.
  { intros x y r l. simpl. by rewrite lookup_empty. }
  destruct (update_spec m vx vy s Hok) as (c & _ & Hspec).
  destruct (update_spec m vx vy _ Hok0) as (c0 & _ & Hspec0).
  simpl in Hspec0.
  destruct (window m (ViewSystem.viewRange s) vx vy) as [V|e].
  - destruct (bool_decide _); rewrite Hspec, Hspec0; by split_and!.
  - rewrite Hspec, Hspec0. by split_and!.
Qed.

Lemma update_cache_transparent_witness :
  fst (ViewSystem.update 1 1 (Game.maze (Game.game demo)) (Game.viewSystem (Game.game demo)))
  = fst (ViewSystem.update 1 1 (Game.maze (Game.game demo))
           (ViewSystem.set_cache ∅ (Game.viewSystem (Game.game demo))))
  /\ same_but_cache
       (snd (ViewSystem.update 1 1 (Game.maze (Game.game demo))
               (ViewSystem.set_cache ∅ (Game.viewSystem (Game.game demo)))))
       (snd (ViewSystem.update 1 1 (Game.maze (Game.game demo))
               (Game.viewSystem (Game.game demo)))).
Proof.
  apply update_cache_transparent.
  change (Game.viewSystem (Game.game demo))
    with (snd (ViewSystem.update 1 0 (Game.maze (Game.game demo))
                 (ViewSystem.new (Some "instant") (Some 1)))).
  apply update_cache_ok, cache_ok_new.
Defined.

(** X14: [setViewRange] keeps the range between 1 and 5 and empties the
    cache, on whatever grid it was filled: in instant mode the cells that
    the next [update] shows lie within that range of the viewer, so within
    an 11 by 11 window at most. *)
Theorem setViewRange_bounds_window (m : Maze.t) (s s' : ViewSystem.t) (range vx vy x y : Z)
    (visible : JsSet.t) :
  ViewSystem.mode s = "instant" ->
  ViewSystem.update vx vy m (snd (ViewSystem.setViewRange range s)) = (Normal visible, s') ->
  ViewSystem.isCellVisible s' x y = true ->
  1 <= ViewSystem.getViewRange s' <= 5
  /\ (1 <= range <= 5 -> ViewSystem.getViewRange s' = range)
  /\ Z.abs (x - vx) <= ViewSystem.getViewRange s'
  /\ Z.abs (y - vy) <= ViewSystem.getViewRange s'.
Proof.
  intros Hmode Hupd Hvis.
  set (s1 := snd (ViewSystem.setViewRange range s)) in *.
  assert (cache_ok m s1) as Hok.
  { intros x0 y0 r l. unfold s1, ViewSystem.setViewRange. rewrite bind_modify.
    simpl. by rewrite lookup_empty. }
  assert (ViewSystem.mode s1 = "instant") as Hmode1.
  { unfold s1, ViewSystem.setViewRange. by rewrite bind_modify. }
  assert (1 <= ViewSystem.viewRange s1 <= 5
          /\ (1 <= range <= 5 -> ViewSystem.viewRange s1 = range)) as [Hr Hsame].
  { unfold s1, ViewSystem.setViewRange. rewrite bind_modify. simpl.
    repeat case_match; lia. }
  destruct (update_spec m vx vy s1 Hok) as (c & _ & Hspec).
  destruct (window m (ViewSystem.viewRange s1) vx vy) as [V|e] eqn:Hw;
    [|by rewrite Hupd in Hspec].
  rewrite bool_decide_eq_false_2 in Hspec by (by rewrite Hmode1).
  rewrite Hupd in Hspec. injection Hspec as -> ->.
  unfold ViewSystem.isCellVisible in Hvis. simpl in Hvis.
  apply JsSet_has_true in Hvis.
  apply window_spec in Hw as (Hsight & _). apply Hsight in Hvis as (Hx & Hy & _).
  unfold ViewSystem.getViewRange. simpl.
  split_and!; [apply Hr|apply Hr|exact Hsame|exact Hx|exact Hy].
Qed.

Lemma setViewRange_bounds_window_witness :
  1 <= ViewSystem.getViewRange
         (snd (ViewSystem.update 1 0 (Game.maze (Game.game demo))
                 (snd (ViewSystem.setViewRange 9 (Game.viewSystem (Game.game demo)))))) <= 5.
Proof.
  pose (s1 := snd (ViewSystem.setViewRange 9 (Game.viewSystem (Game.game demo)))).
  pose (r := ViewSystem.update 1 0 (Game.maze (Game.game demo)) s1).
  apply (setViewRange_bounds_window (Game.maze (Game.game demo))
           (Game.viewSystem (Game.game demo)) (snd r) 9 1 0 1 0
           (ViewSystem.visibleCells (snd r))); vm_compute; reflexivity.
Defined.

(** ** Saving and loading the view system *)

Lemma fold_permanent_only (l : list string) (s : ViewSystem.t) :
  foldl (fun s k => ViewSystem.set_permanentCells
                      (JsSet.add k (ViewSystem.permanentCells s)) s) s l
  = ViewSystem.set_permanentCells
      (foldl (fun e k => JsSet.add k e) (ViewSystem.permanentCells s) l) s.
Proof.
  revert s. induction l as [|k l IH]; intros s; simpl; [by destruct s|].
  by rewrite IH.
Qed.

(** X15: what [exportData] writes, [importData] reads back.  Importing
    the exported data of a view system, into any view system, gives its
    mode, its range and its explored and permanent cells in their order;
    the visible cells become the permanent ones in permanent mode and are
    left alone in instant mode, and the cache is left alone. *)
Theorem importData_exportData (s s0 : ViewSystem.t) :
  NoDup (ViewSystem.exploredCells s) -> NoDup (ViewSystem.permanentCells s) ->
  ViewSystem.mode s <> EmptyString -> ViewSystem.viewRange s <> 0 ->
  exists s',
    ViewSystem.importData (ViewSystem.exportData s) s0 = (Normal tt, s')
    /\ ViewSystem.mode s' = ViewSystem.mode s
    /\ ViewSystem.viewRange s' = ViewSystem.viewRange s
    /\ ViewSystem.exploredCells s' = ViewSystem.exploredCells s
    /\ ViewSystem.permanentCells s' = ViewSystem.permanentCells s
    /\ ViewSystem.visibleCells s'
       = (if bool_decide (ViewSystem.mode s = "permanent")
          then ViewSystem.permanentCells s else ViewSystem.visibleCells s0)
    /\ ViewSystem.cache s' = ViewSystem.cache s0.
Proof.
  intros Hexp Hperm Hmode Hrange.
  unfold ViewSystem.importData, ViewSystem.exportData. simpl.
  rewrite !bind_modify.
  rewrite (bind_normal _ _ _ tt _ (forM_modify _ _ _)), fold_explored.
  rewrite (bind_normal _ _ _ tt _ (forM_modify _ _ _)), fold_permanent_only.
  rewrite bind_gets. simpl.
  rewrite decide_False by done. replace (ViewSystem.viewRange s =? 0) with false by lia.
  rewrite !(foldl_add_fresh _ []) by done. simpl.
  case_bool_decide.
  - rewrite bind_gets. simpl. rewrite of_list_NoDup by done.
    eexists. split; [reflexivity|]. by split_and!.
  - eexists. split; [reflexivity|]. by split_and!.
Qed.

Lemma importData_exportData_witness :
  exists s',
    ViewSystem.importData (ViewSystem.exportData (Game.viewSystem (Game.game demo)))
      (ViewSystem.new None None) = (Normal tt, s')
    /\ ViewSystem.mode s' = "instant"
    /\ ViewSystem.exploredCells s' = ["1,0"; "2,0"; "2,1"].
Proof.
  destruct (importData_exportData (Game.viewSystem (Game.game demo)) (ViewSystem.new None None))
    as (s' & Himp & Hmode & _ & Hexp & _).
  - vm_compute. repeat constructor; set_solver.
  - vm_compute. constructor.
  - vm_compute. discriminate.
  - vm_compute. discriminate.
  - exists s'. split_and!; [done|by rewrite Hmode|by rewrite Hexp].
Defined.

(** X16: a cell handed to [addExploredCell] in permanent mode is shown
    by every later [update], wherever the viewer stands; in instant mode
    the next [update] keeps it explored only if it is in sight. *)
Theorem addExploredCell_then_update (m : Maze.t) (s s' : ViewSystem.t) (x y vx vy : Z)
    (visible : JsSet.t) :
  cache_ok m s ->
  ViewSystem.update vx vy m (snd (ViewSystem.addExploredCell x y s)) = (Normal visible, s') ->
  if bool_decide (ViewSystem.mode s = "permanent") then
    ViewSystem.isCellVisible s' x y = true /\ ViewSystem.isCellExplored s' x y = true
  else
    ViewSystem.isCellExplored s' x y = true <-> in_sight m (ViewSystem.viewRange s) vx vy x y.
Proof.
  intros Hok Hupd.
  set (s1 := snd (ViewSystem.addExploredCell x y s)) in *.
  assert (ViewSystem.cache s1 = ViewSystem.cache s /\ ViewSystem.mode s1 = ViewSystem.mode s
          /\ ViewSystem.viewRange s1 = ViewSystem.viewRange s
          /\ ViewSystem.getCellKey x y ∈ ViewSystem.exploredCells s1
          /\ (ViewSystem.mode s = "permanent" ->
              ViewSystem.getCellKey x y ∈ ViewSystem.permanentCells s1))
    as (Hcache & Hmode & Hrange & Hexp & Hperm).
  { unfold s1, ViewSystem.addExploredCell. rewrite bind_modify, bind_gets. simpl.
    case_bool_decide; simpl; split_and!; try done; intros; apply JsSet_add_elem. }
  assert (cache_ok m s1) as Hok1 by (by eapply cache_ok_same).
  destruct (update_spec m vx vy s1 Hok1) as (c & _ & Hspec).
  rewrite Hrange, Hmode in Hspec.
  destruct (window m (ViewSystem.viewRange s) vx vy) as [V|e] eqn:Hw;
    [|by rewrite Hupd in Hspec].
  destruct (bool_decide (ViewSystem.mode s = "permanent")) eqn:Hmd.
  - apply bool_decide_eq_true in Hmd. rewrite Hupd in Hspec. injection Hspec as -> ->.
    unfold ViewSystem.isCellVisible, ViewSystem.isCellExplored. simpl.
    rewrite !JsSet_has_true, !foldl_add_elem. auto.
  - rewrite Hupd in Hspec. injection Hspec as -> ->.
    unfold ViewSystem.isCellExplored. simpl. rewrite JsSet_has_true.
    by apply window_spec in Hw as (Hsight & _).
Qed.

Lemma addExploredCell_then_update_witness :
  ViewSystem.isCellVisible
    (snd (ViewSystem.update 1 0 (Game.maze (Game.game demo))
            (snd (ViewSystem.addExploredCell 0 2
                    (ViewSystem.new (Some "permanent") (Some 1)))))) 0 2 = true.
Proof.
  pose (s1 := snd (ViewSystem.addExploredCell 0 2 (ViewSystem.new (Some "permanent") (Some 1)))).
  pose (r := ViewSystem.update 1 0 (Game.maze (Game.game demo)) s1).
  apply (addExploredCell_then_update (Game.maze (Game.game demo))
           (ViewSystem.new (Some "permanent") (Some 1)) (snd r) 0 2 1 0
           (ViewSystem.visibleCells (snd r))).
  - apply cache_ok_new.
  - vm_compute. reflexivity.
Defined.

(** ** Cells and their keys *)

Lemma parseAll_keys (cs : list point) :
  ViewSystem.parseAll ((fun c => ViewSystem.getCellKey (px c) (py c)) <$> cs) = Normal cs.
Proof.
  induction cs as [|[x y] cs IH]; [done|].
  rewrite fmap_cons. cbn [ViewSystem.parseAll px py].
  rewrite parseCellKey_getCellKey. cbn [cbind]. by rewrite IH.
Qed.

(** X17: the keys of cells can be read back.  A set that holds the keys
    of a list of cells, negative coordinates included, is listed by
    [getVisibleCells] and [getExploredCells] as those cells in their order,
    and two different cells never share a key. *)
Theorem cell_keys_round_trip (s : ViewSystem.t) (cs : list point) :
  let keys := (fun c => ViewSystem.getCellKey (px c) (py c)) <$> cs in
  ViewSystem.getVisibleCells (ViewSystem.set_visibleCells keys s) = Normal cs
  /\ ViewSystem.getExploredCells (ViewSystem.set_exploredCells keys s) = Normal cs
  /\ forall x y x' y',
       ViewSystem.getCellKey x y = ViewSystem.getCellKey x' y' -> x = x' /\ y = y'.
Proof.
  split_and!.
  - apply parseAll_keys.
  - apply parseAll_keys.
  - apply getCellKey_inj.
Qed.

(** ** Accepted moves *)

(** What an accepted [movePlayer(dx, dy)] found and what it leaves. *)
Lemma movePlayer_accepted (now dx dy : Z) (w w' : Game.world) :
  Game.movePlayer now dx dy w = (Normal true, w') ->
  let g := Game.game w in
  let g' := Game.game w' in
  let newX := Game.x (Game.player g) + dx in
  let newY := Game.y (Game.player g) + dy in
  (Game.isRunning (Game.state g) = true /\ Game.isPaused (Game.state g) = false
   /\ Game.isGameOver (Game.state g) = false)
  /\ (0 <= newX < Game.mazeSize (Game.config g) /\ 0 <= newY < Game.mazeSize (Game.config g))
  /\ Maze.canMove (Game.maze g) (Game.x (Game.player g)) (Game.y (Game.player g)) dx dy
     = Normal true
  /\ Game.player g' = Game.Player newX newY (Game.x (Game.player g)) (Game.y (Game.player g))
  /\ Game.maze g' = Game.maze g
  /\ Game.config g' = Game.config g
  /\ Game.visitedCells g' = JsSet.add (Game.getCellKey newX newY) (Game.visitedCells g)
  /\ Game.state g'
     = (let s := Game.state g in
        if (newX =? px (Maze.getEnd (Game.maze g))) && (newY =? py (Maze.getEnd (Game.maze g)))
        then Game.State false (Game.isPaused s) true true (Game.moves s + 1)
               (Game.startTime s) (Some now)
        else Game.State (Game.isRunning s) (Game.isPaused s) (Game.isGameOver s)
               (Game.isVictory s) (Game.moves s + 1) (Game.startTime s) (Game.endTime s)).
Proof.
  unfold Game.movePlayer, bind, Game.getg, gets, ret, lift. simpl.
  destruct (negb (Game.isRunning _) || _ || _) eqn:Hstate; [done|].
  destruct ((dx =? 0) && (dy =? 0) || _ || _) eqn:Hvec; [done|].
  destruct ((_ + dx <? 0) || _ || _ || _) eqn:Hbounds; [done|].
  destruct (Maze.canMove _ _ _ _ _) as [[|]|e] eqn:Hmove; simpl; [|done..].
  destruct (Game.updateVisibility _) as [[[]|e] w2] eqn:Hupd; [|done].
  pose proof (updateVisibility_core_kept _ _ _ Hupd) as (Hp & Hs & Hm & Hc & Hv).
  simpl in *. rewrite Hp, Hs, Hm. simpl.
  apply orb_false_elim in Hstate as [[Hrun%negb_false_iff Hpause]%orb_false_elim Hover].
  apply orb_false_elim in Hbounds
    as [[[Hx0 Hx1]%orb_false_elim Hy0]%orb_false_elim Hy1].
  destruct ((_ =? px _) && _) eqn:Hend; simpl; intros [= <-]; simpl.
  all: rewrite ?Hp, ?Hs, ?Hm, ?Hc, ?Hv; simpl.
  all: clear Hupd Hp Hs Hm Hc Hv.
  all: split_and!; try reflexivity; try assumption; lia.
Qed.

(** X18: an accepted move goes through an open wall to a cell of the
    grid: the game was running, the player stands [dx], [dy] further, the
    previous position is where the player stood, [moves] has grown by one,
    the new cell is visited, and the maze and the configuration are the
    same. *)
Theorem movePlayer_accepted_step (now dx dy : Z) (w w' : Game.world) :
  Game.movePlayer now dx dy w = (Normal true, w') ->
  let g := Game.game w in
  let g' := Game.game w' in
  Game.isRunning (Game.state g) = true
  /\ Maze.canMove (Game.maze g) (Game.x (Game.player g)) (Game.y (Game.player g)) dx dy
     = Normal true
  /\ Game.x (Game.player g') = Game.x (Game.player g) + dx
  /\ Game.y (Game.player g') = Game.y (Game.player g) + dy
  /\ Game.prevX (Game.player g') = Game.x (Game.player g)
  /\ Game.prevY (Game.player g') = Game.y (Game.player g)
  /\ 0 <= Game.x (Game.player g') < Game.mazeSize (Game.config g')
  /\ 0 <= Game.y (Game.player g') < Game.mazeSize (Game.config g')
  /\ Game.moves (Game.state g') = Game.moves (Game.state g) + 1
  /\ Game.isCellVisited g' (Game.x (Game.player g')) (Game.y (Game.player g')) = true
  /\ Game.maze g' = Game.maze g
  /\ Game.config g' = Game.config g.
Proof.
  intros (Hflags & Hin & Hmove & Hp & Hm & Hc & Hv & Hs)%movePlayer_accepted. simpl.
  rewrite Hp, Hc. simpl. split_and!; try done; try tauto.
  - rewrite Hs. by destruct (_ && _).
  - unfold Game.isCellVisited. rewrite Hv. apply JsSet_has_true, JsSet_add_elem.
Qed.

Lemma movePlayer_accepted_step_witness :
  Game.x (Game.player (Game.game (snd (Game.movePlayer 5000 1 0 demo))))
  = Game.x (Game.player (Game.game demo)) + 1.
Proof.
  assert (Game.movePlayer 5000 1 0 demo
          = (Normal true, snd (Game.movePlayer 5000 1 0 demo))) as Hmove
    by (vm_compute; reflexivity).
  destruct (movePlayer_accepted_step _ _ _ _ _ Hmove) as (_ & _ & Hx & _).
  exact Hx.
Defined.



(** ** Pausing and starting *)


(** X21: [start] starts a game once.  On a game that is not running it
    sets [isRunning], clears [isGameOver] and [isVictory], takes the
    clock's reading as start time and calls the start listeners once,
    leaving the player, the move count and the maze as they are; on a
    running game, and so when called a second time, it does nothing. *)
Theorem start_once (now now' : Z) (w : Game.world) :
  let w' := snd (Game.start now w) in
  Game.start now' w' = (Normal tt, w')
  /\ Game.isRunning (Game.state (Game.game w')) = true
  /\ Game.player (Game.game w') = Game.player (Game.game w)
  /\ Game.moves (Game.state (Game.game w')) = Game.moves (Game.state (Game.game w))
  /\ Game.maze (Game.game w') = Game.maze (Game.game w)
  /\ (if Game.isRunning (Game.state (Game.game w)) then w' = w
      else Game.startTime (Game.state (Game.game w')) = Some now
           /\ Game.isGameOver (Game.state (Game.game w')) = false
           /\ Game.isVictory (Game.state (Game.game w')) = false
           /\ Game.trace w'
              = Game.trace w
                  ++ [Game.OnGameStart (Game.mazeSize (Game.config (Game.game w)))
                        (Game.viewMode (Game.config (Game.game w)))
                        (Game.player (Game.game w))
                        (Maze.getEnd (Game.maze (Game.game w)))]).
Proof.
  destruct w as [[c [running paused over won mv st et] mz p vs ex vi] tr].
  unfold Game.start, Game.triggerEvent, bind, Game.getg, Game.modg, gets, modify, ret. simpl.
  destruct running; simpl; by split_and!.
Qed.

(** ** What is visible is explored *)

Lemma parseAll_elem (keys : list string) (cells : list point) (k : string) (c : point) :
  ViewSystem.parseAll keys = Normal cells -> k ∈ keys ->
  ViewSystem.parseCellKey k = Normal c -> c ∈ cells.
Proof.
  revert cells. induction keys as [|k0 keys IH]; intros cells; simpl; [by intros _ ?%elem_of_nil|].
  destruct (ViewSystem.parseCellKey k0) as [c0|] eqn:Hk0; simpl; [|done].
  destruct (ViewSystem.parseAll keys) as [cs|]; simpl; [|done].
  intros [= <-] [->|Hin]%elem_of_cons Hk.
  - rewrite Hk0 in Hk. injection Hk as ->. by left.
  - right. by apply IH.
Qed.

(** The loop of [updateVisibility] puts every cell it is given in the
    game's explored set and leaves the view system alone. *)
Lemma explore_loop (cells : list point) (w w' : Game.world) :
  forM cells (fun cell =>
    let cellKey := Game.getCellKey (px cell) (py cell) in
    do explored <- Game.getg Game.exploredCells;
    if negb (JsSet.has cellKey explored) then
      run Game.modg (Game.set_exploredCells (JsSet.add cellKey explored));
      do explored' <- Game.getg Game.exploredCells;
      do size <- Game.getg (fun g => Game.mazeSize (Game.config g));
      Game.triggerEvent (Game.OnCellExplored (px cell) (py cell) (JsSet.size explored')
                           (size * size))
    else ret tt) w = (Normal tt, w') ->
  Game.viewSystem (Game.game w') = Game.viewSystem (Game.game w)
  /\ forall c, c ∈ cells \/ Game.getCellKey (px c) (py c) ∈ Game.exploredCells (Game.game w) ->
       Game.getCellKey (px c) (py c) ∈ Game.exploredCells (Game.game w').
Proof.
  revert w. induction cells as [|cell cells IH]; intros w; simpl.
  { intros [= <-]. split; [done|]. by intros c [?%elem_of_nil|?]. }
  intros Hrun. apply bind_normal_inv in Hrun as ([] & w1 & Hbody & Hrun).
  apply IH in Hrun as [Hvs Hin].
  assert (Game.viewSystem (Game.game w1) = Game.viewSystem (Game.game w)
          /\ Game.getCellKey (px cell) (py cell) ∈ Game.exploredCells (Game.game w1)
          /\ explored_kept w w1) as (Hvs1 & Hcell & Hkept).
  { unfold bind, Game.getg, gets in Hbody. simpl in Hbody.
    destruct (negb _) eqn:Hhas; simpl in Hbody; injection Hbody as <-; simpl.
    - split_and!; [done|apply JsSet_add_elem|]. intros k Hk. simpl. by apply JsSet_add_mono.
    - split_and!; [done| |by intros k]. apply negb_false_iff in Hhas.
      by apply JsSet_has_true in Hhas. }
  split; [congruence|]. intros c [[->|Hc]%elem_of_cons|Hc]; apply Hin; auto.
Qed.

Lemma updateVisibility_shows_explored (w w' : Game.world) (x y : Z) :
  Game.updateVisibility w = (Normal tt, w') ->
  Game.isCellVisible (Game.game w') x y = true ->
  Game.isCellExplored (Game.game w') x y = true.
Proof.
  unfold Game.updateVisibility, Game.getg at 1 2 3.
  rewrite !bind_gets. intros Hrun.
  apply bind_normal_inv in Hrun as (visible & w1 & Hupd & Hrun).
  rewrite bind_gets in Hrun.
  apply bind_normal_inv in Hrun as (cells & w2 & Hcells & Hrun).
  injection Hcells as Hcells <-.
  apply explore_loop in Hrun as [Hvs Hin].
  unfold Game.isCellVisible, Game.isCellExplored, ViewSystem.isCellVisible.
  rewrite Hvs, !JsSet_has_true. intros Hvis.
  apply (Hin (Point x y)). left.
  eapply parseAll_elem; [exact Hcells|exact Hvis|apply parseCellKey_getCellKey].
Qed.

(** X22: when [updateVisibility] returns, every cell that the view
    system shows is in the game's explored set. *)
Theorem updateVisibility_explores_visible (w w' : Game.world) (x y : Z) :
  Game.updateVisibility w = (Normal tt, w') ->
  Game.isCellVisible (Game.game w') x y = true ->
  Game.isCellExplored (Game.game w') x y = true.
Proof. apply updateVisibility_shows_explored. Qed.

Lemma updateVisibility_explores_visible_witness :
  Game.isCellExplored (Game.game (snd (Game.updateVisibility demo))) 2 1 = true.
Proof.
  apply (updateVisibility_explores_visible demo); vm_compute; reflexivity.
Defined.

(** ** What a game in play keeps *)

Global Instance play_kept_preorder : PreOrder play_kept.
Proof.
  split.
  - intros w. unfold play_kept. split_and!; [done|done|done|lia|done].
  - intros w1 w2 w3 (Hm1 & Hc1 & Hb1 & Hn1 & Hv1) (Hm2 & Hc2 & Hb2 & Hn2 & Hv2).
    split_and!; [congruence|congruence|auto|lia|auto].
Qed.

Lemma core_kept_play (w w' : Game.world) : core_kept w w' -> play_kept w w'.
Proof.
  intros (Hp & Hs & Hm & Hc & Hv). unfold play_kept, player_in_bounds.
  rewrite Hp, Hs, Hm, Hc, Hv. split_and!; [done|done|done|lia|done].
Qed.

Lemma modg_play (f : Game.t -> Game.t) :
  (forall g, Game.player (f g) = Game.player g /\ Game.maze (f g) = Game.maze g
             /\ Game.mazeSize (Game.config (f g)) = Game.mazeSize (Game.config g)
             /\ Game.visitedCells (f g) = Game.visitedCells g
             /\ Game.moves (Game.state g) <= Game.moves (Game.state (f g))) ->
  preserves play_kept (Game.modg f).
Proof.
  intros Hf w r w' [= _ <-]. destruct (Hf (Game.game w)) as (Hp & Hm & Hc & Hv & Hn).
  unfold play_kept, player_in_bounds. simpl. rewrite Hp, Hm, Hc, Hv.
  split_and!; [done|done|done|lia|done].
Qed.

Lemma triggerEvent_play (e : Game.event) : preserves play_kept (Game.triggerEvent e).
Proof. intros w r w' [= _ <-]. apply core_kept_play. by split_and!. Qed.

Lemma onViewSystem_play {A} (c : M ViewSystem.t A) : preserves play_kept (Game.onViewSystem c).
Proof.
  intros w r w'. unfold Game.onViewSystem.
  destruct (c _) as [r0 vs']. intros [= _ <-]. apply core_kept_play. by split_and!.
Qed.

Lemma updateVisibility_play : preserves play_kept Game.updateVisibility.
Proof. intros w r w' Hrun. by eapply core_kept_play, updateVisibility_core_kept. Qed.

Ltac play_step :=
  first
    [ preserves_step
    | apply triggerEvent_play
    | apply onViewSystem_play
    | apply updateVisibility_play
    | apply modg_play; intros g; simpl; split_and!; (reflexivity || lia) ].

Lemma victory_play (now : Z) : preserves play_kept (Game.victory now).
Proof. unfold Game.victory. repeat play_step. Qed.

Lemma setViewMode_play (md : string) : preserves play_kept (Game.setViewMode md).
Proof. unfold Game.setViewMode. repeat play_step. Qed.

Lemma start_play (now : Z) : preserves play_kept (Game.start now).
Proof.
  intros w r w'.
  unfold Game.start, Game.triggerEvent, bind, Game.getg, Game.modg, gets, modify, ret.
  simpl. destruct (Game.isRunning _); intros [= _ <-]; [reflexivity|].
  unfold play_kept, player_in_bounds. simpl. split_and!; [done|done|done|lia|done].
Qed.

Lemma togglePause_play : preserves play_kept Game.togglePause.
Proof.
  intros w r w'.
  unfold Game.togglePause, bind, Game.getg, Game.modg, gets, modify, ret.
  simpl. destruct (negb _ || _); intros [= _ <-]; [reflexivity|].
  unfold play_kept, player_in_bounds. simpl. split_and!; [done|done|done|lia|done].
Qed.

Lemma gameOver_play (now : Z) : preserves play_kept (Game.gameOver now).
Proof. unfold Game.gameOver. repeat play_step. Qed.

Lemma movePlayer_play (now dx dy : Z) : preserves play_kept (Game.movePlayer now dx dy).
Proof.
  intros w r w'. unfold Game.movePlayer, bind, Game.getg, gets, ret, lift. simpl.
  destruct (negb (Game.isRunning _) || _ || _) eqn:Hstate; [intros [= _ <-]; reflexivity|].
  destruct ((dx =? 0) && (dy =? 0) || _ || _) eqn:Hvec; [intros [= _ <-]; reflexivity|].
  destruct ((_ + dx <? 0) || _ || _ || _) eqn:Hbounds; [intros [= _ <-]; reflexivity|].
  destruct (Maze.canMove _ _ _ _ _) as [[|]|e] eqn:Hmove; simpl;
    [|intros [= _ <-]; reflexivity..].
  apply orb_false_elim in Hbounds
    as [[[Hx0 Hx1]%orb_false_elim Hy0]%orb_false_elim Hy1].
  match goal with
  | |- context [Game.updateVisibility ?w1] =>
      assert (play_kept w w1) as Hmoved; [|set (moved := w1) in *]
  end.
  { unfold play_kept, player_in_bounds. simpl.
    split_and!; [done|done|lia|lia|]. intros k Hk. by apply JsSet_add_mono. }
  destruct (Game.updateVisibility moved) as [[[]|e] w2] eqn:Hupd.
  2: { intros [= _ <-]. etransitivity; [exact Hmoved|]. by eapply updateVisibility_play. }
  apply updateVisibility_play in Hupd.
  assert (play_kept w w2) as Hseen by (by etransitivity).
  clearbody moved. clear Hupd Hmoved.
  destruct ((_ =? px _) && _); simpl; intros [= _ <-].
  all: etransitivity; [exact Hseen|].
  all: unfold play_kept, player_in_bounds; simpl; split_and!; [done|done|done|lia|done].
Qed.

Lemma act_play (a : action) (w : Game.world) : play_kept w (act a w).
Proof.
  destruct a; cbn [act].
  - by eapply movePlayer_play, surjective_pairing.
  - by eapply setViewMode_play, surjective_pairing.
  - by eapply updateVisibility_play, surjective_pairing.
  - by eapply start_play, surjective_pairing.
  - by eapply togglePause_play, surjective_pairing.
  - by eapply gameOver_play, surjective_pairing.
Qed.

(** X23: between two restarts the game keeps its maze and its size, the
    player never leaves the grid, the move count never goes down and no
    visited cell is lost, whatever calls of [movePlayer], [setViewMode],
    [updateVisibility], [start], [togglePause] and [gameOver] are made and
    however each of them completes. *)
Theorem play_keeps_player_in_grid (acts : list action) (w : Game.world) :
  player_in_bounds w ->
  player_in_bounds (actAll acts w)
  /\ Game.maze (Game.game (actAll acts w)) = Game.maze (Game.game w)
  /\ Game.mazeSize (Game.config (Game.game (actAll acts w)))
     = Game.mazeSize (Game.config (Game.game w))
  /\ Game.moves (Game.state (Game.game w))
     <= Game.moves (Game.state (Game.game (actAll acts w)))
  /\ forall x y, Game.isCellVisited (Game.game w) x y = true ->
                 Game.isCellVisited (Game.game (actAll acts w)) x y = true.
Proof.
  assert (play_kept w (actAll acts w)) as (Hm & Hc & Hb & Hn & Hv).
  { revert w. induction acts as [|a acts IH]; intros w; simpl; [reflexivity|].
    etransitivity; [apply act_play|apply IH]. }
  intros Hin. split_and!; [auto|done|done|done|].
  intros x y. unfold Game.isCellVisited. rewrite !JsSet_has_true. apply Hv.
Qed.

Lemma play_keeps_player_in_grid_witness :
  player_in_bounds
    (actAll [ActMovePlayer 5000 1 0; ActTogglePause; ActMovePlayer 6000 0 1;
             ActTogglePause; ActMovePlayer 7000 1 1; ActSetViewMode "permanent"] demo).
Proof.
  apply (play_keeps_player_in_grid
           [ActMovePlayer 5000 1 0; ActTogglePause; ActMovePlayer 6000 0 1;
            ActTogglePause; ActMovePlayer 7000 1 1; ActSetViewMode "permanent"] demo).
  vm_compute. repeat split; discriminate.
Defined.

(** ** Cells are reported once *)

Global Instance announced_kept_preorder : PreOrder announced_kept.
Proof.
  split.
  - by intros w Hw.
  - intros w1 w2 w3 H12 H23 Hw. auto.
Qed.

Lemma explored_keys_snoc (tr : list Game.event) (e : Game.event) :
  explored_keys (tr ++ [e])
  = explored_keys tr ++ match e with
                        | Game.OnCellExplored x y _ _ => [Game.getCellKey x y]
                        | _ => []
                        end.
Proof. unfold explored_keys. rewrite omap_app. by destruct e. Qed.

Lemma modg_announced (f : Game.t -> Game.t) :
  (forall g, Game.exploredCells (f g) = Game.exploredCells g) ->
  preserves announced_kept (Game.modg f).
Proof. intros Hf w r w' [= _ <-] [Hnd Hin]. split; simpl; [done|]. by rewrite Hf. Qed.

Lemma triggerEvent_announced (e : Game.event) :
  ~ is_explored_event e -> preserves announced_kept (Game.triggerEvent e).
Proof.
  intros He w r w' [= _ <-] [Hnd Hin]. unfold announced. simpl.
  rewrite explored_keys_snoc. destruct e; simpl in *; rewrite ?app_nil_r; done.
Qed.

Lemma onViewSystem_announced {A} (c : M ViewSystem.t A) :
  preserves announced_kept (Game.onViewSystem c).
Proof.
  intros w r w'. unfold Game.onViewSystem.
  destruct (c _) as [r0 vs']. intros [= _ <-] [Hnd Hin]. by split.
Qed.

Lemma updateVisibility_announced : preserves announced_kept Game.updateVisibility.
Proof.
  unfold Game.updateVisibility.
  apply preserves_bind; [apply _|apply preserves_getg, _|intros p].
  apply preserves_bind; [apply _|apply preserves_getg, _|intros mz].
  apply preserves_bind; [apply _|apply onViewSystem_announced|intros _].
  apply preserves_bind; [apply _|apply preserves_getg, _|intros vs].
  apply preserves_bind; [apply _|apply preserves_lift, _|intros cells].
  apply preserves_forM; [apply _|intros cell].
  intros w r w'. unfold bind, Game.getg, gets. simpl.
  destruct (negb _) eqn:Hhas; simpl; intros [= _ <-]; [|done].
  apply negb_true_iff in Hhas.
  assert (Game.getCellKey (px cell) (py cell) ∉ Game.exploredCells (Game.game w)) as Hnew.
  { intros Hin%JsSet_has_true. congruence. }
  intros [Hnd Hin]. unfold announced. simpl. rewrite explored_keys_snoc. split.
  - apply NoDup_app. split_and!; [done| |apply NoDup_singleton].
    intros k Hk ->%list_elem_of_singleton. auto.
  - intros k [Hk| ->%list_elem_of_singleton]%elem_of_app.
    + by apply JsSet_add_mono, Hin.
    + apply JsSet_add_elem.
Qed.

Ltac announced_step :=
  first
    [ preserves_step
    | apply triggerEvent_announced; by intros []
    | apply onViewSystem_announced
    | apply updateVisibility_announced
    | apply modg_announced; by intros g ].

Lemma act_announced (a : action) (w : Game.world) : announced_kept w (act a w).
Proof.
  destruct a; cbn [act].
  - eapply (_ : preserves announced_kept (Game.movePlayer _ _ _)), surjective_pairing.
  - eapply (_ : preserves announced_kept (Game.setViewMode _)), surjective_pairing.
  - eapply updateVisibility_announced, surjective_pairing.
  - eapply (_ : preserves announced_kept (Game.start _)), surjective_pairing.
  - eapply (_ : preserves announced_kept Game.togglePause), surjective_pairing.
  - eapply (_ : preserves announced_kept (Game.gameOver _)), surjective_pairing.
  Unshelve.
  all: unfold Game.movePlayer, Game.setViewMode, Game.start, Game.togglePause,
         Game.gameOver, Game.victory; repeat announced_step.
Qed.

(** X24: a cell is reported once.  In a game whose explored-cell
    listeners were never called twice for a cell, and only for cells of
    the explored set, this stays so whatever calls of [movePlayer],
    [setViewMode], [updateVisibility], [start], [togglePause] and
    [gameOver] are made and however each of them completes. *)
Theorem explored_reported_once (acts : list action) (w : Game.world) :
  announced w -> announced (actAll acts w).
Proof.
  revert w. induction acts as [|a acts IH]; intros w Hw; simpl; [done|].
  by apply IH, act_announced.
Qed.

Lemma explored_reported_once_witness :
  announced (actAll [ActMovePlayer 5000 1 0; ActMovePlayer 6000 0 1;
                     ActSetViewMode "permanent"; ActMovePlayer 7000 (-1) 0] demo).
Proof.
  apply explored_reported_once. split.
  - vm_compute. constructor.
  - intros k Hk. vm_compute in Hk. by apply elem_of_nil in Hk.
Defined.

(** ** A fresh game *)

Section FreshGame.

Context {R : Type} (native_random : R -> float * R).

Lemma onWorld_normal_inv {A} (c : Game.G A) (k k' : Game.session (R:=R)) (a : A) :
  Game.onWorld c k = (Normal a, k') ->
  c (fst k) = (Normal a, fst k') /\ snd k' = snd k.
Proof.
  unfold Game.onWorld. destruct (c (fst k)) as [r w']. by intros [= -> <-].
Qed.

Lemma generateMaze_normal_inv (fuel : nat) (k k' : Game.session (R:=R)) :
  Game.generateMaze native_random fuel k = (Normal tt, k') ->
  exists km,
    Maze.generate native_random fuel (Maze.Machine (Game.maze (Game.game (fst k))) (snd k))
    = (Normal tt, km)
    /\ Game.maze (Game.game (fst k')) = Maze.this km
    /\ Game.config (Game.game (fst k')) = Game.config (Game.game (fst k))
    /\ Game.trace (fst k') = Game.trace (fst k).
Proof.
  unfold Game.generateMaze.
  destruct (Maze.generate _ _ _) as [r km]. intros [= -> <-]. by exists km.
Qed.

(** What [init] leaves when it returns. *)
Lemma init_fresh (fuel : nat) (k k' : Game.session (R:=R)) :
  Game.init native_random fuel k = (Normal tt, k') ->
  let g := Game.game (fst k) in
  let g' := Game.game (fst k') in
  let s := Maze.getStart (Game.maze g') in
  Game.config g' = Game.config g
  /\ Game.state g' = Game.State false false false false 0 None None
  /\ Maze.getSize (Game.maze g')
     = (Game.mazeSize (Game.config g), Game.mazeSize (Game.config g))
  /\ wall_rows (Game.maze g')
  /\ Game.player g' = Game.Player (px s) (py s) (px s) (py s)
  /\ Game.visitedCells g' = [Game.getCellKey (px s) (py s)]
  /\ Game.isCellExplored g' (px s) (py s) = true
  /\ (forall x y, Game.isCellVisible g' x y = true -> Game.isCellExplored g' x y = true)
  /\ explored_events_added (fst k) (fst k').
Proof.
  unfold Game.init. intros Hrun.
  apply bind_normal_inv in Hrun as (size & k1 & [Hsize Hg1]%onWorld_normal_inv & Hrun).
  injection Hsize as Hsize Hw1.
  destruct (Maze.new size size) as [[[]|e] mz] eqn:Hnew; [|done].
  apply bind_normal_inv in Hrun as ([] & k2 & [Hset Hg2]%onWorld_normal_inv & Hrun).
  injection Hset as Hset.
  apply bind_normal_inv in Hrun as ([] & k3 & Hgen & Hrun).
  apply generateMaze_normal_inv in Hgen as (km & Hgen & Hmz3 & Hc3 & Ht3).
  apply bind_normal_inv in Hrun as (mz' & k4 & [Hmz' Hg4]%onWorld_normal_inv & Hrun).
  injection Hmz' as Hmz' Hw4.
  apply bind_normal_inv in Hrun as ([] & k5 & [Hp Hg5]%onWorld_normal_inv & Hrun).
  injection Hp as Hp.
  apply bind_normal_inv in Hrun as ([] & k6 & [Hex Hg6]%onWorld_normal_inv & Hrun).
  injection Hex as Hex.
  apply bind_normal_inv in Hrun as ([] & k7 & [Hvi Hg7]%onWorld_normal_inv & Hrun).
  injection Hvi as Hvi.
  apply bind_normal_inv in Hrun as (md & k8 & [Hmd Hg8]%onWorld_normal_inv & Hrun).
  injection Hmd as Hmd Hw8.
  apply bind_normal_inv in Hrun as ([] & k9 & [Hvs Hg9]%onWorld_normal_inv & Hrun).
  injection Hvs as Hvs.
  apply bind_normal_inv in Hrun as ([] & k10 & [Hupd Hg10]%onWorld_normal_inv & Hrun).
  apply onWorld_normal_inv in Hrun as [Hst _]. injection Hst as Hst.
  pose proof (updateVisibility_core_kept _ _ _ Hupd) as (Hcp & Hcs & Hcm & Hcc & Hcv).
  pose proof (updateVisibility_explored_kept _ _ _ Hupd) as Hkept.
  pose proof (updateVisibility_events _ _ _ Hupd) as Hann.
  pose proof (fun x y => updateVisibility_shows_explored _ _ x y Hupd) as Hshown.
  pose proof (generate_size _ _ _ _ Hgen) as (Hgw & Hgh & _).
  pose proof (generate_wall_rows _ _ _ _ Hgen) as Hrows.
  assert (Maze.width mz = size /\ Maze.height mz = size) as [Hmw Hmh].
  { unfold Maze.new in Hnew. apply init_frame in Hnew as (Hw & Hh & _). by simpl in *. }
  simpl in *. rewrite <-Hst. simpl.
  rewrite <-Hvs, <-Hw8, <-Hvi, <-Hex, <-Hp, <-Hw4 in Hcp, Hcm, Hcc, Hcv, Hkept, Hann.
  simpl in *. rewrite <-Hset, <-Hw1 in *. simpl in *.
  assert (Game.maze (Game.game (fst k10)) = mz') as Hmaze by congruence.
  rewrite Hmaze. split_and!.
  - congruence.
  - reflexivity.
  - rewrite <-Hmz', Hmz3. unfold Maze.getSize. rewrite Hgw, Hgh. simpl.
    by rewrite Hmw, Hmh, Hsize.
  - by rewrite <-Hmz', Hmz3.
  - exact Hcp.
  - exact Hcv.
  - unfold Game.isCellExplored. apply JsSet_has_true, Hkept. simpl. by left.
  - exact Hshown.
  - destruct Hann as (evs & Htr & Hevs). exists evs. simpl in Htr.
    by rewrite Htr, Ht3.
Qed.

(** What [restart] leaves when it returns. *)
Lemma restart_spec (fuel : nat) (now : Z) (k k' : Game.session (R:=R)) :
  Game.restart native_random fuel now k = (Normal tt, k') ->
  let g := Game.game (fst k) in
  let g' := Game.game (fst k') in
  let s := Maze.getStart (Game.maze g') in
  Game.config g' = Game.config g
  /\ Game.state g' = Game.State true false false false 0 (Some now) None
  /\ Maze.getSize (Game.maze g')
     = (Game.mazeSize (Game.config g), Game.mazeSize (Game.config g))
  /\ wall_rows (Game.maze g')
  /\ Game.player g' = Game.Player (px s) (py s) (px s) (py s)
  /\ Game.visitedCells g' = [Game.getCellKey (px s) (py s)]
  /\ Game.isCellExplored g' (px s) (py s) = true
  /\ (forall x y, Game.isCellVisible g' x y = true -> Game.isCellExplored g' x y = true)
  /\ exists explored,
       Game.trace (fst k')
       = Game.trace (fst k) ++ explored
           ++ [Game.OnGameStart (Game.mazeSize (Game.config g)) (Game.viewMode (Game.config g))
                 (Game.player g') (Maze.getEnd (Game.maze g'))]
       /\ Forall is_explored_event explored.
Proof.
  unfold Game.restart. intros Hrun.
  apply bind_normal_inv in Hrun as ([] & k1 & Hinit & [Hstart _]%onWorld_normal_inv).
  apply init_fresh in Hinit
    as (Hc & Hs & Hsize & Hrows & Hp & Hv & Hex & Hshown & (evs & Htr & Hevs)).
  unfold Game.start, Game.triggerEvent, bind, Game.getg, Game.modg, gets, modify, ret
    in Hstart.
  simpl in Hstart. rewrite Hs in Hstart. simpl in Hstart. injection Hstart as Hstart.
  simpl. rewrite <-Hstart. simpl. split_and!; try done.
  exists evs. rewrite Htr, Hc, <-app_assoc. by split.
Qed.

End FreshGame.

(** X25: [restart] gives a fresh game, whatever state the game was in:
    a maze of the configured size with the rows of its wall arrays, the
    player on its start with no move made, that cell visited and explored,
    every visible cell explored, the game running from the clock's reading
    — and the listeners told of the explored cells and then of the start. *)
Theorem restart_fresh {R : Type} (native_random : R -> float * R) (fuel : nat) (now : Z)
    (k k' : Game.session (R:=R)) :
  Game.restart native_random fuel now k = (Normal tt, k') ->
  let g := Game.game (fst k) in
  let g' := Game.game (fst k') in
  let s := Maze.getStart (Game.maze g') in
  Game.config g' = Game.config g
  /\ Game.state g' = Game.State true false false false 0 (Some now) None
  /\ Maze.getSize (Game.maze g')
     = (Game.mazeSize (Game.config g), Game.mazeSize (Game.config g))
  /\ wall_rows (Game.maze g')
  /\ Game.player g' = Game.Player (px s) (py s) (px s) (py s)
  /\ Game.visitedCells g' = [Game.getCellKey (px s) (py s)]
  /\ Game.isCellExplored g' (px s) (py s) = true
  /\ (forall x y, Game.isCellVisible g' x y = true -> Game.isCellExplored g' x y = true)
  /\ exists explored,
       Game.trace (fst k')
       = Game.trace (fst k) ++ explored
           ++ [Game.OnGameStart (Game.mazeSize (Game.config g)) (Game.viewMode (Game.config g))
                 (Game.player g') (Maze.getEnd (Game.maze g'))]
       /\ Forall is_explored_event explored.
Proof. apply restart_spec. Qed.

Lemma restart_fresh_witness :
  Game.state (Game.game (fst (snd (Game.restart hostRandom 100 9000 demoSession))))
  = Game.State true false false false 0 (Some 9000) None.
Proof.
  assert (Game.restart hostRandom 100 9000 demoSession
          = (Normal tt, snd (Game.restart hostRandom 100 9000 demoSession))) as Hrun
    by (vm_compute; reflexivity).
  destruct (restart_fresh _ _ _ _ _ Hrun) as (_ & Hstate & _).
  exact Hstate.
Defined.

(** X26: [setMazeSize(size)] turns down a size below 5 or above 30 and
    changes nothing; for a size from 5 to 30 it records the size and
    restarts, so that when it returns the maze is [size] by [size], the
    view mode is the one there was, and the game runs anew with the player
    on the start. *)
Theorem setMazeSize_restarts {R : Type} (native_random : R -> float * R) (fuel : nat)
    (now size : Z) (k k' : Game.session (R:=R)) :
  Game.setMazeSize native_random fuel now size k = (Normal tt, k') ->
  let g := Game.game (fst k) in
  let g' := Game.game (fst k') in
  if (size <? 5) || (size >? 30) then k' = k
  else
    Game.mazeSize (Game.config g') = size
    /\ Game.viewMode (Game.config g') = Game.viewMode (Game.config g)
    /\ Maze.getSize (Game.maze g') = (size, size)
    /\ Game.state g' = Game.State true false false false 0 (Some now) None
    /\ Game.player g'
       = Game.Player (px (Maze.getStart (Game.maze g'))) (py (Maze.getStart (Game.maze g')))
           (px (Maze.getStart (Game.maze g'))) (py (Maze.getStart (Game.maze g'))).
Proof.
  unfold Game.setMazeSize. destruct ((size <? 5) || (size >? 30)); [by intros [= <-]|].
  intros Hrun.
  apply bind_normal_inv in Hrun as ([] & k1 & [Hset _]%onWorld_normal_inv & Hrun).
  injection Hset as Hset.
  apply restart_spec in Hrun as (Hc & Hs & Hsize & _ & Hp & _).
  rewrite <-Hset in *. simpl in *. rewrite Hc. simpl. by split_and!.
Qed.

Lemma setMazeSize_restarts_witness :
  Maze.getSize
    (Game.maze (Game.game (fst (snd (Game.setMazeSize hostRandom 100 9000 5 demoSession)))))
  = (5, 5).
Proof.
  assert (Game.setMazeSize hostRandom 100 9000 5 demoSession
          = (Normal tt, snd (Game.setMazeSize hostRandom 100 9000 5 demoSession))) as Hrun
    by (vm_compute; reflexivity).
  destruct (setMazeSize_restarts _ _ _ _ _ _ Hrun) as (_ & _ & Hsize & _).
  exact Hsize.
Defined.

(** ** The path when the end cannot be reached *)

(** The search of [calculatePath] returns within its loop budget, with
    a way to the end or with the empty list. *)
Lemma pathLoop_total (m : Maze.t) (fuel : nat) :
  wall_rows m ->
  forall (d : point -> nat) (processed queue : list point) (visited : grid bool)
         (parent : grid (option point)),
    search_inv m d processed [] queue visited parent ->
    (S (Z.to_nat (Maze.width m * Maze.height m)) <= fuel + length processed)%nat ->
    exists p, Maze.pathLoop fuel m queue visited parent = Normal p
              /\ (p = [] \/ joins m (Maze.start m) (Maze.end_ m) p).
Proof.
  intros Hrows.
  induction fuel as [|fuel IH]; intros d processed queue visited parent Hinv Hfuel.
  { pose proof (cells_bounded m _ (seen_nodup _ _ _ _ _ _ _ Hinv)
                  (seen_in_grid _ _ _ _ _ _ _ Hinv)) as Hlen.
    rewrite length_app in Hlen. lia. }
  cbn [Maze.pathLoop].
  destruct queue as [|cur queue]; [by eauto|].
  assert (Hcur : cur ∈ processed ++ [] ++ cur :: queue).
  { rewrite !elem_of_app, elem_of_cons. auto. }
  destruct ((px cur =? px (Maze.end_ m)) && (py cur =? py (Maze.end_ m))) eqn:Hat.
  - assert (cur = Maze.end_ m) as Hcur_end by (apply point_eq; lia).
    destruct (buildPath_walk m d _ _ _ _ _ (Maze.searchFuel m) Hinv cur [] Hcur)
      as (p & Hp & Hjoin & Hlen).
    { pose proof (cells_bounded m _ (seen_nodup _ _ _ _ _ _ _ Hinv)
                    (seen_in_grid _ _ _ _ _ _ _ Hinv)).
      pose proof (depth_bound _ _ _ _ _ _ _ Hinv cur Hcur). unfold Maze.searchFuel. lia. }
    rewrite app_nil_r in Hp. exists p. split; [done|]. right. by rewrite <-Hcur_end.
  - assert (cur ≠ Maze.end_ m) as Hne.
    { intros ->. rewrite !Z.eqb_refl in Hat. done. }
    destruct (visit_all m Hrows Maze.directions d processed queue visited parent cur []
                (search_inv_dequeue _ _ _ _ _ _ _ Hinv))
      as (d' & queue' & visited' & parent' & Heq & Hinv' & Hdone);
      [by intros ? ? []%elem_of_nil|done|].
    rewrite Heq. cbn [cbind fst snd].
    apply (IH d' (processed ++ [cur])).
    + by apply search_inv_done.
    + rewrite length_app. simpl. lia.
Qed.

(** X27: [calculatePath] always returns on a maze that has the rows of
    its wall arrays and its start inside the grid, and the path it sets is
    empty exactly when the end cannot be reached from the start; otherwise
    it leads from the start to the end. *)
Theorem calculatePath_empty_iff_unreachable (m : Maze.t) :
  wall_rows m -> point_in_grid m (Maze.start m) ->
  exists p,
    Maze.calculatePath m = (Normal tt, Maze.set_path p m)
    /\ (p = [] <-> ~ reachable m (Maze.end_ m))
    /\ (p <> [] -> joins m (Maze.start m) (Maze.end_ m) p).
Proof.
  intros Hrows Hstart.
  assert (exists p, Maze.searchPath m = Normal p
                    /\ (p = [] \/ joins m (Maze.start m) (Maze.end_ m) p))
    as (p & Hp & Hcases).
  { unfold Maze.searchPath. apply in_grid_bounds in Hstart as Hb.
    destruct (filled2_read (Maze.height m) (Maze.width m) false) as (visited & -> & Hvis);
      [lia..|].
    destruct (filled2_read (Maze.height m) (Maze.width m) (None : option point))
      as (parent & -> & Hpar); [lia..|].
    cbn [cbind].
    destruct (write2_returns visited (py (Maze.start m)) (px (Maze.start m)) true
                (Some false)) as [visited' Hw]; [apply Hvis; lia|].
    rewrite Hw. cbn [cbind].
    eapply pathLoop_total; [done| |unfold Maze.searchFuel; simpl; lia].
    eapply search_inv_start; [done| | |done].
    - intros c Hc%in_grid_bounds. apply Hvis; lia.
    - intros c Hc%in_grid_bounds. apply Hpar; lia. }
  exists p. split_and!.
  - unfold Maze.calculatePath, get, bind, lift, modify. by rewrite Hp.
  - split.
    + intros -> Hreach.
      destruct (searchPath_shortest m Hrows Hstart Hreach) as (p' & Hp' & (Hhead & _) & _).
      rewrite Hp in Hp'. by simplify_eq.
    + intros Hno. destruct Hcases as [->|Hjoin]; [done|]. destruct Hno. by exists p.
  - intros Hne. by destruct Hcases.
Qed.

Lemma calculatePath_empty_iff_unreachable_witness :
  exists p,
    Maze.calculatePath walled2 = (Normal tt, Maze.set_path p walled2)
    /\ (p = [] <-> ~ reachable walled2 (Maze.end_ walled2))
    /\ (p <> [] -> joins walled2 (Maze.start walled2) (Maze.end_ walled2) p).
Proof.
  apply calculatePath_empty_iff_unreachable.
  - apply wall_rows_decide. vm_compute. reflexivity.
  - vm_compute. reflexivity.
Defined.

(** ** The loop of [hasLineOfSight] ends *)

Lemma sightLoop_more_fuel (fuel extra : nat) (m : Maze.t) (dx dy sx sy x2 y2 err cx cy : Z)
    (b : bool) :
  ViewSystem.sightLoop fuel m dx dy sx sy x2 y2 err cx cy = Normal b ->
  ViewSystem.sightLoop (fuel + extra) m dx dy sx sy x2 y2 err cx cy = Normal b.
Proof.
  revert err cx cy. induction fuel as [|fuel IH]; intros err cx cy; [done|].
  cbn [ViewSystem.sightLoop Nat.add].
  destruct ((cx =? x2) && (cy =? y2)); [done|].
  destruct (Maze.canMove _ _ _ _ _) as [[|]|]; cbn [cbind]; [|done..].
  apply IH.
Qed.

(** X28: the [while (true)] loop of [hasLineOfSight] ends.  Between two
    rows of the grid of a maze that has the rows of its wall arrays,
    whatever the columns, it answers true or false within
    [|x2 - x1| + |y2 - y1|] steps, and allowing it more steps changes
    nothing. *)
Theorem hasLineOfSight_loop_ends (m : Maze.t) (x1 y1 x2 y2 : Z) (extra : nat) :
  wall_rows m -> 0 <= y1 < Maze.height m -> 0 <= y2 < Maze.height m ->
  exists b,
    ViewSystem.hasLineOfSight x1 y1 x2 y2 m = Normal b
    /\ ViewSystem.sightLoop (S (Z.to_nat (Z.abs (x2 - x1) + Z.abs (y2 - y1))) + extra) m
         (Z.abs (x2 - x1)) (Z.abs (y2 - y1))
         (if x1 <? x2 then 1 else -1) (if y1 <? y2 then 1 else -1)
         x2 y2 (Z.abs (x2 - x1) - Z.abs (y2 - y1)) x1 y1 = Normal b.
Proof.
  intros Hrows Hy1 Hy2.
  destruct (hasLineOfSight_returns x1 y1 x2 y2 m Hrows Hy1 Hy2) as [b Hb].
  exists b. split; [done|]. by apply sightLoop_more_fuel.
Qed.

Lemma hasLineOfSight_loop_ends_witness :
  exists b, ViewSystem.hasLineOfSight 0 0 2 2 (Game.maze (Game.game demo)) = Normal b.
Proof.
  destruct (hasLineOfSight_loop_ends (Game.maze (Game.game demo)) 0 0 2 2 0) as (b & Hb & _).
  - apply wall_rows_decide. vm_compute. reflexivity.
  - vm_compute. split; [discriminate|reflexivity].
  - vm_compute. split; [discriminate|reflexivity].
  - by exists b.
Defined.

(** ** Starting the view system over *)

(** X29: after [reset] the history is gone, in permanent mode too, and
    so is the cache: the next [update] shows and explores exactly the cells
    in sight of the viewer, on any grid. *)
Theorem reset_then_update (m : Maze.t) (s s' : ViewSystem.t) (vx vy : Z)
    (visible : JsSet.t) :
  ViewSystem.update vx vy m (snd (ViewSystem.reset s)) = (Normal visible, s') ->
  ViewSystem.visibleCells s' = visible
  /\ (forall x y, ViewSystem.isCellVisible s' x y = true
                  <-> in_sight m (ViewSystem.viewRange s) vx vy x y)
  /\ (forall x y, ViewSystem.isCellExplored s' x y = true
                  <-> in_sight m (ViewSystem.viewRange s) vx vy x y).
Proof.
  intros Hupd. set (s0 := snd (ViewSystem.reset s)) in *.
  assert (ViewSystem.cache s0 = ∅ /\ ViewSystem.viewRange s0 = ViewSystem.viewRange s
          /\ ViewSystem.permanentCells s0 = [] /\ ViewSystem.exploredCells s0 = [])
    as (Hcache & Hrange & Hperm & Hexp).
  { unfold s0, ViewSystem.reset. by rewrite !bind_modify. }
  assert (cache_ok m s0) as Hok.
  { intros x y r l. by rewrite Hcache, lookup_empty. }
  destruct (update_spec m vx vy s0 Hok) as (c & _ & Hspec).
  rewrite Hrange, Hperm, Hexp in Hspec.
  destruct (window m (ViewSystem.viewRange s) vx vy) as [V|e] eqn:Hw;
    [|by rewrite Hupd in Hspec].
  pose proof Hw as (Hsight & _ & Hnd)%window_spec.
  destruct (bool_decide _); rewrite Hupd in Hspec; injection Hspec as -> ->.
  - unfold ViewSystem.isCellVisible, ViewSystem.isCellExplored. simpl.
    split_and!; [done|..]; intros x y;
      rewrite JsSet_has_true, ?foldl_add_elem, ?elem_of_nil, <-Hsight; tauto.
  - unfold ViewSystem.isCellVisible, ViewSystem.isCellExplored. simpl.
    split_and!; [done|..]; intros x y; by rewrite JsSet_has_true, <-Hsight.
Qed.

Lemma reset_then_update_witness :
  ViewSystem.isCellVisible
    (snd (ViewSystem.update 1 2 (Game.maze (Game.game demo))
            (snd (ViewSystem.reset
                    (snd (ViewSystem.update 1 0 (Game.maze (Game.game demo))
                            (ViewSystem.new (Some "permanent") (Some 1)))))))) 1 0 = false.
Proof.
  pose (m := Game.maze (Game.game demo)).
  pose (s1 := snd (ViewSystem.update 1 0 m (ViewSystem.new (Some "permanent") (Some 1)))).
  pose (r := ViewSystem.update 1 2 m (snd (ViewSystem.reset s1))).
  destruct (reset_then_update m s1 (snd r) 1 2 (ViewSystem.visibleCells (snd r)))
    as (_ & Hvis & _); [vm_compute; reflexivity|].
  apply not_true_is_false. intros Hshown%Hvis.
  destruct Hshown as (Hx & Hy & _). vm_compute in Hy. by apply Hy.
Defined.

(** ** Walls read through [getWall] *)

(** X30: on a maze that has the rows of its wall arrays [getWall] never
    throws, and inside the grid [canMove] answers what [getWall] reads for
    the edge on that side: free when there is no wall. *)
Theorem getWall_agrees_canMove (m : Maze.t) (x y : Z) :
  wall_rows m -> Maze.in_grid m x y = true ->
  (forall type row col, exists v, Maze.getWall m type row col = Normal v)
  /\ Maze.canMove m x y 0 (-1) = (try w <- Maze.getWall m Maze.Horizontal y x; Normal (js_not w))
  /\ Maze.canMove m x y 1 0
     = (try w <- Maze.getWall m Maze.Vertical y (x + 1); Normal (js_not w))
  /\ Maze.canMove m x y 0 1
     = (try w <- Maze.getWall m Maze.Horizontal (y + 1) x; Normal (js_not w))
  /\ Maze.canMove m x y (-1) 0 = (try w <- Maze.getWall m Maze.Vertical y x; Normal (js_not w)).
Proof.
  intros [Hver Hhor] Hin%in_grid_bounds. split_and!.
  - intros type row col. unfold Maze.getWall, read2.
    destruct type; [| |by eauto].
    + case_match; [|by eauto]. destruct (Hhor row) as [r ->]; [lia|]. eauto.
    + case_match; [|by eauto]. destruct (Hver row) as [r ->]; [lia|]. eauto.
  - unfold Maze.canMove, Maze.getWall. simpl. case_match; [done|lia].
  - unfold Maze.canMove, Maze.getWall. simpl. case_match; [done|lia].
  - unfold Maze.canMove, Maze.getWall. simpl. case_match; [done|lia].
  - unfold Maze.canMove, Maze.getWall. simpl. case_match; [done|lia].
Qed.

Lemma getWall_agrees_canMove_witness :
  Maze.canMove (Game.maze (Game.game demo)) 1 0 1 0
  = (try w <- Maze.getWall (Game.maze (Game.game demo)) Maze.Vertical 0 (1 + 1);
     Normal (js_not w)).
Proof.
  apply (getWall_agrees_canMove (Game.maze (Game.game demo)) 1 0).
  - apply wall_rows_decide. vm_compute. reflexivity.
  - vm_compute. reflexivity.
Defined.
